(** * Live captions: transcript reconciliation, export formatters,
      recognizer adapter and session store

    A shallow embedding of the caption core of the repository:
    - [hooks/useCaptions.ts]              (transcript reconciler),
    - [lib/captions/formatters.ts]        (text, SRT, WebVTT, JSON and
                                           speaker exports, text clean-up),
    - [lib/captions/speechRecognition.ts] (recognizer adapter),
    - [lib/captions/storage.ts]           (session store),
    - [lib/captions/types.ts]             (data model),
    - [components/captions/CaptionHistory.tsx] (name of a download).

    Part I holds the definitions, Part II the theorems on the
    reconciler's tail invariant, the timecodes, the post-processing, the
    restart logic and the export/import round trip, Part III further
    properties of the same code.

    Conventions.  In the reconciler and the formatters a JavaScript [Date]
    is represented by its time value ([getTime()], milliseconds, an
    integer; an invalid date is not represented), and [new Date()] reads a
    wall clock that is passed in explicitly.  In the store, where a date
    only flows into [JSON.stringify], it is represented by its ISO-8601
    text.  The texts of the post-processing and of the clean-up are
    sequences of UTF-16 code units, with the whitespace of [trim] and
    [\s] and the word characters of [\w] as ECMAScript defines them; the
    upper-case forms outside ASCII, which the host takes from the Unicode
    tables, are a parameter.  Elsewhere strings are byte strings.  The
    host functions the store calls ([JSON.parse], [JSON.stringify],
    [localStorage]) are modelled in the module [JS]. *)

From Stdlib Require Import ZArith NArith QArith String Ascii List Bool Lia.
From Stdlib Require Import ZifyBool.
From Stdlib Require Import Decimal DecimalString DecimalPos.
From stdpp Require Import gmap strings list fin_maps.

Local Open Scope string_scope.
Local Open Scope list_scope.

#[local] Arguments String.append !s1 s2 : simpl nomatch.

(* ===================================================================== *)
(** * Part I: definitions                                                 *)
(* ===================================================================== *)

(** ** [lib/captions/types.ts] *)

(** The records are parameterized by the representation of [Date] and of
    [number]: the reconciler and the formatters use the time value of a
    date (an integer, milliseconds) and a rational confidence; the store
    holds the ISO text of a date and the literal of a number. *)

Record TranscriptEntry {date number : Type} := mkEntry {
  text : string;
  timestamp : date;
  startTime : date;
  endTime : date;
  confidence : option number;
  isFinal : bool;
  speaker : option string
}.
Arguments TranscriptEntry : clear implicits.

Module Session.
Record CaptionSession {date number : Type} := mkSession {
  id : string;
  name : string;
  startTime : date;
  endTime : date;
  transcript : list (TranscriptEntry date number);
  language : string
}.
Arguments CaptionSession : clear implicits.
End Session.

(** Entries with time values, as the reconciler and the formatters see
    them. *)
Abbreviation Entry := (TranscriptEntry Z Q).

(** ** [hooks/useCaptions.ts]: the [recognition.onresult] handler *)

Module Captions.

(** One element of [event.results]: [result.isFinal] and the first
    alternative [result[0]]. *)
Record SpeechRecognitionResult := mkResult {
  res_transcript : string;
  res_confidence : option Q;
  res_isFinal : bool
}.

Record SpeechRecognitionEvent := mkEvent {
  resultIndex : nat;
  results : list SpeechRecognitionResult
}.

(** The [transcript] state, the [beginTimeRef] ref, and the number of
    clock reads made so far ([new Date()] is [clock] at that index).  The
    handler also appends each final entry to the session it captured and
    saves that session; this does not touch [transcript] and is left out.
    The updaters passed to [setTranscript] are applied in the order of the
    calls, each at its call.  React may apply them after the handler has
    returned: the entries and their order are then the same, but the reset
    of [beginTimeRef] inside an updater comes after the later iterations
    of the loop have read it. *)
Record Hook := mkHook {
  transcript : list Entry;
  beginTimeRef : option Z;
  ticks : nat
}.

Definition initial : Hook :=
  {| transcript := []; beginTimeRef := None; ticks := 0 |}.

Section Clock.
Variable clock : nat -> Z.

(** [new Date()] *)
Definition newDate (h : Hook) : Z * Hook :=
    (clock (ticks h),
     {| transcript := transcript h; beginTimeRef := beginTimeRef h;
        ticks := S (ticks h) |}).

(** [beginTimeRef.current || new Date()] *)
Definition beginOrNow (h : Hook) : Z * Hook :=
    match beginTimeRef h with
    | Some t => (t, h)
    | None => newDate h
    end.

(** The updater passed to [setTranscript]: [prev => ...].  Both branches
      keep [prev.filter(e => e.isFinal)] and append [entry]; the final
      branch also resets [beginTimeRef.current = new Date()]. *)
Definition updater (entry : Entry) (h : Hook) : Hook :=
    if negb (isFinal entry) then
      let filtered := List.filter isFinal (transcript h) in
      {| transcript := filtered ++ [entry];
         beginTimeRef := beginTimeRef h; ticks := ticks h |}
    else
      let filtered := List.filter isFinal (transcript h) in
      let '(now, h1) := newDate h in
      {| transcript := filtered ++ [entry];
         beginTimeRef := Some now; ticks := ticks h1 |}.

(** One iteration of the [for] loop: build [entry], then
      [setTranscript(updater)]. *)
Definition reconcile (h : Hook) (r : SpeechRecognitionResult) : Hook :=
    let '(ts, h1) := newDate h in
    let '(st, h2) := beginOrNow h1 in
    let '(en, h3) := newDate h2 in
    let entry :=
      {| text := res_transcript r;
         timestamp := ts;
         startTime := st;
         endTime := en;
         confidence := res_confidence r;
         isFinal := res_isFinal r;
         speaker := Some "User" |} in
    updater entry h3.

(** [for (let i = currentIndex; i < results.length; i++)] *)
Definition onresult (h : Hook) (ev : SpeechRecognitionEvent) : Hook :=
    fold_left reconcile (drop (resultIndex ev) (results ev)) h.

Definition run (h : Hook) (evs : list SpeechRecognitionEvent) : Hook :=
    fold_left onresult evs h.

(** The results the handler has iterated over, in order. *)
Definition received (evs : list SpeechRecognitionEvent)
    : list SpeechRecognitionResult :=
    concat (map (fun ev => drop (resultIndex ev) (results ev)) evs).

(** [recognition.onstart]: [beginTimeRef.current = new Date()]. *)
Definition onstart (h : Hook) : Hook :=
    let '(now, h1) := newDate h in
    {| transcript := transcript h1; beginTimeRef := Some now;
       ticks := ticks h1 |}.

(** [startListening()] with a recognizer: the new session reads the clock
      four times ([Date.now()] and three [new Date()]), and
      [setTranscript([])]. *)
Definition startListening (h : Hook) : Hook :=
    {| transcript := []; beginTimeRef := beginTimeRef h;
       ticks := ticks h + 4 |}.

(** [clearTranscript()]: [setTranscript([])]. *)
Definition clearTranscript (h : Hook) : Hook :=
    {| transcript := []; beginTimeRef := beginTimeRef h; ticks := ticks h |}.

(** What happens to the hook between two renders. *)
Inductive Action :=
| Started                                   (* [recognition.onstart] *)
| Results (ev : SpeechRecognitionEvent)     (* [recognition.onresult] *)
| StartListening
| ClearTranscript.

Definition act (h : Hook) (a : Action) : Hook :=
    match a with
    | Started => onstart h
    | Results ev => onresult h ev
    | StartListening => startListening h
    | ClearTranscript => clearTranscript h
    end.

Definition play (h : Hook) (acts : list Action) : Hook :=
    fold_left act acts h.
End Clock.

Definition interims (t : list Entry) : list Entry :=
  List.filter (fun e => negb (isFinal e)) t.

Definition finals (t : list Entry) : list Entry :=
  List.filter isFinal t.

(** The transcript is a block of final entries, optionally followed by one
    interim entry. *)
Definition tail_shaped (t : list Entry) : Prop :=
  t = finals t \/ exists x, isFinal x = false /\ t = finals t ++ [x].

(** The reading "exactly one non-final trailing entry at any point in
    time", for the transcript reached from the initial state. *)
Definition exactly_one_interim (clock : nat -> Z)
    (evs : list SpeechRecognitionEvent) : Prop :=
  let t := transcript (run clock initial evs) in
  length (interims t) = 1%nat /\
  (exists x, last t = Some x /\ isFinal x = false) /\
  length (finals t) = length (List.filter res_isFinal (received evs)).

(** What the last received result says about the tail of the transcript. *)
Definition last_is_interim (rs : list SpeechRecognitionResult) : bool :=
  match last rs with
  | Some r => negb (res_isFinal r)
  | None => false
  end.

(** The text of the most recent result, when that result is interim. *)
Definition latest_interim (rs : list SpeechRecognitionResult)
  : list string :=
  match last rs with
  | Some r => if res_isFinal r then [] else [res_transcript r]
  | None => []
  end.

(** A wall clock that never runs backwards. *)
Definition monotone (clock : nat -> Z) : Prop :=
  forall i j, (i <= j)%nat -> (clock i <= clock j)%Z.

(** The utterance clock was read from the wall clock, and every entry
    ends no earlier than it starts and than it is stamped. *)
Definition timed (clock : nat -> Z) (h : Hook) : Prop :=
  (forall t, beginTimeRef h = Some t ->
             exists k, (k < ticks h)%nat /\ t = clock k) /\
  Forall (fun e => (startTime e <= endTime e)%Z /\
                   (timestamp e <= endTime e)%Z) (transcript h).

End Captions.

(** ** [lib/captions/formatters.ts] *)

Module Formatters.

(** The line feed of the template literals. *)
Definition LF : string := String (ascii_of_nat 10) EmptyString.

(** [Number.prototype.toString] on an integer. *)
Definition toString (n : Z) : string := NilZero.string_of_int (Z.to_int n).

Fixpoint repeat_char (n : nat) (c : ascii) : string :=
  match n with
  | O => EmptyString
  | S k => String c (repeat_char k c)
  end.

(** [String.prototype.padStart] with a one-character filler. *)
Definition padStart (target : nat) (fill : ascii) (s : string) : string :=
  (repeat_char (target - String.length s) fill ++ s)%string.

(** [Math.floor(ms / 1000)] is [Z.div]; [%] is the truncating [Z.rem]. *)
Definition formatMillisecondsToTimecode (ms : Z) (separator : string)
  : string :=
  let seconds := (ms / 1000)%Z in
  let minutes := (seconds / 60)%Z in
  let hours := (minutes / 60)%Z in
  let displayHours := padStart 2 "0" (toString hours) in
  let displayMinutes := padStart 2 "0" (toString (Z.rem minutes 60)) in
  let displaySeconds := padStart 2 "0" (toString (Z.rem seconds 60)) in
  let displayMs := padStart 3 "0" (toString (Z.rem ms 1000)) in
  (displayHours ++ ":" ++ displayMinutes ++ ":" ++ displaySeconds
     ++ separator ++ displayMs)%string.

Definition formatTimecodeSRT (time startTime : Z) : string :=
  let elapsed := (time - startTime)%Z in
  formatMillisecondsToTimecode elapsed ",".

Definition formatTimecodeVTT (time startTime : Z) : string :=
  let elapsed := (time - startTime)%Z in
  formatMillisecondsToTimecode elapsed ".".

(** [sessionStartTime || (transcript[0]?.startTime || new Date())]; a
    [Date] object is always truthy. *)
Definition zeroPoint (transcript : list Entry)
    (sessionStartTime : option Z) (now : Z) : Z :=
  match sessionStartTime with
  | Some t => t
  | None =>
      match transcript with
      | e :: _ => startTime e
      | [] => now
      end
  end.

(** The three [output += ...] statements of one [forEach] iteration. *)
Definition srtBlock (counter : Z) (entry : Entry) (start : Z)
  : string :=
  ((toString counter ++ LF)
   ++ (formatTimecodeSRT (startTime entry) start ++ " --> "
         ++ formatTimecodeSRT (endTime entry) start ++ LF)
   ++ (text entry ++ LF ++ LF))%string.

Definition formatAsSRT (transcript : list Entry)
    (sessionStartTime : option Z) (now : Z) : string :=
  let startTime := zeroPoint transcript sessionStartTime now in
  let '(output, _) :=
    fold_left
      (fun '(output, counter) entry =>
         ((output ++ srtBlock counter entry startTime)%string,
          (counter + 1)%Z))
      (List.filter isFinal transcript) (EmptyString, 1%Z) in
  output.

Definition vttBlock (index : nat) (entry : Entry) (start : Z)
  : string :=
  ((toString (Z.of_nat index + 1) ++ LF)
   ++ (formatTimecodeVTT (startTime entry) start ++ " --> "
         ++ formatTimecodeVTT (endTime entry) start ++ LF)
   ++ (text entry ++ LF ++ LF))%string.

(** [forEach((entry, index) => ...)]: the index is threaded with the
    output. *)
Definition formatAsWebVTT (transcript : list Entry)
    (sessionStartTime : option Z) (now : Z) : string :=
  let startTime := zeroPoint transcript sessionStartTime now in
  let '(output, _) :=
    fold_left
      (fun '(output, index) entry =>
         ((output ++ vttBlock index entry startTime)%string, S index))
      (List.filter isFinal transcript) (("WEBVTT" ++ LF ++ LF)%string, O) in
  output.

(** [Array.prototype.join] *)
Fixpoint join (sep : string) (l : list string) : string :=
  match l with
  | [] => EmptyString
  | [a] => a
  | a :: rest => (a ++ sep ++ join sep rest)%string
  end.

Inductive Format := FormatText | FormatSRT | FormatWebVTT.

Section Locale.
(** [Date.prototype.toLocaleTimeString], which depends on the host's
    locale. *)
Variable toLocaleTimeString : Z -> string.

(** [entry.speaker || 'Unknown'] *)
Definition speakerOrUnknown (entry : Entry) : string :=
  match speaker entry with
  | Some s => if String.eqb s "" then "Unknown" else s
  | None => "Unknown"
  end.

Definition formatAsText (transcript : list Entry) : string :=
  join (LF ++ LF)
    (List.map
       (fun entry =>
          let time := toLocaleTimeString (timestamp entry) in
          let speaker := speakerOrUnknown entry in
          ("[" ++ time ++ "] " ++ speaker ++ ": " ++ text entry)%string)
       (List.filter isFinal transcript)).

(** [formatTranscript(transcript, format, sessionStartTime)] *)
Definition formatTranscript (transcript : list Entry) (format : Format)
    (sessionStartTime : option Z) (now : Z) : string :=
  match format with
  | FormatText => formatAsText transcript
  | FormatSRT => formatAsSRT transcript sessionStartTime now
  | FormatWebVTT => formatAsWebVTT transcript sessionStartTime now
  end.
End Locale.

(** The cues of an SRT export, taken one by one: one per final
    entry, in transcript order, numbered from 1. *)
Definition srtCues (transcript : list Entry) (start : Z)
  : list string :=
  imap (fun i e => srtBlock (Z.of_nat i + 1) e start)
       (List.filter isFinal transcript).

(** Fixed-width decimal fields, digit by digit. *)
Definition digit (d : Z) : ascii := ascii_of_nat (48 + Z.to_nat d).

Definition two_digits (n : Z) : string :=
  String (digit (n / 10)) (String (digit (n mod 10)) EmptyString).

Definition three_digits (n : Z) : string :=
  String (digit (n / 100))
    (String (digit ((n / 10) mod 10))
       (String (digit (n mod 10)) EmptyString)).

(** An entry that starts at or after the zero point and does not end
    before it starts. *)
Definition in_order (start : Z) (e : Entry) : Prop :=
  (start <= startTime e /\ startTime e <= endTime e)%Z.

(** The text before the first character that [stop] accepts, and the
    text after that character. *)
Fixpoint cut (stop : ascii -> bool) (s : string) : string * option string :=
  match s with
  | EmptyString => (EmptyString, None)
  | String c r =>
      if stop c then (EmptyString, Some r)
      else let '(a, b) := cut stop r in (String c a, b)
  end.

(** The number a text of decimal digits denotes. *)
Definition digits_value (s : string) : option Z :=
  option_map Z.of_uint (NilZero.uint_of_string s).

(** The number a field denotes: decimal digits, after a minus sign for a
    negative number (the fields of a time before the zero point). *)
Definition field_value (s : string) : option Z :=
  match s with
  | String c r =>
      if Ascii.eqb c "-" then option_map Z.opp (digits_value r)
      else digits_value s
  | EmptyString => digits_value s
  end.

Definition is_colon (c : ascii) : bool := Ascii.eqb c ":".

Definition is_separator (c : ascii) : bool :=
  Ascii.eqb c "," || Ascii.eqb c ".".

(** The time a timecode denotes, in milliseconds: hours, minutes and
    seconds between colons, then a comma (SRT) or a full stop (WebVTT) and
    the milliseconds, each field with the sign it is written with.  A
    text that is not of this form denotes no time. *)
Definition timecode_ms (tc : string) : option Z :=
  match cut is_colon tc with
  | (h, Some r1) =>
      match cut is_colon r1 with
      | (m, Some r2) =>
          match cut is_separator r2 with
          | (s, Some f) =>
              match field_value h, field_value m, field_value s,
                    field_value f with
              | Some h, Some m, Some s, Some f =>
                  Some (((h * 60 + m) * 60 + s) * 1000 + f)%Z
              | _, _, _, _ => None
              end
          | _ => None
          end
      | _ => None
      end
  | _ => None
  end.

(** Timecodes compared by the times they denote. *)
Definition timecode_le (a b : string) : bool :=
  match timecode_ms a, timecode_ms b with
  | Some x, Some y => (x <=? y)%Z
  | _, _ => false
  end.

Definition is_digit (c : ascii) : bool :=
  let n := nat_of_ascii c in ((48 <=? n) && (n <=? 57))%nat.

Fixpoint all_digits (s : string) : bool :=
  match s with
  | EmptyString => true
  | String c r => is_digit c && all_digits r
  end.

(** The reading "every cue's end timecode is at least its start timecode",
    for one export. *)
Definition cues_end_after_start (transcript : list Entry)
    (sessionStartTime : option Z) (now : Z) : Prop :=
  let start := zeroPoint transcript sessionStartTime now in
  Forall (fun e => timecode_le (formatTimecodeSRT (startTime e) start)
                               (formatTimecodeSRT (endTime e) start) = true)
         (List.filter isFinal transcript).

End Formatters.

(** ** [lib/captions/speechRecognition.ts]: text post-processing *)

Module Text.

(** A JavaScript string is the sequence of its UTF-16 code units. *)
Abbreviation utf16 := (list N) (only parsing).

(** The code units of a text of ASCII characters. *)
Fixpoint of_string (s : string) : utf16 :=
  match s with
  | EmptyString => []
  | String c r => N_of_ascii c :: of_string r
  end.

Definition SPACE : N := 32.        (* " " *)
Definition FULL_STOP : N := 46.    (* "." *)
Definition LOWER_I : N := 105.     (* "i" *)
Definition UPPER_I : N := 73.      (* "I" *)

(** [\s], which is also what [trim] strips: the WhiteSpace and
    LineTerminator code points of ECMAScript (tab, line feed, vertical
    tab, form feed, carriage return, space, U+00A0, U+1680, U+2000 to
    U+200A, U+2028, U+2029, U+202F, U+205F, U+3000, U+FEFF). *)
Definition is_space (c : N) : bool :=
  ((9 <=? c) && (c <=? 13) || (c =? 32) || (c =? 160) || (c =? 5760)
   || (8192 <=? c) && (c <=? 8202) || (c =? 8232) || (c =? 8233)
   || (c =? 8239) || (c =? 8287) || (c =? 12288) || (c =? 65279))%N.

(** [\w]: ASCII letters, digits and underscore. *)
Definition is_word (c : N) : bool :=
  ((48 <=? c) && (c <=? 57) || (65 <=? c) && (c <=? 90)
   || (97 <=? c) && (c <=? 122) || (c =? 95))%N.

(** The ASCII lower-case letters. *)
Definition is_lower (c : N) : bool := ((97 <=? c) && (c <=? 122))%N.

Fixpoint trimStart (s : utf16) : utf16 :=
  match s with
  | [] => []
  | c :: r => if is_space c then trimStart r else s
  end.

Fixpoint trimEnd (s : utf16) : utf16 :=
  match s with
  | [] => []
  | c :: r =>
      match trimEnd r with
      | [] => if is_space c then [] else [c]
      | r' => c :: r'
      end
  end.

(** [text.trim()] *)
Definition trim (s : utf16) : utf16 := trimEnd (trimStart s).

Definition next_is_word (s : utf16) : bool :=
  match s with
  | [] => false
  | c :: _ => is_word c
  end.

(** [text.replace(/\bi\b/g, 'I')]: an "i" with a word boundary on both
    sides; [prev] tells whether the previous character is a word
    character. *)
Fixpoint replace_i_go (prev : bool) (s : utf16) : utf16 :=
  match s with
  | [] => []
  | c :: r =>
      let c' :=
        if (c =? LOWER_I)%N && negb prev && negb (next_is_word r)
        then UPPER_I else c in
      c' :: replace_i_go (is_word c) r
  end.

Definition replace_i (s : utf16) : utf16 := replace_i_go false s.

(** [text.replace(/\s+/g, ' ')]: [run] tells whether the previous character
    belongs to the whitespace run being replaced. *)
Fixpoint collapse_go (run : bool) (s : utf16) : utf16 :=
  match s with
  | [] => []
  | c :: r =>
      if is_space c
      then if run then collapse_go true r
           else SPACE :: collapse_go true r
      else c :: collapse_go false r
  end.

Definition collapse (s : utf16) : utf16 := collapse_go false s.

Section Host.
(** [String.prototype.toUpperCase] follows the case mapping of the Unicode
    tables, which are not part of the repository: outside ASCII the
    upper-case form of a one-unit string is taken from [upper]. *)
Variable upper : N -> utf16.

(** [c.toUpperCase()] for a string of one code unit; the result can be
    longer than one unit. *)
Definition toUpperCase (c : N) : utf16 :=
  if is_lower c then [(c - 32)%N]
  else if (c <? 128)%N then [c]
  else upper c.

(** [text.charAt(0).toUpperCase() + text.slice(1)] *)
Definition capitalize (s : utf16) : utf16 :=
  match s with
  | [] => []
  | c :: r => toUpperCase c ++ r
  end.

(** [if (text.length > 0)] guards the capitalization; on the empty text
    [capitalize] changes nothing. *)
Definition processTranscript (text : utf16) : utf16 :=
  let text := trim text in
  let text := capitalize text in
  let text := replace_i text in
  let text := collapse text in
  text.
End Host.

(** What is taken for granted of the case mapping outside ASCII: the
    upper-case form of a character that is not whitespace is not empty
    and holds neither whitespace nor a lower-case "i". *)
Definition case_mapping (upper : N -> utf16) : Prop :=
  forall c, (128 <= c)%N -> is_space c = false ->
    upper c <> [] /\
    Forall (fun u => is_space u = false /\ u <> LOWER_I) (upper c).

(** A run of characters without whitespace and without a lower-case
    "i", as the upper-case form of a character is. *)
Definition solid (u : utf16) : Prop :=
  u <> [] /\ Forall (fun x => is_space x = false /\ x <> LOWER_I) u.

(** The mapping that leaves every character outside ASCII as it is. *)
Definition no_mapping (c : N) : utf16 := [c].

(** The case mapping of the Latin-1 range: U+00DF becomes "SS", U+00FF
    and U+00B5 leave the range, the other lower-case letters (U+00E0 to
    U+00FE without the division sign U+00F7) move down by 32. *)
Definition latin1_mapping (c : N) : utf16 :=
  if (c =? 223)%N then [83; 83]%N
  else if (c =? 255)%N then [376]%N
  else if (c =? 181)%N then [924]%N
  else if ((224 <=? c) && (c <=? 254) && negb (c =? 247))%N then [(c - 32)%N]
  else [c].

Definition head_space (s : utf16) : bool :=
  match s with
  | [] => false
  | c :: _ => is_space c
  end.

Fixpoint last_space (s : utf16) : bool :=
  match s with
  | [] => false
  | c :: r =>
      match r with
      | [] => is_space c
      | _ => last_space r
      end
  end.

(** A text of whitespace only. *)
Fixpoint all_space (s : utf16) : bool :=
  match s with
  | [] => true
  | c :: r => is_space c && all_space r
  end.

(** No whitespace is left but single spaces; [run] tells whether the
    previous character is a space. *)
Fixpoint tidy (run : bool) (s : utf16) : bool :=
  match s with
  | [] => true
  | c :: r =>
      if is_space c then negb run && (c =? SPACE)%N && tidy true r
      else tidy false r
  end.

(** *** The post-processing in the words of the spec

    "Trim, capitalize first letter, normalize the standalone lowercase
    pronoun i to I, collapse repeated whitespace": the words of the
    fragment, the first letter of the first word in upper case, every
    standalone "i" of a word replaced, the words joined by single
    spaces. *)

(** The fields of a text between its whitespace characters. *)
Fixpoint fields (s : utf16) : list utf16 :=
  match s with
  | [] => [[]]
  | c :: r =>
      if is_space c then [] :: fields r
      else match fields r with
           | w :: ws => (c :: w) :: ws
           | [] => [[c]]
           end
  end.

Definition filled (w : utf16) : bool :=
  match w with
  | [] => false
  | _ => true
  end.

(** The words of a text: its maximal runs without whitespace. *)
Definition words (s : utf16) : list utf16 := List.filter filled (fields s).


Definition word_at (s : utf16) (k : nat) : bool :=
  match s !! k with
  | Some c => is_word c
  | None => false
  end.

(** The character at index [k] is an "i" with no word character directly
    before it and none directly after it; [prev] tells whether a word
    character precedes the text. *)
Definition lone (prev : bool) (s : utf16) (k : nat) : bool :=
  match s !! k with
  | Some c =>
      (c =? LOWER_I)%N
      && negb (match k with
               | O => prev
               | S j => word_at s j
               end)
      && negb (word_at s (S k))
  | None => false
  end.

(** A standalone "i". *)
Definition standalone (s : utf16) (k : nat) : bool := lone false s k.

(** Every standalone "i" of a word written "I". *)
Definition pronoun (w : utf16) : utf16 :=
  imap (fun k c => if standalone w k then UPPER_I else c) w.

Section HostSpec.
Variable upper : N -> utf16.




End HostSpec.

End Text.

(** ** [lib/captions/speechRecognition.ts]: [SpeechRecognitionService] *)

Module Recognizer.

(** What a pending [setTimeout] callback does when it fires. *)
Inductive TimerAction :=
| CallStart.               (* [() => this.start()] *)

Record Timer := mkTimer {
  timer_id : nat;
  timer_delay : Z;         (* milliseconds *)
  timer_action : TimerAction
}.

(** Requests issued to the underlying recognizer. *)
Inductive Request := ReqStart | ReqStop | ReqAbort.

(** Callbacks delivered to the caller. *)
Inductive Notice :=
| NoticeStart
| NoticeEnd
| NoticeStatus (status : string).

(** The private fields of the service, together with the host's pending
    timers and the trace of requests and callbacks. *)
Record Service := mkService {
  isListening : bool;
  startTime : option Z;
  autoRestart : bool;
  restartTimer : option nat;
  timers : list Timer;
  next_timer : nat;
  requests : list Request;
  notices : list Notice
}.

(** A freshly constructed service: [isListening = false],
    [autoRestart = true], no timer. *)
Definition created : Service :=
  {| isListening := false; startTime := None; autoRestart := true;
     restartTimer := None; timers := []; next_timer := 0;
     requests := []; notices := [] |}.

Definition notify (n : Notice) (s : Service) : Service :=
  {| isListening := isListening s; startTime := startTime s;
     autoRestart := autoRestart s; restartTimer := restartTimer s;
     timers := timers s; next_timer := next_timer s;
     requests := requests s; notices := notices s ++ [n] |}.

Definition request (r : Request) (s : Service) : Service :=
  {| isListening := isListening s; startTime := startTime s;
     autoRestart := autoRestart s; restartTimer := restartTimer s;
     timers := timers s; next_timer := next_timer s;
     requests := requests s ++ [r]; notices := notices s |}.

(** [this.restartTimer = setTimeout(action, delay)] *)
Definition scheduleRestart (action : TimerAction) (delay : Z) (s : Service)
  : Service :=
  {| isListening := isListening s; startTime := startTime s;
     autoRestart := autoRestart s;
     restartTimer := Some (next_timer s);
     timers := timers s ++ [mkTimer (next_timer s) delay action];
     next_timer := S (next_timer s);
     requests := requests s; notices := notices s |}.

(** [if (this.restartTimer) { clearTimeout(this.restartTimer);
    this.restartTimer = null; }] *)
Definition clearRestartTimer (s : Service) : Service :=
  match restartTimer s with
  | Some id =>
      {| isListening := isListening s; startTime := startTime s;
         autoRestart := autoRestart s; restartTimer := None;
         timers := List.filter (fun t => negb (timer_id t =? id)%nat) (timers s);
         next_timer := next_timer s;
         requests := requests s; notices := notices s |}
  | None => s
  end.

Definition setAutoRestart (enabled : bool) (s : Service) : Service :=
  {| isListening := isListening s; startTime := startTime s;
     autoRestart := enabled; restartTimer := restartTimer s;
     timers := timers s; next_timer := next_timer s;
     requests := requests s; notices := notices s |}.

Definition setListening (b : bool) (s : Service) : Service :=
  {| isListening := b; startTime := startTime s;
     autoRestart := autoRestart s; restartTimer := restartTimer s;
     timers := timers s; next_timer := next_timer s;
     requests := requests s; notices := notices s |}.

Definition setStartTime (t : Z) (s : Service) : Service :=
  {| isListening := isListening s; startTime := Some t;
     autoRestart := autoRestart s; restartTimer := restartTimer s;
     timers := timers s; next_timer := next_timer s;
     requests := requests s; notices := notices s |}.

(** [recognition.onstart] *)
Definition onstart (now : Z) (s : Service) : Service :=
  notify (NoticeStatus "listening")
    (notify NoticeStart (setStartTime now (setListening true s))).

(** [recognition.onend]: [isListening] is cleared first, the callbacks run,
    and then the restart is guarded by [this.autoRestart &&
    this.isListening]. *)
Definition onend (s : Service) : Service :=
  let s := setListening false s in
  let s := notify NoticeEnd s in
  let s := notify (NoticeStatus "stopped") s in
  if autoRestart s && isListening s
  then scheduleRestart CallStart 1000 s
  else s.

(** [start()] *)
Definition start (s : Service) : Service :=
  request ReqStart (clearRestartTimer s).

(** [stop()] *)
Definition stop (s : Service) : Service :=
  request ReqStop (clearRestartTimer (setAutoRestart false s)).

(** [abort()] *)
Definition abort (s : Service) : Service :=
  request ReqAbort (clearRestartTimer (setAutoRestart false s)).

(** The events and calls that drive a service. *)
Inductive Step :=
| HostStart (now : Z)      (* the recognizer fires [onstart] *)
| HostEnd                  (* the recognizer fires [onend] *)
| CallerStart
| CallerStop
| CallerAbort
| CallerSetAutoRestart (enabled : bool).

Definition step (s : Service) (e : Step) : Service :=
  match e with
  | HostStart now => onstart now s
  | HostEnd => onend s
  | CallerStart => start s
  | CallerStop => stop s
  | CallerAbort => abort s
  | CallerSetAutoRestart b => setAutoRestart b s
  end.

Definition steps (s : Service) (es : list Step) : Service :=
  fold_left step es s.

(** [setTimeout(() => this.start(), delay)] as [onerror] calls it: the
    handle is dropped, [restartTimer] is not assigned. *)
Definition scheduleDetached (delay : Z) (s : Service) : Service :=
  {| isListening := isListening s; startTime := startTime s;
     autoRestart := autoRestart s; restartTimer := restartTimer s;
     timers := timers s ++ [mkTimer (next_timer s) delay CallStart];
     next_timer := S (next_timer s);
     requests := requests s; notices := notices s |}.

(** [recognition.onerror], for [event.error] a string.  The result pairs
    the state with the messages passed to [callbacks.onError], in order;
    the status callback is recorded in [notices]. *)
Definition onerror (error : string) (s : Service) : Service * list string :=
  let s := notify (NoticeStatus "error") s in
  if String.eqb error "no-speech" then
    (if autoRestart s then scheduleDetached 500 s else s, [error])
  else if String.eqb error "audio-capture" then
    (s, [error; "Microphone not available"])
  else if String.eqb error "not-allowed" then
    (s, [error; "Microphone permission denied"])
  else if String.eqb error "network" then
    (if autoRestart s then scheduleDetached 2000 s else s,
     [error; "Network error"])
  else if String.eqb error "aborted" then (s, [error])
  else (s, [error; ("Recognition error: " ++ error)%string]).

Definition pending (id : nat) (s : Service) : option Timer :=
  List.find (fun t => (timer_id t =? id)%nat) (timers s).

(** The host runs the callback of the pending timer [id]: the timer is
    spent and its action is taken.  Nothing happens when no such timer is
    pending. *)
Definition fire (id : nat) (s : Service) : Service :=
  match pending id s with
  | Some t =>
      let s :=
        {| isListening := isListening s; startTime := startTime s;
           autoRestart := autoRestart s; restartTimer := restartTimer s;
           timers :=
             List.filter (fun t => negb (timer_id t =? id)%nat) (timers s);
           next_timer := next_timer s;
           requests := requests s; notices := notices s |} in
      match timer_action t with
      | CallStart => start s
      end
  | None => s
  end.

(** [setTimeout] whose callback is kept outside [timers]: the identifier
    is taken. *)
Definition reserveTimer (s : Service) : Service :=
  {| isListening := isListening s; startTime := startTime s;
     autoRestart := autoRestart s; restartTimer := restartTimer s;
     timers := timers s; next_timer := S (next_timer s);
     requests := requests s; notices := notices s |}.

(** The service with what lies beside its private fields:
    [recognition.lang], the pending timers of [setLanguage] (100 ms; the
    callback is [this.autoRestart = true; this.start()]) and the messages
    passed to [callbacks.onError]. *)
Record Machine := mkMachine {
  service : Service;
  lang : string;
  relaunch : list nat;
  errors : list string
}.

Definition launched (language : string) : Machine :=
  {| service := created; lang := language; relaunch := []; errors := [] |}.

Definition onService (f : Service -> Service) (m : Machine) : Machine :=
  {| service := f (service m); lang := lang m; relaunch := relaunch m;
     errors := errors m |}.

(** [setLanguage(language)] *)
Definition setLanguage (language : string) (m : Machine) : Machine :=
  if isListening (service m) then
    let s := stop (service m) in
    {| service := reserveTimer s; lang := language;
       relaunch := relaunch m ++ [next_timer s]; errors := errors m |}
  else
    {| service := service m; lang := language; relaunch := relaunch m;
       errors := errors m |}.

(** The events and calls that drive a service, errors and timers
    included. *)
Inductive Event :=
| Plain (e : Step)
| HostError (error : string)           (* the recognizer fires [onerror] *)
| TimerFires (id : nat)                (* the host runs a timer callback *)
| CallerSetLanguage (language : string).

Definition handle (m : Machine) (e : Event) : Machine :=
  match e with
  | Plain e => onService (fun s => step s e) m
  | HostError error =>
      let '(s, messages) := onerror error (service m) in
      {| service := s; lang := lang m; relaunch := relaunch m;
         errors := errors m ++ messages |}
  | TimerFires id =>
      if existsb (Nat.eqb id) (relaunch m) then
        {| service := start (setAutoRestart true (service m));
           lang := lang m;
           relaunch := List.filter (fun i => negb (i =? id)%nat) (relaunch m);
           errors := errors m |}
      else onService (fire id) m
  | CallerSetLanguage language => setLanguage language m
  end.

Definition handles (m : Machine) (es : list Event) : Machine :=
  fold_left handle es m.

(** The events that switch auto-restart on again. *)
Definition enables (e : Event) : bool :=
  match e with
  | Plain (CallerSetAutoRestart true) => true
  | CallerSetLanguage _ => true
  | _ => false
  end.

(** No restart handle is held, and the timers of [setLanguage] have
    identifiers below the next one. *)
Definition settled (m : Machine) : Prop :=
  restartTimer (service m) = None /\
  Forall (fun i => (i < next_timer (service m))%nat) (relaunch m).

(** Auto-restart is off, no timer of [setLanguage] is pending, and the
    pending timers are among those of [s0]. *)
Definition quiet (s0 : Service) (m : Machine) : Prop :=
  autoRestart (service m) = false /\ relaunch m = [] /\
  incl (timers (service m)) (timers s0).

End Recognizer.

(** ** JavaScript values, [JSON.stringify] and [JSON.parse]

    The store keeps its sessions as JSON text in [localStorage].  The host
    functions it calls are modelled here:
    - a number is kept as the literal it is written with (sign, integer
      digits, fraction digits, exponent); its numeric value is never needed;
    - a [Date] object is represented by what its [toJSON()] returns: the
      ISO-8601 text of a valid date, or nothing for an invalid date;
    - an object is its list of own properties in insertion order, with
      distinct keys (the reordering of integer-like keys is not modelled);
    - strings are byte strings ([length] counts bytes). *)

Module JS.

#[local] Set Warnings "-register-all".

Record numlit := mkNum {
  num_neg : bool;
  num_int : uint;
  num_frac : uint;                              (* [Nil]: no fraction *)
  num_exp : option (bool * option bool * uint)  (* [E]?, sign ([true] is -), digits *)
}.

Inductive value :=
| Undefined
| Null
| Bool (b : bool)
| Num (n : numlit)
| Str (s : string)
| DateV (iso : option string)
| Arr (items : list value)
| Obj (props : list (string * value)).

Definition DQ : ascii := "034"%char.          (* the double quote *)
Definition BSL : ascii := "092"%char.         (* the backslash *)
Definition LF : string := String "010"%char EmptyString.

(** *** Properties and conversions *)

Fixpoint lookup_prop (props : list (string * value)) (k : string)
  : option value :=
  match props with
  | [] => None
  | (k', v) :: rest => if String.eqb k' k then Some v else lookup_prop rest k
  end.

(** [obj[k] = v]: an existing property keeps its place. *)
Fixpoint set_prop (props : list (string * value)) (k : string) (v : value)
  : list (string * value) :=
  match props with
  | [] => [(k, v)]
  | (k', v') :: rest =>
      if String.eqb k' k then (k, v) :: rest
      else (k', v') :: set_prop rest k v
  end.

(** [v.k] for the property names the store reads ([id], [startTime],
    [endTime], [timestamp], [transcript]): a [TypeError] ([None]) on
    [null] and [undefined], the property of an object, [undefined] on
    everything else. *)
Definition get (v : value) (k : string) : option value :=
  match v with
  | Undefined | Null => None
  | Obj props =>
      match lookup_prop props k with
      | Some x => Some x
      | None => Some Undefined
      end
  | _ => Some Undefined
  end.

Definition string_of_nat (n : nat) : string :=
  NilZero.string_of_uint (Nat.to_uint n).

Fixpoint indexed (i : nat) (l : list value) : list (string * value) :=
  match l with
  | [] => []
  | v :: rest => (string_of_nat i, v) :: indexed (S i) rest
  end.

Fixpoint chars (s : string) : list value :=
  match s with
  | EmptyString => []
  | String c r => Str (String c EmptyString) :: chars r
  end.

(** [{...v}]: the own enumerable properties of [v]. *)
Definition spread (v : value) : list (string * value) :=
  match v with
  | Obj props => props
  | Arr items => indexed 0 items
  | Str s => indexed 0 (chars s)
  | _ => []
  end.

Definition digits (d : uint) : string := NilEmpty.string_of_uint d.

Definition print_num (n : numlit) : string :=
  ((if num_neg n then "-" else "")
   ++ digits (num_int n)
   ++ match num_frac n with
      | Nil => ""
      | f => "." ++ digits f
      end
   ++ match num_exp n with
      | None => ""
      | Some (upper, sign, e) =>
          (if upper then "E" else "e")
          ++ match sign with
             | None => ""
             | Some true => "-"
             | Some false => "+"
             end
          ++ digits e
      end)%string.

(** [a === b]: by value on primitives (numbers as their literals); two
    objects, arrays or dates that come from different evaluations are never
    the same reference. *)
Definition strict_eq (a b : value) : bool :=
  match a, b with
  | Undefined, Undefined => true
  | Null, Null => true
  | Bool x, Bool y => Bool.eqb x y
  | Num x, Num y => String.eqb (print_num x) (print_num y)
  | Str x, Str y => String.eqb x y
  | _, _ => false
  end.

Fixpoint join (sep : string) (l : list string) : string :=
  match l with
  | [] => EmptyString
  | [a] => a
  | a :: rest => (a ++ sep ++ join sep rest)%string
  end.

(** [String(v)], as a template literal converts [v]. *)
Fixpoint to_string (v : value) : string :=
  match v with
  | Undefined => "undefined"
  | Null => "null"
  | Bool true => "true"
  | Bool false => "false"
  | Num n => print_num n
  | Str s => s
  | DateV (Some iso) => iso
  | DateV None => "Invalid Date"
  | Arr items =>
      join ","
        (List.map (fun x => match x with
                            | Undefined | Null => EmptyString
                            | _ => to_string x
                            end) items)
  | Obj _ => "[object Object]"
  end.

(** *** [JSON.stringify] *)

Definition hex_digit (n : nat) : ascii :=
  if (n <? 10)%nat then ascii_of_nat (48 + n) else ascii_of_nat (87 + n).

Definition escape_char (c : ascii) : string :=
  let n := nat_of_ascii c in
  if Ascii.eqb c DQ then String BSL (String DQ EmptyString)
  else if Ascii.eqb c BSL then String BSL (String BSL EmptyString)
  else if (n =? 8)%nat then String BSL "b"
  else if (n =? 9)%nat then String BSL "t"
  else if (n =? 10)%nat then String BSL "n"
  else if (n =? 12)%nat then String BSL "f"
  else if (n =? 13)%nat then String BSL "r"
  else if (n <? 32)%nat then
    String BSL (String "u" (String "0" (String "0"
      (String (hex_digit (n / 16)) (String (hex_digit (n mod 16))
         EmptyString)))))
  else String c EmptyString.

Fixpoint escape (s : string) : string :=
  match s with
  | EmptyString => EmptyString
  | String c r => (escape_char c ++ escape r)%string
  end.

Definition quote (s : string) : string :=
  String DQ (escape s ++ String DQ EmptyString).

Definition is_undefined (v : value) : bool :=
  match v with
  | Undefined => true
  | _ => false
  end.

(** The serialization of one value; [gap] is the indentation unit and
    [indent] the current indentation.  Inside an array [undefined] is
    written [null]; a property whose value is [undefined] is left out. *)
Fixpoint str (gap indent : string) (v : value) : string :=
  match v with
  | Undefined => "null"
  | Null => "null"
  | Bool true => "true"
  | Bool false => "false"
  | Num n => print_num n
  | Str s => quote s
  | DateV (Some iso) => quote iso
  | DateV None => "null"
  | Arr items =>
      let stepback := indent in
      let indent := (indent ++ gap)%string in
      match items with
      | [] => "[]"
      | _ =>
          let partial := List.map (str gap indent) items in
          if String.eqb gap ""
          then ("[" ++ join "," partial ++ "]")%string
          else ("[" ++ LF ++ indent
                  ++ join ("," ++ LF ++ indent) partial
                  ++ LF ++ stepback ++ "]")%string
      end
  | Obj props =>
      let stepback := indent in
      let indent := (indent ++ gap)%string in
      let partial :=
        (fix members (ps : list (string * value)) : list string :=
           match ps with
           | [] => []
           | (k, x) :: rest =>
               if is_undefined x then members rest
               else (quote k ++ (if String.eqb gap "" then ":" else ": ")
                       ++ str gap indent x)%string :: members rest
           end) props in
      match partial with
      | [] => "{}"
      | _ =>
          if String.eqb gap ""
          then ("{" ++ join "," partial ++ "}")%string
          else ("{" ++ LF ++ indent
                  ++ join ("," ++ LF ++ indent) partial
                  ++ LF ++ stepback ++ "}")%string
      end
  end.

(** [JSON.stringify(v)] and [JSON.stringify(v, null, 2)]. *)
Definition stringify (v : value) : string := str "" "" v.
Definition stringify2 (v : value) : string := str "  " "" v.

(** *** [JSON.parse] *)

(** JSON white space: space, tab, line feed, carriage return. *)
Definition is_ws (c : ascii) : bool :=
  let n := nat_of_ascii c in
  ((n =? 32) || (n =? 9) || (n =? 10) || (n =? 13))%nat.

Fixpoint skip_ws (s : string) : string :=
  match s with
  | EmptyString => EmptyString
  | String c r => if is_ws c then skip_ws r else s
  end.

Definition digit_of (c : ascii) : option (uint -> uint) :=
  match c with
  | "0" => Some D0 | "1" => Some D1 | "2" => Some D2 | "3" => Some D3
  | "4" => Some D4 | "5" => Some D5 | "6" => Some D6 | "7" => Some D7
  | "8" => Some D8 | "9" => Some D9
  | _ => None
  end%char.

(** The longest prefix of digits. *)
Fixpoint span_digits (s : string) : uint * string :=
  match s with
  | EmptyString => (Nil, EmptyString)
  | String c r =>
      match digit_of c with
      | Some d => let '(ds, rest) := span_digits r in (d ds, rest)
      | None => (Nil, s)
      end
  end.

(** [int = "0" | digit1-9 *digit]: not empty, no leading zero. *)
Definition wf_int (d : uint) : bool :=
  match d with
  | Nil => false
  | D0 Nil => true
  | D0 _ => false
  | _ => true
  end.

Definition nonempty (d : uint) : bool :=
  match d with
  | Nil => false
  | _ => true
  end.

(** [strip p s]: the rest of [s] after its prefix [p], if [s] starts
    with [p]. *)
Fixpoint strip (p s : string) : option string :=
  match p with
  | EmptyString => Some s
  | String a p' =>
      match s with
      | EmptyString => None
      | String c s' => if Ascii.eqb c a then strip p' s' else None
      end
  end.

(** [number = [ "-" ] int [ "." 1*digit ] [ ("e" | "E") [ "+" | "-" ] 1*digit ]] *)
Definition scan_exp (neg : bool) (ip frac : uint) (upper : bool) (r : string)
  : option (numlit * string) :=
  let '(sign, r1) :=
    match strip "-" r with
    | Some r' => (Some true, r')
    | None =>
        match strip "+" r with
        | Some r' => (Some false, r')
        | None => (None, r)
        end
    end in
  let '(e, r2) := span_digits r1 in
  if nonempty e
  then Some (mkNum neg ip frac (Some (upper, sign, e)), r2)
  else None.

Definition scan_number (s : string) : option (numlit * string) :=
  let '(neg, s1) :=
    match strip "-" s with
    | Some r => (true, r)
    | None => (false, s)
    end in
  let '(ip, s2) := span_digits s1 in
  if negb (wf_int ip) then None else
  let '(fp, s3) :=
    match strip "." s2 with
    | Some r => let '(f, r') := span_digits r in (Some f, r')
    | None => (None, s2)
    end in
  match fp with
  | Some Nil => None
  | _ =>
      let frac := match fp with Some f => f | None => Nil end in
      match strip "e" s3 with
      | Some r => scan_exp neg ip frac false r
      | None =>
          match strip "E" s3 with
          | Some r => scan_exp neg ip frac true r
          | None => Some (mkNum neg ip frac None, s3)
          end
      end
  end.

Definition hex_val (c : ascii) : option nat :=
  let n := nat_of_ascii c in
  if ((48 <=? n) && (n <=? 57))%nat then Some (n - 48)%nat
  else if ((97 <=? n) && (n <=? 102))%nat then Some (n - 87)%nat
  else if ((65 <=? n) && (n <=? 70))%nat then Some (n - 55)%nat
  else None.

Definition hex4 (a b c d : ascii) : option nat :=
  match hex_val a, hex_val b, hex_val c, hex_val d with
  | Some x, Some y, Some z, Some w =>
      Some (((x * 16 + y) * 16 + z) * 16 + w)%nat
  | _, _, _, _ => None
  end.

(** The bytes (UTF-8) of the code unit written [\uXXXX]. *)
Definition utf8 (n : nat) : string :=
  if (n <? 128)%nat then String (ascii_of_nat n) EmptyString
  else if (n <? 2048)%nat then
    String (ascii_of_nat (192 + n / 64))
      (String (ascii_of_nat (128 + n mod 64)) EmptyString)
  else
    String (ascii_of_nat (224 + n / 4096))
      (String (ascii_of_nat (128 + (n / 64) mod 64))
         (String (ascii_of_nat (128 + n mod 64)) EmptyString)).

Definition unescape (c : ascii) : option ascii :=
  if Ascii.eqb c DQ then Some DQ
  else if Ascii.eqb c BSL then Some BSL
  else if Ascii.eqb c "/" then Some "/"%char
  else if Ascii.eqb c "b" then Some "008"%char
  else if Ascii.eqb c "f" then Some "012"%char
  else if Ascii.eqb c "n" then Some "010"%char
  else if Ascii.eqb c "r" then Some "013"%char
  else if Ascii.eqb c "t" then Some "009"%char
  else None.

(** The rest of a string literal, after its opening quote. *)
Fixpoint parse_string (s : string) : option (string * string) :=
  match s with
  | EmptyString => None
  | String c r =>
      if Ascii.eqb c DQ then Some (EmptyString, r)
      else if Ascii.eqb c BSL then
        match r with
        | EmptyString => None
        | String e r1 =>
            if Ascii.eqb e "u" then
              match r1 with
              | String h1 (String h2 (String h3 (String h4 r2))) =>
                  match hex4 h1 h2 h3 h4 with
                  | Some n =>
                      match parse_string r2 with
                      | Some (t, rest) => Some ((utf8 n ++ t)%string, rest)
                      | None => None
                      end
                  | None => None
                  end
              | _ => None
              end
            else
              match unescape e with
              | Some ch =>
                  match parse_string r1 with
                  | Some (t, rest) => Some (String ch t, rest)
                  | None => None
                  end
              | None => None
              end
        end
      else if (nat_of_ascii c <? 32)%nat then None
      else
        match parse_string r with
        | Some (t, rest) => Some (String c t, rest)
        | None => None
        end
  end.

(** The members of an object literal become properties in order; a
    repeated key overwrites the earlier value. *)
Definition object_of (members : list (string * value)) : value :=
  Obj (fold_left (fun props kv => set_prop props (fst kv) (snd kv))
                 members []).

(** Recursive descent; [fuel] bounds the nesting of calls. *)
Fixpoint parse_value (fuel : nat) (s : string) : option (value * string) :=
  match fuel with
  | O => None
  | S fuel =>
      let s := skip_ws s in
      match strip "null" s with
      | Some r => Some (Null, r)
      | None =>
      match strip "true" s with
      | Some r => Some (Bool true, r)
      | None =>
      match strip "false" s with
      | Some r => Some (Bool false, r)
      | None =>
      match strip (String DQ EmptyString) s with
      | Some r =>
          match parse_string r with
          | Some (t, rest) => Some (Str t, rest)
          | None => None
          end
      | None =>
      match strip "[" s with
      | Some r =>
          match strip "]" (skip_ws r) with
          | Some rest => Some (Arr [], rest)
          | None =>
              match parse_elements fuel r with
              | Some (items, rest) => Some (Arr items, rest)
              | None => None
              end
          end
      | None =>
      match strip "{" s with
      | Some r =>
          match strip "}" (skip_ws r) with
          | Some rest => Some (Obj [], rest)
          | None =>
              match parse_members fuel r with
              | Some (members, rest) => Some (object_of members, rest)
              | None => None
              end
          end
      | None =>
          match scan_number s with
          | Some (n, rest) => Some (Num n, rest)
          | None => None
          end
      end end end end end end
  end

with parse_elements (fuel : nat) (s : string)
  : option (list value * string) :=
  match fuel with
  | O => None
  | S fuel =>
      match parse_value fuel s with
      | Some (v, r) =>
          match strip "," (skip_ws r) with
          | Some r' =>
              match parse_elements fuel r' with
              | Some (vs, rest) => Some (v :: vs, rest)
              | None => None
              end
          | None =>
              match strip "]" (skip_ws r) with
              | Some rest => Some ([v], rest)
              | None => None
              end
          end
      | None => None
      end
  end

with parse_members (fuel : nat) (s : string)
  : option (list (string * value) * string) :=
  match fuel with
  | O => None
  | S fuel =>
      match strip (String DQ EmptyString) (skip_ws s) with
      | Some r =>
          match parse_string r with
          | Some (k, r1) =>
              match strip ":" (skip_ws r1) with
              | Some r2 =>
                  match parse_value fuel r2 with
                  | Some (v, r3) =>
                      match strip "," (skip_ws r3) with
                      | Some r4 =>
                          match parse_members fuel r4 with
                          | Some (ms, rest) => Some ((k, v) :: ms, rest)
                          | None => None
                          end
                      | None =>
                          match strip "}" (skip_ws r3) with
                          | Some rest => Some ([(k, v)], rest)
                          | None => None
                          end
                      end
                  | None => None
                  end
              | None => None
              end
          | None => None
          end
      | None => None
      end
  end.

(** JSON text is written below with apostrophes in place of double
    quotes; [json] puts the double quotes back. *)
Fixpoint json (s : string) : string :=
  match s with
  | EmptyString => EmptyString
  | String c r => String (if Ascii.eqb c "'" then DQ else c) (json r)
  end.

(** [JSON.parse(text)]; [None] is a [SyntaxError]. *)
Definition parse (text : string) : option value :=
  match parse_value (2 * String.length text + 2) text with
  | Some (v, rest) =>
      match skip_ws rest with
      | EmptyString => Some v
      | _ => None
      end
  | None => None
  end.

(** *** Values that are JSON documents *)

(** A number literal of the JSON grammar. *)
Definition wf_num (n : numlit) : bool :=
  wf_int (num_int n)
  && match num_exp n with
     | Some (_, _, e) => nonempty e
     | None => true
     end.

Fixpoint distinct (keys : list string) : bool :=
  match keys with
  | [] => true
  | k :: rest => negb (existsb (String.eqb k) rest) && distinct rest
  end.

(** What [JSON.parse] can return: no [undefined], no [Date], well-formed
    numbers, distinct keys in every object. *)
Fixpoint plain (v : value) : bool :=
  match v with
  | Undefined => false
  | DateV _ => false
  | Null => true
  | Bool _ => true
  | Str _ => true
  | Num n => wf_num n
  | Arr items => forallb plain items
  | Obj props =>
      distinct (List.map fst props)
      && forallb (fun kv => plain (snd kv)) props
  end.

(** The number of nodes of a document, counting each element and member
    twice: a bound on the fuel its text needs. *)
Fixpoint size (v : value) : nat :=
  match v with
  | Arr items => S (list_sum (List.map (fun x => S (size x)) items))
  | Obj props => S (list_sum (List.map (fun kv => S (size (snd kv))) props))
  | _ => 1
  end.

Fixpoint all_ws (s : string) : bool :=
  match s with
  | EmptyString => true
  | String c r => is_ws c && all_ws r
  end.

(** What may follow a value in a JSON text: nothing, white space, a comma
    or a closing bracket. *)
Definition terminated (s : string) : bool :=
  match s with
  | EmptyString => true
  | String c _ =>
      is_ws c || Ascii.eqb c "," || Ascii.eqb c "]" || Ascii.eqb c "}"
  end.

(** *** The pieces of a serialized text *)

Definition sign_text (sign : option bool) : string :=
  match sign with
  | None => ""
  | Some true => "-"
  | Some false => "+"
  end.

Definition exp_text (ex : option (bool * option bool * uint)) : string :=
  match ex with
  | None => ""
  | Some (upper, sign, e) =>
      ((if upper then "E" else "e") ++ sign_text sign ++ digits e)%string
  end.

Definition frac_text (fr : uint) : string :=
  match fr with
  | Nil => ""
  | f => ("." ++ digits f)%string
  end.

Definition members_text (gap indent : string)
  : list (string * value) -> list string :=
  fix members (ps : list (string * value)) : list string :=
    match ps with
    | [] => []
    | (k, x) :: rest =>
        if is_undefined x then members rest
        else (quote k ++ (if String.eqb gap "" then ":" else ": ")
                ++ str gap indent x)%string :: members rest
    end.

Definition mind (gap indent : string) : string :=
  if String.eqb gap "" then "" else (LF ++ indent ++ gap)%string.

Definition mend (gap indent : string) : string :=
  if String.eqb gap "" then "" else (LF ++ indent)%string.

Definition colon (gap : string) : string :=
  if String.eqb gap "" then ":" else ": ".

(** A text that starts with a digit or a minus sign is read as a number. *)
Definition number_start (s : string) : bool :=
  match s with
  | EmptyString => false
  | String c _ =>
      Ascii.eqb c "-" || match digit_of c with Some _ => true | None => false end
  end.

(** The round trip of one document: its text, followed by anything that
    can follow a value, is read back as the document. *)
Definition reads_back (v : value) : Prop :=
  forall gap indent fuel rest,
    all_ws gap = true -> all_ws indent = true -> terminated rest = true ->
    size v <= fuel ->
    parse_value fuel (str gap indent v ++ rest) = Some (v, rest).

(** Two values with the same serialization. *)
Definition same_text (a b : value) : Prop :=
  is_undefined a = is_undefined b /\
  forall gap indent, str gap indent a = str gap indent b.

End JS.

(** ** [lib/captions/storage.ts]: [CaptionStorage] *)

Module Storage.
Import JS.

Definition STORAGE_KEY : string := "meeting_captions".
Definition SESSION_PREFIX : string := "caption_session_".

(** The environment of the store: whether [window] is defined, and the
    contents of [localStorage] (no quota is modelled). *)
Record Env := mkEnv {
  window : bool;
  localStorage : gmap string string
}.

Definition getItem (k : string) (env : Env) : option string :=
  localStorage env !! k.

Definition setItem (k v : string) (env : Env) : Env :=
  {| window := window env; localStorage := <[k := v]> (localStorage env) |}.

Definition removeItem (k : string) (env : Env) : Env :=
  {| window := window env; localStorage := delete k (localStorage env) |}.

(** *** Dates *)

Definition digit_val (c : ascii) : option nat :=
  let n := nat_of_ascii c in
  if ((48 <=? n) && (n <=? 57))%nat then Some (n - 48)%nat else None.

Fixpoint number_of (acc : nat) (s : string) : option nat :=
  match s with
  | EmptyString => Some acc
  | String c r =>
      match digit_val c with
      | Some d => number_of (10 * acc + d) r
      | None => None
      end
  end.

Definition days_in_month (y m : nat) : nat :=
  match m with
  | 2 =>
      if ((y mod 4 =? 0) && (negb (y mod 100 =? 0) || (y mod 400 =? 0)))%nat
      then 29 else 28
  | 4 | 6 | 9 | 11 => 30
  | _ => 31
  end.

(** The text [toISOString] produces for a date in the years 0000-9999:
    [YYYY-MM-DDTHH:mm:ss.sssZ] with every field in range. *)
Definition valid_iso (s : string) : bool :=
  match number_of 0 (substring 0 4 s), number_of 0 (substring 5 2 s),
        number_of 0 (substring 8 2 s), number_of 0 (substring 11 2 s),
        number_of 0 (substring 14 2 s), number_of 0 (substring 17 2 s),
        number_of 0 (substring 20 3 s) with
  | Some y, Some mo, Some d, Some h, Some mi, Some se, Some _ =>
      (String.length s =? 24)%nat
      && String.eqb (substring 4 1 s) "-" && String.eqb (substring 7 1 s) "-"
      && String.eqb (substring 10 1 s) "T" && String.eqb (substring 13 1 s) ":"
      && String.eqb (substring 16 1 s) ":" && String.eqb (substring 19 1 s) "."
      && String.eqb (substring 23 1 s) "Z"
      && (1 <=? mo)%nat && (mo <=? 12)%nat
      && (1 <=? d)%nat && (d <=? days_in_month y mo)%nat
      && (h <=? 23)%nat && (mi <=? 59)%nat && (se <=? 59)%nat
  | _, _, _, _, _, _, _ => false
  end.

(** [new Date(v)], as the text its [toJSON()] returns.  A string is read
    when it is such an ISO text; [null] is the epoch; a [Date] is copied.
    Other formats of date strings and numeric time values are not
    interpreted (invalid date). *)
Definition newDate (v : value) : option string :=
  match v with
  | Str s => if valid_iso s then Some s else None
  | Null => Some "1970-01-01T00:00:00.000Z"
  | DateV d => d
  | _ => None
  end.

(** *** Reading *)

Fixpoint map_opt {A B} (f : A -> option B) (l : list A) : option (list B) :=
  match l with
  | [] => Some []
  | x :: rest =>
      match f x, map_opt f rest with
      | Some y, Some ys => Some (y :: ys)
      | _, _ => None
      end
  end.

(** [(entry) => ({ ...entry, timestamp: new Date(entry.timestamp),
    startTime: ..., endTime: ... })]; [None] when an exception is thrown. *)
Definition reviveEntry (entry : value) : option value :=
  match get entry "timestamp", get entry "startTime", get entry "endTime" with
  | Some ts, Some st, Some en =>
      Some (Obj (set_prop
                   (set_prop
                      (set_prop (spread entry)
                         "timestamp" (DateV (newDate ts)))
                      "startTime" (DateV (newDate st)))
                   "endTime" (DateV (newDate en))))
  | _, _, _ => None
  end.

(** [(session) => ({ ...session, startTime: ..., endTime: ...,
    transcript: session.transcript.map(...) })]; [.map] exists on arrays
    only. *)
Definition reviveSession (session : value) : option value :=
  match get session "startTime", get session "endTime",
        get session "transcript" with
  | Some st, Some en, Some (Arr entries) =>
      match map_opt reviveEntry entries with
      | Some es =>
          Some (Obj (set_prop
                       (set_prop
                          (set_prop (spread session)
                             "startTime" (DateV (newDate st)))
                          "endTime" (DateV (newDate en)))
                       "transcript" (Arr es)))
      | None => None
      end
  | _, _, _ => None
  end.

(** [getAllSessions()]: every failure inside the [try] yields [[]]. *)
Definition getAllSessions (env : Env) : list value :=
  if negb (window env) then [] else
  match getItem STORAGE_KEY env with
  | None => []
  | Some sessions =>
      if String.eqb sessions "" then [] else
      match parse sessions with
      | Some (Arr parsed) =>
          match map_opt reviveSession parsed with
          | Some l => l
          | None => []
          end
      | _ => []
      end
  end.

(** [sessions.find(s => s.id === sessionId)] *)
Fixpoint find_by_id (sessions : list value) (sessionId : string)
  : option value :=
  match sessions with
  | [] => None
  | s :: rest =>
      match get s "id" with
      | Some sid =>
          if strict_eq sid (Str sessionId) then Some s
          else find_by_id rest sessionId
      | None => find_by_id rest sessionId
      end
  end.

(** [getSession(sessionId)]: [... || null]; the sessions are objects,
    which are truthy. *)
Definition getSession (sessionId : string) (env : Env) : value :=
  let sessions := getAllSessions env in
  match find_by_id sessions sessionId with
  | Some s => s
  | None => Null
  end.

(** [initialize()]: [getAllSessions()] always returns an array, which is
    truthy, so nothing is written. *)
Definition initialize (env : Env) : Env :=
  if negb (window env) then env else
  let existingSessions := getAllSessions env in
  env.

(** *** Writing *)

(** [sessions.findIndex(s => s.id === session.id)], with the value of
    [session.id] already read; [None] is [-1]. *)
Fixpoint findIndex (sessions : list value) (id : value) : option nat :=
  match sessions with
  | [] => None
  | s :: rest =>
      match get s "id" with
      | Some sid =>
          if strict_eq sid id then Some O
          else option_map S (findIndex rest id)
      | None => option_map S (findIndex rest id)
      end
  end.

(** [saveSession(session)].  [session.id] throws on [null] and
    [undefined]: inside [findIndex] when there is a stored session to
    compare with, otherwise only after the list has been written. *)
Definition saveSession (session : value) (env : Env) : Env :=
  if negb (window env) then env else
  let sessions := getAllSessions env in
  match sessions, get session "id" with
  | _ :: _, None => env
  | _, id =>
      let existingIndex :=
        match id with
        | Some i => findIndex sessions i
        | None => None
        end in
      let sessions :=
        match existingIndex with
        | Some i => <[i := session]> sessions
        | None => sessions ++ [session]
        end in
      let env := setItem STORAGE_KEY (stringify (Arr sessions)) env in
      match id with
      | Some i =>
          setItem (SESSION_PREFIX ++ to_string i)%string (stringify session) env
      | None => env
      end
  end.

(** [deleteSession(sessionId)] *)
Definition deleteSession (sessionId : string) (env : Env) : Env :=
  if negb (window env) then env else
  let sessions := getAllSessions env in
  let filtered :=
    List.filter
      (fun s => match get s "id" with
                | Some sid => negb (strict_eq sid (Str sessionId))
                | None => true
                end) sessions in
  let env := setItem STORAGE_KEY (stringify (Arr filtered)) env in
  removeItem (SESSION_PREFIX ++ sessionId)%string env.

(** [clearAllSessions()] *)
Definition clearAllSessions (env : Env) : Env :=
  if negb (window env) then env else
  let sessions := getAllSessions env in
  let env :=
    fold_left
      (fun env session =>
         match get session "id" with
         | Some sid => removeItem (SESSION_PREFIX ++ to_string sid)%string env
         | None => env
         end) sessions env in
  setItem STORAGE_KEY (stringify (Arr [])) env.

(** [exportSessions()] *)
Definition exportSessions (env : Env) : string :=
  let sessions := getAllSessions env in
  stringify2 (Arr sessions).

(** [importSessions(jsonString)]: the result of [JSON.parse] must be an
    array; each element is handed to [saveSession]. *)
Definition importSessions (jsonString : string) (env : Env) : Env * bool :=
  if negb (window env) then (env, false) else
  match parse jsonString with
  | Some (Arr sessions) =>
      (fold_left (fun env session => saveSession session env) sessions env,
       true)
  | _ => (env, false)
  end.

(** [getStorageSize()] *)
Definition getStorageSize (env : Env) : nat :=
  if negb (window env) then O else
  let sessions := getAllSessions env in
  let size := String.length (stringify (Arr sessions)) in
  fold_left
    (fun size session =>
       match get session "id" with
       | Some sid =>
           match getItem (SESSION_PREFIX ++ to_string sid)%string env with
           | Some sessionData =>
               if String.eqb sessionData "" then size
               else (size + String.length sessionData)%nat
           | None => size
           end
       | None => size
       end) sessions size.



(** *** Shapes of imported payloads *)

Definition is_str (v : option value) : bool :=
  match v with
  | Some (Str _) => true
  | _ => false
  end.

Definition is_bool (v : option value) : bool :=
  match v with
  | Some (Bool _) => true
  | _ => false
  end.

(** A parsed [TranscriptEntry]: an object with its mandatory fields. *)
Definition entry_shaped (v : value) : bool :=
  match v with
  | Obj props =>
      is_str (lookup_prop props "text")
      && is_str (lookup_prop props "timestamp")
      && is_str (lookup_prop props "startTime")
      && is_str (lookup_prop props "endTime")
      && is_bool (lookup_prop props "isFinal")
  | _ => false
  end.

(** A parsed [CaptionSession]. *)
Definition session_shaped (v : value) : bool :=
  match v with
  | Obj props =>
      is_str (lookup_prop props "id")
      && is_str (lookup_prop props "name")
      && is_str (lookup_prop props "startTime")
      && is_str (lookup_prop props "endTime")
      && is_str (lookup_prop props "language")
      && match lookup_prop props "transcript" with
         | Some (Arr entries) => forallb entry_shaped entries
         | _ => false
         end
  | _ => false
  end.

(** The payload parses to a sequence of session-shaped records. *)
Definition valid_payload (jsonString : string) : bool :=
  match parse jsonString with
  | Some (Arr sessions) => forallb session_shaped sessions
  | _ => false
  end.

(** The payload parses to an array. *)
Definition array_payload (jsonString : string) : bool :=
  match parse jsonString with
  | Some (Arr _) => true
  | _ => false
  end.

(** The reading "a payload that is not a sequence of session-shaped
    records is rejected and nothing is committed". *)
Definition import_validates (jsonString : string) (env : Env) : Prop :=
  valid_payload jsonString = false ->
  importSessions jsonString env = (env, false).

(** A browser with an empty [localStorage]. *)
Definition fresh : Env := {| window := true; localStorage := ∅ |}.

(** The reading "importing the export of a store into [target] succeeds
    and restores an identical set of sessions". *)
Definition roundtrip_identical (env target : Env) : Prop :=
  snd (importSessions (exportSessions env) target) = true /\
  getAllSessions (fst (importSessions (exportSessions env) target))
  = getAllSessions env.

(** *** Sessions as the application saves them *)

(** A session held by the store: dates as ISO text, numbers as literals. *)
Abbreviation StoredEntry := (TranscriptEntry string numlit).
Abbreviation StoredSession := (Session.CaptionSession string numlit).

Definition optional (k : string) (v : option value) : list (string * value) :=
  match v with
  | Some x => [(k, x)]
  | None => []
  end.

(** The object the application builds for an entry and for a session
    (its dates are [Date] objects); an absent optional field is an absent
    property. *)
Definition entry_toJS (e : StoredEntry) : value :=
  Obj ([("text", Str (text e));
        ("timestamp", DateV (Some (timestamp e)));
        ("startTime", DateV (Some (startTime e)));
        ("endTime", DateV (Some (endTime e)))]
       ++ optional "confidence" (option_map Num (confidence e))
       ++ [("isFinal", Bool (isFinal e))]
       ++ optional "speaker" (option_map Str (speaker e))).

Definition toJS (s : StoredSession) : value :=
  Obj [("id", Str (Session.id s));
       ("name", Str (Session.name s));
       ("startTime", DateV (Some (Session.startTime s)));
       ("endTime", DateV (Some (Session.endTime s)));
       ("transcript", Arr (List.map entry_toJS (Session.transcript s)));
       ("language", Str (Session.language s))].

(** What [JSON.parse(JSON.stringify(...))] makes of them: the dates are
    strings. *)
Definition entry_json (e : StoredEntry) : value :=
  Obj ([("text", Str (text e));
        ("timestamp", Str (timestamp e));
        ("startTime", Str (startTime e));
        ("endTime", Str (endTime e))]
       ++ optional "confidence" (option_map Num (confidence e))
       ++ [("isFinal", Bool (isFinal e))]
       ++ optional "speaker" (option_map Str (speaker e))).

Definition session_json (s : StoredSession) : value :=
  Obj [("id", Str (Session.id s));
       ("name", Str (Session.name s));
       ("startTime", Str (Session.startTime s));
       ("endTime", Str (Session.endTime s));
       ("transcript", Arr (List.map entry_json (Session.transcript s)));
       ("language", Str (Session.language s))].

(** The dates of the session are valid and its numbers are literals. *)
Definition ok_entry (e : StoredEntry) : bool :=
  valid_iso (timestamp e) && valid_iso (startTime e) && valid_iso (endTime e)
  && match confidence e with
     | Some n => wf_num n
     | None => true
     end.

Definition ok_session (s : StoredSession) : bool :=
  valid_iso (Session.startTime s) && valid_iso (Session.endTime s)
  && forallb ok_entry (Session.transcript s).

(** The stores the application has written: a browser in which the
    store's key has never been written, and whatever [saveSession] of a
    session with valid dates, [deleteSession], [clearAllSessions] and the
    import of an export make of it.  The import of a foreign payload,
    which [importSessions] commits unchecked, leads outside. *)
Inductive reachable : Env -> Prop :=
| reach_unused env :
    window env = true -> getItem STORAGE_KEY env = None -> reachable env
| reach_save env s :
    reachable env -> ok_session s = true ->
    reachable (saveSession (toJS s) env)
| reach_delete env sessionId :
    reachable env -> reachable (deleteSession sessionId env)
| reach_clear env :
    reachable env -> reachable (clearAllSessions env)
| reach_import env source :
    reachable env -> reachable source ->
    reachable (fst (importSessions (exportSessions source) env)).

(** *** The sessions a storage holds *)

Definition ids (ss : list StoredSession) : list string :=
  List.map Session.id ss.

(** [save] as an upsert on the list of sessions. *)
Fixpoint upsert (s : StoredSession) (ss : list StoredSession)
  : list StoredSession :=
  match ss with
  | [] => [s]
  | x :: rest =>
      if String.eqb (Session.id x) (Session.id s) then s :: rest
      else x :: upsert s rest
  end.

Definition without (sessionId : string) (ss : list StoredSession)
  : list StoredSession :=
  List.filter (fun s => negb (String.eqb (Session.id s) sessionId)) ss.

(** [localStorage] holds the sessions [ss]: the list under the storage key
    (or nothing yet, when there is no session), and each session under its
    own key. *)
Record holds (env : Env) (ss : list StoredSession) : Prop := {
  holds_window : window env = true;
  holds_ok : forallb ok_session ss = true;
  holds_nodup : NoDup (ids ss);
  holds_list :
    getItem STORAGE_KEY env
    = Some (stringify (Arr (List.map session_json ss)))
    \/ (getItem STORAGE_KEY env = None /\ ss = []);
  holds_items :
    forall s, In s ss ->
      getItem (SESSION_PREFIX ++ Session.id s)%string env
      = Some (stringify (session_json s))
}.

Fixpoint index_of (k : string) (l : list string) : option nat :=
  match l with
  | [] => None
  | x :: rest =>
      if String.eqb x k then Some O else option_map S (index_of k rest)
  end.

(** The session with a given identifier. *)
Fixpoint lookup_session (k : string) (ss : list StoredSession)
  : option StoredSession :=
  match ss with
  | [] => None
  | s :: rest =>
      if String.eqb (Session.id s) k then Some s else lookup_session k rest
  end.

(** A session as the application saves it. *)
Definition sample_session : StoredSession :=
  {| Session.id := "session_1700000000000";
     Session.name := "Meeting 1";
     Session.startTime := "2023-11-14T22:13:20.000Z";
     Session.endTime := "2023-11-14T22:14:20.000Z";
     Session.transcript :=
       [ {| text := "Hello.";
            timestamp := "2023-11-14T22:13:25.000Z";
            startTime := "2023-11-14T22:13:20.000Z";
            endTime := "2023-11-14T22:13:25.000Z";
            confidence :=
              Some (mkNum false (D0 Nil) (D9 (D3 Nil)) None);
            isFinal := true;
            speaker := Some "User" |} ];
     Session.language := "en" |}.

End Storage.

(** ** [lib/captions/formatters.ts]: the other exports, and the file name
       of a download ([components/captions/CaptionHistory.tsx]) *)

Module Exports.
Import JS.

(** [/[.!?]$/.test(text)] *)
Definition is_mark (c : N) : bool := ((c =? 46) || (c =? 33) || (c =? 63))%N.

Fixpoint ends_with_mark (s : Text.utf16) : bool :=
  match s with
  | [] => false
  | c :: r =>
      match r with
      | [] => is_mark c
      | _ => ends_with_mark r
      end
  end.

Section CleanHost.
Variable upper : N -> Text.utf16.

(** [cleanTranscriptText(text)]; [text.charAt(0).toUpperCase() +
    text.slice(1)] is the empty text on the empty text. *)
Definition cleanTranscriptText (text : Text.utf16) : Text.utf16 :=
  let text := Text.capitalize upper text in
  let text := if negb (ends_with_mark text) then text ++ [Text.FULL_STOP]
              else text in
  let text := Text.replace_i text in
  let text := Text.collapse text in
  Text.trim text.

(** The text before the final [trim]. *)
Definition untrimmed (s : Text.utf16) : Text.utf16 :=
  let text := Text.capitalize upper s in
  Text.collapse
    (Text.replace_i (if negb (ends_with_mark text)
                     then text ++ [Text.FULL_STOP] else text)).
End CleanHost.

(** [entry.speaker || 'Unknown'] *)
Definition speakerOrUnknown {date number : Type}
    (entry : TranscriptEntry date number) : string :=
  match speaker entry with
  | Some s => if String.eqb s "" then "Unknown" else s
  | None => "Unknown"
  end.

(** The object literal [formatTranscriptAsJSON] builds for an entry.  The
    entries are those of the store: a date is the text [toISOString()]
    returns for it (an invalid date, on which [toISOString()] throws, is
    not represented). *)
Definition record (entry : Storage.StoredEntry) : value :=
  Obj [("text", Str (text entry));
       ("speaker", Str (speakerOrUnknown entry));
       ("timestamp", Str (timestamp entry));
       ("startTime", Str (startTime entry));
       ("endTime", Str (endTime entry));
       ("confidence", match confidence entry with
                      | Some n => Num n
                      | None => Undefined
                      end)].

(** [formatTranscriptAsJSON(transcript)] *)
Definition formatTranscriptAsJSON (transcript : list Storage.StoredEntry)
  : string :=
  let data := List.map record (List.filter isFinal transcript) in
  stringify2 (Arr data).

(** What a reader of the JSON export gets for an entry. *)
Definition record_read (entry : Storage.StoredEntry) : value :=
  Obj ([("text", Str (text entry));
        ("speaker", Str (speakerOrUnknown entry));
        ("timestamp", Str (timestamp entry));
        ("startTime", Str (startTime entry));
        ("endTime", Str (endTime entry))]
       ++ Storage.optional "confidence" (option_map Num (confidence entry))).

Definition confidence_ok (entry : Storage.StoredEntry) : bool :=
  match confidence entry with
  | Some n => wf_num n
  | None => true
  end.




(** [/[^a-z0-9]/gi] on ASCII. *)
Definition is_alnum (c : ascii) : bool :=
  let n := nat_of_ascii c in
  ((48 <=? n) && (n <=? 57) || (65 <=? n) && (n <=? 90)
   || (97 <=? n) && (n <=? 122))%nat.

(** [name.replace(/[^a-z0-9]/gi, '_')] *)
Fixpoint sanitize (name : string) : string :=
  match name with
  | EmptyString => EmptyString
  | String c r => String (if is_alnum c then c else "_"%char) (sanitize r)
  end.

(** Letters, digits and the underscore. *)
Definition is_safe (c : ascii) : bool := is_alnum c || Ascii.eqb c "_".

Fixpoint all_safe (s : string) : bool :=
  match s with
  | EmptyString => true
  | String c r => is_safe c && all_safe r
  end.

(** [format === 'webvtt' ? 'vtt' : format] *)
Definition extension (format : Formatters.Format) : string :=
  match format with
  | Formatters.FormatText => "text"
  | Formatters.FormatSRT => "srt"
  | Formatters.FormatWebVTT => "vtt"
  end.

(** The [download] attribute [handleDownload] sets. *)
Definition downloadName (name : string) (format : Formatters.Format)
  : string :=
  (sanitize name ++ "." ++ extension format)%string.

End Exports.

(* ===================================================================== *)
(** * Part II: theorems                                                   *)
(* ===================================================================== *)

Ltac each_char c := destruct c as [[] [] [] [] [] [] [] []].

Section CaptionsFacts.
Import Captions.
Variable clock : nat -> Z.

Lemma reconcile_transcript h r :
  exists e,
    isFinal e = res_isFinal r /\ text e = res_transcript r /\
    transcript (reconcile clock h r) = finals (transcript h) ++ [e].
Proof.
  unfold reconcile, updater, beginOrNow, newDate, finals.
  destruct (beginTimeRef h); simpl;
    destruct (res_isFinal r); simpl; eexists; repeat split; reflexivity.
Qed.

Lemma finals_idem t : finals (finals t) = finals t.
Proof.
  unfold finals. induction t as [|e t IH]; simpl; [reflexivity|].
  destruct (isFinal e) eqn:E; simpl; rewrite ?E, IH; reflexivity.
Qed.

Lemma finals_snoc t e :
  finals (t ++ [e]) = finals t ++ (if isFinal e then [e] else []).
Proof.
  unfold finals. rewrite List.filter_app. simpl.
  destruct (isFinal e); reflexivity.
Qed.

Lemma interims_finals t : interims (finals t) = [].
Proof.
  unfold interims, finals. induction t as [|e t IH]; simpl; [reflexivity|].
  destruct (isFinal e) eqn:E; simpl; rewrite ?E; simpl; exact IH.
Qed.

Lemma interims_snoc t e :
  interims (t ++ [e]) = interims t ++ (if isFinal e then [] else [e]).
Proof.
  unfold interims. rewrite List.filter_app. simpl.
  destruct (isFinal e); reflexivity.
Qed.

Lemma finals_all_final t : Forall (fun e => isFinal e = true) (finals t).
Proof.
  unfold finals. apply Forall_forall. intros e He.
  apply list_elem_of_In, List.filter_In in He. tauto.
Qed.

Lemma snoc_tail_shaped t e : tail_shaped (finals t ++ [e]).
Proof.
  unfold tail_shaped. rewrite finals_snoc, finals_idem.
  destruct (isFinal e) eqn:E; [left; reflexivity|].
  right. exists e. rewrite app_nil_r. auto.
Qed.

Lemma reconcile_tail_shaped h r :
  tail_shaped (transcript (reconcile clock h r)).
Proof.
  destruct (reconcile_transcript h r) as (e & _ & _ & ->).
  apply snoc_tail_shaped.
Qed.

Lemma fold_reconcile_snoc rs r h :
  fold_left (reconcile clock) (rs ++ [r]) h =
  reconcile clock (fold_left (reconcile clock) rs h) r.
Proof. rewrite fold_left_app. reflexivity. Qed.

Lemma reached_tail_shaped rs :
  tail_shaped (transcript (fold_left (reconcile clock) rs initial)).
Proof.
  destruct rs as [|r rs] using rev_ind.
  - left. reflexivity.
  - rewrite fold_reconcile_snoc. apply reconcile_tail_shaped.
Qed.

(** An event is processed result by result: running a list of events is
    reconciling the received results in order. *)
Lemma run_received evs h :
  run clock h evs = fold_left (reconcile clock) (received evs) h.
Proof.
  unfold run, received. revert h.
  induction evs as [|ev evs IH]; intros h; simpl; [reflexivity|].
  rewrite fold_left_app, IH. reflexivity.
Qed.

Lemma tail_shaped_keeps_finals t i e :
  tail_shaped t -> t !! i = Some e -> isFinal e = true ->
  finals t !! i = Some e.
Proof.
  intros [Ht | (x & Hx & Ht)] Hi He; [rewrite <- Ht; exact Hi|].
  rewrite Ht in Hi.
  destruct (decide (i < length (finals t))%nat) as [Hlt|Hge].
  - rewrite lookup_app_l in Hi by exact Hlt. exact Hi.
  - rewrite lookup_app_r in Hi by lia.
    destruct (i - length (finals t))%nat; simpl in Hi; [|discriminate].
    inversion Hi; subst. congruence.
Qed.

Lemma Forall_removelast {A} (P : A -> Prop) (l : list A) :
  Forall P l -> Forall P (removelast l).
Proof.
  destruct l as [|a l _] using rev_ind; [auto|].
  rewrite removelast_last, Forall_app. tauto.
Qed.

Lemma tail_shaped_removelast t :
  tail_shaped t -> Forall (fun e => isFinal e = true) (removelast t).
Proof.
  intros [Ht | (x & _ & Ht)].
  - apply Forall_removelast. rewrite Ht. apply finals_all_final.
  - rewrite Ht, removelast_last. apply finals_all_final.
Qed.

(** C1.  After every reconciliation step, whatever results were processed
    before it, the transcript holds at most one interim entry; an interim
    entry can only sit in the last position (so every entry before the last
    one is final); every final entry the transcript held before the step is
    still there, unchanged and at the same index; and the step only replaces
    the trailing interim entry, if any, by the new entry. *)
Theorem reconciler_tail_invariant
    (rs : list SpeechRecognitionResult) (r : SpeechRecognitionResult) :
  let h := fold_left (reconcile clock) rs initial in
  let h' := reconcile clock h r in
  (length (interims (transcript h')) <= 1)%nat /\
  (forall i e, transcript h' !! i = Some e -> isFinal e = false ->
               S i = length (transcript h')) /\
  Forall (fun e => isFinal e = true) (removelast (transcript h')) /\
  (forall i e, transcript h !! i = Some e -> isFinal e = true ->
               transcript h' !! i = Some e) /\
  (exists e, transcript h' = finals (transcript h) ++ [e] /\
             (transcript h = finals (transcript h) \/
              exists x, isFinal x = false /\
                        transcript h = finals (transcript h) ++ [x])).
Proof.
  intros h h'.
  destruct (reconcile_transcript h r) as (e & He & _ & Ht).
  fold h' in Ht.
  assert (Hall := finals_all_final (transcript h)).
  repeat split.
  - rewrite Ht, interims_snoc, interims_finals. simpl.
    destruct (isFinal e); simpl; lia.
  - intros i x Hi Hx. rewrite Ht in Hi |- *. rewrite length_app. simpl.
    destruct (decide (i < length (finals (transcript h)))%nat) as [Hlt|Hge].
    + rewrite lookup_app_l in Hi by exact Hlt.
      rewrite Forall_forall in Hall.
      assert (isFinal x = true)
        by (apply Hall, list_elem_of_lookup; eauto).
      congruence.
    + apply lookup_lt_Some in Hi. rewrite length_app in Hi. simpl in Hi. lia.
  - rewrite Ht, removelast_last. exact Hall.
  - intros i x Hi Hx. rewrite Ht.
    apply lookup_app_l_Some.
    apply tail_shaped_keeps_finals; auto.
    apply reached_tail_shaped.
  - exists e. split; [exact Ht|]. apply (reached_tail_shaped rs).
Qed.

Lemma reached_counts rs :
  let t := transcript (fold_left (reconcile clock) rs initial) in
  length (finals t) = length (List.filter res_isFinal rs) /\
  length (interims t) = (if last_is_interim rs then 1 else 0)%nat.
Proof.
  destruct rs as [|r rs IH] using rev_ind; [split; reflexivity|].
  cbv zeta in *. rewrite fold_reconcile_snoc.
  destruct (reconcile_transcript (fold_left (reconcile clock) rs initial) r)
    as (e & He & _ & ->).
  rewrite finals_snoc, finals_idem, interims_snoc, interims_finals.
  rewrite List.filter_app, !length_app. simpl.
  unfold last_is_interim. rewrite last_snoc.
  destruct IH as [IH1 _]. rewrite IH1, He.
  destruct (res_isFinal r); simpl; split; lia.
Qed.

(** C2 (amended).  For every sequence of recognition events processed from
    the initial state, the transcript holds at most one interim entry, an
    interim entry can only be the last element, there is exactly one interim
    entry when the most recent result was interim and none otherwise, and
    the number of final entries equals the number of results received with
    [isFinal = true]. *)
Theorem reconciler_counts (evs : list SpeechRecognitionEvent) :
  let t := transcript (run clock initial evs) in
  (length (interims t) <= 1)%nat /\
  Forall (fun e => isFinal e = true) (removelast t) /\
  length (interims t) =
    (if last_is_interim (received evs) then 1 else 0)%nat /\
  length (finals t) = length (List.filter res_isFinal (received evs)).
Proof.
  cbv zeta. rewrite run_received.
  destruct (reached_counts (received evs)) as [Hf Hi].
  repeat split; [| |exact Hi|exact Hf].
  - rewrite Hi. destruct (last_is_interim _); lia.
  - apply tail_shaped_removelast, reached_tail_shaped.
Qed.

(** C3.  From the empty transcript, an interim result "hell" followed by a
    final result "hello" leaves exactly one entry, final, with text
    "hello" (whatever the clock and the confidences are). *)
Theorem interim_then_final_replaces (c1 c2 : option Q) :
  exists e,
    transcript
      (run clock initial
         [ {| resultIndex := 0; results := [mkResult "hell" c1 false] |};
           {| resultIndex := 0; results := [mkResult "hello" c2 true] |} ])
    = [e] /\ text e = "hello" /\ isFinal e = true.
Proof. eexists. repeat split. Qed.

End CaptionsFacts.

(** C2, as stated, fails: after a single final result the transcript has
    one final entry and no interim entry at all. *)
Lemma exactly_one_interim_fails :
  let evs :=
    [ {| Captions.resultIndex := 0;
         Captions.results := [Captions.mkResult "hello" None true] |} ] in
  let t := Captions.transcript
             (Captions.run (fun _ => 0%Z) Captions.initial evs) in
  length (Captions.interims t) = 0%nat /\
  length (Captions.finals t) = 1%nat /\
  ~ Captions.exactly_one_interim (fun _ => 0%Z) evs.
Proof.
  cbv zeta. repeat split.
  unfold Captions.exactly_one_interim. cbn. intros (H & _). discriminate H.
Qed.

(** *** The time a timecode denotes *)

Section TimecodeOrder.
Import Formatters.

Lemma cut_digits stop (a : string) c r :
  (forall x, is_digit x = true -> stop x = false) ->
  all_digits a = true -> stop c = true ->
  cut stop (a ++ String c r) = (a, Some r).
Proof.
  intros Hs Ha Hc. induction a as [|x a IH]; simpl.
  - rewrite Hc. reflexivity.
  - simpl in Ha. apply andb_prop in Ha as [Hx Ha].
    rewrite (Hs x Hx), (IH Ha). reflexivity.
Qed.

Lemma digit_not_colon x : is_digit x = true -> is_colon x = false.
Proof. destruct x as [[] [] [] [] [] [] [] []]; vm_compute; congruence. Qed.

Lemma digit_not_separator x : is_digit x = true -> is_separator x = false.
Proof. destruct x as [[] [] [] [] [] [] [] []]; vm_compute; congruence. Qed.

Lemma uint_digits d : all_digits (NilEmpty.string_of_uint d) = true.
Proof. induction d; simpl; auto. Qed.

Lemma all_digits_app a b :
  all_digits (a ++ b) = all_digits a && all_digits b.
Proof.
  induction a as [|x a IH]; simpl; [reflexivity|].
  rewrite IH, andb_assoc. reflexivity.
Qed.

Lemma zeros_digits k : all_digits (repeat_char k "0") = true.
Proof. induction k; simpl; auto. Qed.

(** The decimal text of a natural number. *)
Lemma toString_nonneg (n : Z) :
  (0 <= n)%Z ->
  exists d, toString n = NilEmpty.string_of_uint d /\ d <> Nil /\
            Z.of_uint d = n.
Proof.
  intros H. unfold toString. destruct n as [|p|p]; [| |lia].
  - exists (D0 Nil). repeat split. discriminate.
  - exists (Pos.to_uint p). cbn [Z.to_int NilZero.string_of_int].
    assert (Hn : Pos.to_uint p <> Nil).
    { intros E. pose proof (DecimalPos.Unsigned.of_to p) as X.
      rewrite E in X. discriminate X. }
    split; [|split; [exact Hn|]].
    + unfold NilZero.string_of_uint. destruct (Pos.to_uint p); congruence.
    + unfold Z.of_uint. rewrite DecimalPos.Unsigned.of_to. reflexivity.
Qed.

Lemma field_value_digits s :
  all_digits s = true -> field_value s = digits_value s.
Proof.
  destruct s as [|c r]; [reflexivity|]. simpl. intros H.
  apply andb_prop in H as [H _].
  destruct (Ascii.eqb c "-") eqn:E; [|reflexivity].
  apply Ascii.eqb_eq in E. subst c. discriminate H.
Qed.

Lemma digits_value_zeros k s :
  s <> EmptyString -> digits_value (repeat_char k "0" ++ s) = digits_value s.
Proof.
  intros Hs. induction k as [|k IH]; [reflexivity|].
  cbn [repeat_char]. change (String "0" (repeat_char k "0") ++ s)%string
    with (String "0" (repeat_char k "0" ++ s)).
  rewrite <- IH. unfold digits_value.
  assert (Hn : (repeat_char k "0" ++ s)%string <> EmptyString)
    by (destruct k; [exact Hs | discriminate]).
  destruct (repeat_char k "0" ++ s)%string as [|x t] eqn:E; [congruence|].
  cbn [NilZero.uint_of_string NilEmpty.uint_of_string].
  destruct (uint_of_char x (NilEmpty.uint_of_string t)); reflexivity.
Qed.

Lemma field_value_padStart k n :
  (0 <= n)%Z ->
  field_value (padStart k "0" (toString n)) = Some n /\
  all_digits (padStart k "0" (toString n)) = true.
Proof.
  intros H. destruct (toString_nonneg n H) as (d & -> & Hd & <-).
  unfold padStart.
  assert (Hall : all_digits (repeat_char (k - String.length
                                (NilEmpty.string_of_uint d)) "0"
                             ++ NilEmpty.string_of_uint d) = true)
    by (rewrite all_digits_app, zeros_digits, uint_digits; reflexivity).
  split; [|exact Hall].
  rewrite (field_value_digits _ Hall).
  rewrite digits_value_zeros by (destruct d; simpl; congruence).
  unfold digits_value.
  replace (NilZero.uint_of_string (NilEmpty.string_of_uint d))
    with (Some d); [reflexivity|].
  symmetry. destruct d; try congruence; apply NilEmpty.usu.
Qed.

(** A rendered timecode denotes the elapsed time it was rendered from,
    however long that time is. *)
Lemma timecode_reads_back (ms : Z) (sep : ascii) :
  (0 <= ms)%Z -> is_separator sep = true ->
  timecode_ms (formatMillisecondsToTimecode ms (String sep EmptyString))
  = Some ms.
Proof.
  intros H Hsep. unfold formatMillisecondsToTimecode. cbv zeta.
  assert (0 <= ms / 1000)%Z by (apply Z.div_pos; lia).
  assert (0 <= ms / 1000 / 60)%Z by (apply Z.div_pos; lia).
  assert (0 <= ms / 1000 / 60 / 60)%Z by (apply Z.div_pos; lia).
  rewrite !Z.rem_mod_nonneg by lia.
  destruct (field_value_padStart 2 (ms / 1000 / 60 / 60)) as [Fh Dh]; [lia|].
  destruct (field_value_padStart 2 ((ms / 1000 / 60) mod 60)) as [Fm Dm];
    [apply Z.mod_pos_bound; lia|].
  destruct (field_value_padStart 2 ((ms / 1000) mod 60)) as [Fs Ds];
    [apply Z.mod_pos_bound; lia|].
  destruct (field_value_padStart 3 (ms mod 1000)) as [Ff Df];
    [apply Z.mod_pos_bound; lia|].
  unfold timecode_ms.
  change (":" ++ ?x)%string with (String ":" x).
  rewrite (cut_digits is_colon _ ":" _ digit_not_colon Dh eq_refl).
  change (":" ++ ?x)%string with (String ":" x).
  rewrite (cut_digits is_colon _ ":" _ digit_not_colon Dm eq_refl).
  change (String sep "" ++ ?x)%string with (String sep x).
  rewrite (cut_digits is_separator _ sep _ digit_not_separator Ds Hsep).
  rewrite Fh, Fm, Fs, Ff. f_equal.
  Z.to_euclidean_division_equations; lia.
Qed.

(** Rendering preserves the order of elapsed times. *)
Lemma timecode_ordered (a b : Z) (sep : ascii) :
  (0 <= a)%Z -> (a <= b)%Z -> is_separator sep = true ->
  timecode_le (formatMillisecondsToTimecode a (String sep EmptyString))
              (formatMillisecondsToTimecode b (String sep EmptyString))
  = true.
Proof.
  intros Ha Hab Hs. unfold timecode_le.
  rewrite !timecode_reads_back by (auto; lia). apply Z.leb_le, Hab.
Qed.

End TimecodeOrder.

Section FormatterFacts.
Import Formatters.
Variable toLocaleTimeString : Z -> string.

Lemma string_app_assoc (a b c : string) :
  ((a ++ b) ++ c = a ++ (b ++ c))%string.
Proof. induction a; simpl; congruence. Qed.

Lemma string_app_nil_r (a : string) : (a ++ "" = a)%string.
Proof. induction a; simpl; congruence. Qed.

Lemma srt_fold (start : Z) (l : list Entry) (out : string) (c : Z) :
  fold_left
    (fun '(output, counter) entry =>
       ((output ++ srtBlock counter entry start)%string, (counter + 1)%Z))
    l (out, c)
  = ((out ++ fold_right String.append ""
              (imap (fun i e => srtBlock (Z.of_nat i + c) e start) l))%string,
     (c + Z.of_nat (length l))%Z).
Proof.
  revert out c. induction l as [|e l IH]; intros out c; simpl.
  - rewrite string_app_nil_r, Z.add_0_r. reflexivity.
  - rewrite IH, string_app_assoc. f_equal.
    + simpl. do 3 f_equal. apply imap_ext. intros i x _. simpl. f_equal. lia.
    + lia.
Qed.

Lemma vtt_fold (start : Z) (l : list Entry) (out : string) (k : nat) :
  fold_left
    (fun '(output, index) entry =>
       ((output ++ vttBlock index entry start)%string, S index))
    l (out, k)
  = ((out ++ fold_right String.append ""
              (imap (fun i e => vttBlock (i + k) e start) l))%string,
     (k + length l)%nat).
Proof.
  revert out k. induction l as [|e l IH]; intros out k; simpl.
  - rewrite string_app_nil_r, Nat.add_0_r. reflexivity.
  - rewrite IH, string_app_assoc. f_equal.
    + simpl. do 3 f_equal. apply imap_ext. intros i x _. simpl. f_equal. lia.
    + lia.
Qed.

Lemma formatAsSRT_cues (t : list Entry) (s : option Z) (now : Z) :
  formatAsSRT t s now
  = fold_right String.append "" (srtCues t (zeroPoint t s now)).
Proof.
  unfold formatAsSRT, srtCues. rewrite srt_fold. simpl. reflexivity.
Qed.

Lemma forall_below (P : Z -> bool) (N : nat) :
  forallb (fun k => P (Z.of_nat k)) (seq 0 N) = true ->
  forall n, (0 <= n < Z.of_nat N)%Z -> P n = true.
Proof.
  intros H n Hn. rewrite forallb_forall in H.
  specialize (H (Z.to_nat n)). rewrite Z2Nat.id in H by lia.
  apply H, in_seq. lia.
Qed.

Lemma pad2_digits n :
  (0 <= n < 100)%Z -> padStart 2 "0" (toString n) = two_digits n.
Proof.
  intros Hn. apply String.eqb_eq.
  apply (forall_below
           (fun n => String.eqb (padStart 2 "0" (toString n)) (two_digits n))
           100); [vm_compute; reflexivity | exact Hn].
Qed.

Lemma pad3_digits n :
  (0 <= n < 1000)%Z -> padStart 3 "0" (toString n) = three_digits n.
Proof.
  intros Hn. apply String.eqb_eq.
  apply (forall_below
           (fun n => String.eqb (padStart 3 "0" (toString n)) (three_digits n))
           1000); [vm_compute; reflexivity | exact Hn].
Qed.

(** The digits of a timecode, for an elapsed time below 100 hours. *)
Lemma timecode_digits ms sep :
  (0 <= ms < 360000000)%Z ->
  formatMillisecondsToTimecode ms sep
  = (two_digits (ms / 1000 / 60 / 60) ++ ":"
       ++ two_digits ((ms / 1000 / 60) mod 60) ++ ":"
       ++ two_digits ((ms / 1000) mod 60) ++ sep
       ++ three_digits (ms mod 1000))%string.
Proof.
  intros H. unfold formatMillisecondsToTimecode. cbv zeta.
  assert (0 <= ms / 1000)%Z by (apply Z.div_pos; lia).
  assert (0 <= ms / 1000 / 60)%Z by (apply Z.div_pos; lia).
  rewrite !Z.rem_mod_nonneg by lia.
  rewrite !pad2_digits, pad3_digits
    by (Z.to_euclidean_division_equations; lia).
  reflexivity.
Qed.

(** C7.  A time 3723456 ms (1 h 2 min 3.456 s) after the session start is
    rendered "01:02:03,456" by the SRT formatter and "01:02:03.456" by the
    WebVTT formatter; for every elapsed time from 0 up to 100 hours the
    timecode is two digits of hours, of minutes and of seconds and three
    digits of milliseconds; and every WebVTT export starts with the line
    "WEBVTT" followed by an empty line. *)
Theorem timecode_rendering :
  (forall start : Z,
      formatTimecodeSRT (start + 3723456) start = "01:02:03,456" /\
      formatTimecodeVTT (start + 3723456) start = "01:02:03.456") /\
  (forall (ms : Z) (sep : string),
      (0 <= ms < 360000000)%Z ->
      formatMillisecondsToTimecode ms sep
      = (two_digits (ms / 1000 / 60 / 60) ++ ":"
           ++ two_digits ((ms / 1000 / 60) mod 60) ++ ":"
           ++ two_digits ((ms / 1000) mod 60) ++ sep
           ++ three_digits (ms mod 1000))%string) /\
  (forall (t : list Entry) (sessionStartTime : option Z) (now : Z),
      exists cues : string,
        formatTranscript toLocaleTimeString t FormatWebVTT sessionStartTime now
        = ("WEBVTT" ++ LF ++ LF ++ cues)%string).
Proof.
  split; [|split].
  - intros start. unfold formatTimecodeSRT, formatTimecodeVTT.
    replace (start + 3723456 - start)%Z with 3723456%Z by lia.
    split; vm_compute; reflexivity.
  - intros ms sep H. apply timecode_digits, H.
  - intros t s now. cbn [formatTranscript]. unfold formatAsWebVTT.
    rewrite vtt_fold. eexists. rewrite !string_app_assoc. reflexivity.
Qed.

(** C6 (amended).  The SRT export is the concatenation of one cue per final
    entry, in transcript order, numbered 1, 2, ...; the number of cues is the
    number of final entries; and for every final entry that starts at or
    after the zero point and does not end before it starts, however long
    after the zero point, the two timecodes of its cue denote the elapsed
    times of its start and of its end, so the end timecode is at least the
    start timecode. *)
Theorem srt_export_cues
    (t : list Entry) (sessionStartTime : option Z) (now : Z) :
  let start := zeroPoint t sessionStartTime now in
  formatTranscript toLocaleTimeString t FormatSRT sessionStartTime now
    = fold_right String.append "" (srtCues t start) /\
  length (srtCues t start) = length (List.filter isFinal t) /\
  (forall i e, List.filter isFinal t !! i = Some e ->
               srtCues t start !! i
               = Some (srtBlock (Z.of_nat i + 1) e start)) /\
  Forall (fun e =>
            in_order start e ->
            timecode_ms (formatTimecodeSRT (startTime e) start)
              = Some (startTime e - start)%Z /\
            timecode_ms (formatTimecodeSRT (endTime e) start)
              = Some (endTime e - start)%Z /\
            timecode_le (formatTimecodeSRT (startTime e) start)
                        (formatTimecodeSRT (endTime e) start) = true)
         (List.filter isFinal t).
Proof.
  intros start. repeat split.
  - apply formatAsSRT_cues.
  - unfold srtCues. apply length_imap.
  - intros i e Hi. unfold srtCues. rewrite list_lookup_imap, Hi. reflexivity.
  - apply Forall_forall. intros e _ (H1 & H2).
    unfold formatTimecodeSRT.
    split; [|split];
      [apply timecode_reads_back | apply timecode_reads_back
       | apply timecode_ordered]; auto; lia.
Qed.

End FormatterFacts.

(** C6, as stated, fails, in two ways.  A final entry whose end time
    precedes its start time is exported with an end timecode before its
    start timecode.  And a final entry that lies before the zero point is
    exported with fields that carry minus signs: [Math.floor] rounds the
    seconds down while [%] truncates the milliseconds, so one millisecond
    later the millisecond field drops from 000 to -999, and the end
    timecode denotes a time before that of the start timecode although
    the entry ends after it starts. *)
Lemma cue_end_before_start :
  let e : Entry :=
    {| text := "late"; timestamp := 0%Z; startTime := 2000%Z;
       endTime := 1000%Z; confidence := None; isFinal := true;
       speaker := None |} in
  let early : Entry :=
    {| text := "early"; timestamp := 0%Z; startTime := (-1000)%Z;
       endTime := (-999)%Z; confidence := None; isFinal := true;
       speaker := None |} in
  (Formatters.formatAsSRT [e] (Some 0%Z) 0
     = ("1" ++ Formatters.LF ++ "00:00:02,000 --> 00:00:01,000"
          ++ Formatters.LF ++ "late" ++ Formatters.LF ++ Formatters.LF)%string
   /\ ~ Formatters.cues_end_after_start [e] (Some 0%Z) 0) /\
  (Formatters.formatAsSRT [early] (Some 0%Z) 0
     = ("1" ++ Formatters.LF ++ "-1:-1:-1,000 --> -1:-1:-1,-999"
          ++ Formatters.LF ++ "early" ++ Formatters.LF ++ Formatters.LF)%string
   /\ Formatters.timecode_ms "-1:-1:-1,000" = Some (-3661000)%Z
   /\ Formatters.timecode_ms "-1:-1:-1,-999" = Some (-3661999)%Z
   /\ ~ Formatters.cues_end_after_start [early] (Some 0%Z) 0).
Proof.
  assert (X : forall e : Entry,
            Formatters.timecode_le
              (Formatters.formatTimecodeSRT (startTime e) 0)
              (Formatters.formatTimecodeSRT (endTime e) 0) = false ->
            isFinal e = true ->
            ~ Formatters.cues_end_after_start [e] (Some 0%Z) 0).
  { intros e Hle Hf H. unfold Formatters.cues_end_after_start in H.
    cbv zeta in H. cbn [List.filter Formatters.zeroPoint] in H.
    rewrite Hf in H. inversion H as [|? ? Hh _]; subst.
    rewrite Hle in Hh. discriminate Hh. }
  cbv zeta. split; [split|split; [|split; [|split]]];
    first [ apply X; vm_compute; reflexivity | vm_compute; reflexivity ].
Qed.

Section TextFacts.
Import Text.

Ltac chars :=
  unfold is_space, is_word, is_lower, SPACE, FULL_STOP, LOWER_I, UPPER_I in *;
  lia.

Example process_example :
  processTranscript no_mapping (of_string "  i think  i  am in   ")
  = of_string "I think I am in".
Proof. vm_compute. reflexivity. Qed.

Lemma space_not_word c : is_space c = true -> is_word c = false.
Proof. chars. Qed.

Lemma space_not_i c : is_space c = true -> (c =? LOWER_I)%N = false.
Proof. chars. Qed.

(** *** Trimming *)

Lemma trimStart_head s : head_space (trimStart s) = false.
Proof.
  induction s as [|c r IH]; simpl; [reflexivity|].
  destruct (is_space c) eqn:E; [exact IH | simpl; exact E].
Qed.

Lemma trimEnd_head s : head_space s = false -> head_space (trimEnd s) = false.
Proof.
  destruct s as [|c r]; simpl; [reflexivity|]. intros E.
  destruct (trimEnd r); rewrite ?E; simpl; auto.
Qed.

Lemma trimEnd_last s : last_space (trimEnd s) = false.
Proof.
  induction s as [|c r IH]; simpl; [reflexivity|].
  destruct (trimEnd r) as [|d r'] eqn:E.
  - destruct (is_space c) eqn:Ec; simpl; auto.
  - exact IH.
Qed.

Lemma trimStart_id s : head_space s = false -> trimStart s = s.
Proof. destruct s as [|c r]; simpl; [reflexivity|]. intros ->. reflexivity. Qed.

Lemma trimEnd_id s : last_space s = false -> trimEnd s = s.
Proof.
  induction s as [|c r IH]; simpl; [reflexivity|].
  destruct r as [|d r'].
  - simpl. intros ->. reflexivity.
  - intros H. rewrite (IH H). reflexivity.
Qed.

Lemma trim_id s : head_space s = false -> last_space s = false -> trim s = s.
Proof.
  intros H1 H2. unfold trim. rewrite (trimStart_id _ H1). apply trimEnd_id, H2.
Qed.

Lemma trim_ends s :
  head_space (trim s) = false /\ last_space (trim s) = false.
Proof.
  unfold trim. split; [apply trimEnd_head, trimStart_head | apply trimEnd_last].
Qed.

(** *** The upper-case form of a character *)

Lemma upper_form upper c :
  case_mapping upper -> is_space c = false ->
  toUpperCase upper c <> [] /\
  Forall (fun u => is_space u = false /\ u <> LOWER_I) (toUpperCase upper c).
Proof.
  intros Hu Hc. unfold toUpperCase.
  destruct (is_lower c) eqn:El.
  - split; [discriminate|]. constructor; [|constructor]. chars.
  - destruct (c <? 128)%N eqn:Ea.
    + split; [discriminate|]. constructor; [|constructor]. chars.
    + apply Hu; [lia | exact Hc].
Qed.

Lemma upper_ascii upper c :
  (c < 128)%N ->
  exists u, toUpperCase upper c = [u] /\ (u < 128)%N /\
            is_lower u = false /\ is_space u = is_space c /\
            (is_lower c = false -> u = c) /\ u <> LOWER_I.
Proof.
  intros Hc. unfold toUpperCase. destruct (is_lower c) eqn:El.
  - exists (c - 32)%N. repeat split; first [chars | congruence].
  - assert (E : (c <? 128)%N = true) by lia. rewrite E.
    exists c. repeat split; first [chars | auto].
Qed.

Lemma no_mapping_case : case_mapping no_mapping.
Proof.
  intros c Hc Hs. unfold no_mapping. split; [discriminate|].
  constructor; [|constructor]. split; [exact Hs | chars].
Qed.

(** *** Texts that start with a run without whitespace and without "i" *)


Lemma head_space_app_solid u r : solid u -> head_space (u ++ r) = false.
Proof.
  intros [Hn Hu]. destruct u as [|x u]; [congruence|].
  apply Forall_cons in Hu as [[Hx _] _]. exact Hx.
Qed.

Lemma collapse_go_solid b u r :
  solid u -> collapse_go b (u ++ r) = u ++ collapse_go false r.
Proof.
  intros [Hn Hu]. revert b. induction u as [|x u IH]; intros b; [congruence|].
  apply Forall_cons in Hu as [[Hx _] Hu]. simpl. rewrite Hx. f_equal.
  destruct u as [|y u]; [reflexivity|]. apply IH; [discriminate | exact Hu].
Qed.

Lemma replace_i_go_solid p u r :
  solid u ->
  exists q, replace_i_go p (u ++ r) = u ++ replace_i_go q r.
Proof.
  intros [Hn Hu]. revert p. induction u as [|x u IH]; intros p; [congruence|].
  apply Forall_cons in Hu as [[_ Hx] Hu]. simpl.
  assert (E : (x =? LOWER_I)%N = false) by lia. rewrite E. simpl.
  destruct u as [|y u]; [eauto|].
  destruct (IH ltac:(discriminate) Hu (is_word x)) as (q & ->). eauto.
Qed.

(** *** Each later step keeps the ends free of whitespace *)







(** *** No standalone "i" and no whitespace run are left *)

Lemma next_is_word_replace p s :
  next_is_word (replace_i_go p s) = next_is_word s.
Proof.
  destruct s as [|c r]; simpl; [reflexivity|].
  destruct ((c =? LOWER_I)%N && negb p && negb (next_is_word r)) eqn:E;
    [chars | reflexivity].
Qed.

Lemma next_is_word_collapse s :
  next_is_word (collapse_go false s) = next_is_word s.
Proof.
  destruct s as [|c r]; simpl; [reflexivity|].
  destruct (is_space c) eqn:E; simpl; [chars | reflexivity].
Qed.

Lemma is_word_replaced c (b : bool) :
  is_word (if (c =? LOWER_I)%N && b then UPPER_I else c) = is_word c.
Proof. destruct ((c =? LOWER_I)%N && b) eqn:E; [chars | reflexivity]. Qed.

Lemma replaced_not_i c (b : bool) :
  ((if (c =? LOWER_I)%N && b then UPPER_I else c) =? LOWER_I)%N && b = false.
Proof. destruct ((c =? LOWER_I)%N && b) eqn:E; chars. Qed.

Lemma replace_i_go_idem p s :
  replace_i_go p (replace_i_go p s) = replace_i_go p s.
Proof.
  revert p. induction s as [|c r IH]; intros p; simpl; [reflexivity|].
  rewrite next_is_word_replace, <- !andb_assoc.
  rewrite replaced_not_i, is_word_replaced, IH. reflexivity.
Qed.

Lemma replace_i_fixed_cons p c r :
  replace_i_go p (c :: r) = c :: r ->
  (c =? LOWER_I)%N && negb p && negb (next_is_word r) = false /\
  replace_i_go (is_word c) r = r.
Proof.
  simpl. intros H. injection H as Hc Hr. split; [|exact Hr].
  destruct ((c =? LOWER_I)%N && negb p && negb (next_is_word r)) eqn:E;
    [|reflexivity].
  chars.
Qed.

Lemma replace_i_collapse p b s :
  (b = true -> p = false) ->
  replace_i_go p s = s ->
  replace_i_go p (collapse_go b s) = collapse_go b s.
Proof.
  revert p b. induction s as [|c r IH]; intros p b Hpb Hs; [reflexivity|].
  apply replace_i_fixed_cons in Hs as [Hc Hr].
  simpl. destruct (is_space c) eqn:Es.
  - rewrite (space_not_word _ Es) in Hr. destruct b.
    + rewrite (Hpb eq_refl). apply IH; auto.
    + simpl. f_equal. apply IH; auto.
  - simpl. rewrite next_is_word_collapse, Hc. f_equal.
    apply IH; [discriminate | exact Hr].
Qed.

Lemma tidy_collapse b s : tidy b (collapse_go b s) = true.
Proof.
  revert b. induction s as [|c r IH]; intros b; [reflexivity|].
  simpl. destruct (is_space c) eqn:E.
  - destruct b; [apply IH|]. simpl. apply IH.
  - simpl. rewrite E. apply IH.
Qed.

Lemma tidy_trimStart b s : tidy b s = true -> tidy false (trimStart s) = true.
Proof.
  revert b. induction s as [|c r IH]; intros b; [reflexivity|].
  simpl. destruct (is_space c) eqn:E.
  - intros H. apply andb_prop in H as [_ H]. apply (IH true H).
  - intros H. simpl. rewrite E. exact H.
Qed.

Lemma tidy_fixed b s : tidy b s = true -> collapse_go b s = s.
Proof.
  revert b. induction s as [|c r IH]; intros b; [reflexivity|].
  simpl. destruct (is_space c) eqn:E.
  - intros H. apply andb_prop in H as [H Hr].
    apply andb_prop in H as [Hb Hc].
    apply negb_true_iff in Hb. subst b.
    apply N.eqb_eq in Hc. subst c. rewrite (IH true Hr). reflexivity.
  - intros H. rewrite (IH false H). reflexivity.
Qed.

End TextFacts.

Section WordFacts.
Import Text.

Ltac chars :=
  unfold is_space, is_word, is_lower, SPACE, FULL_STOP, LOWER_I, UPPER_I in *;
  lia.

(** *** Fields and words *)







Lemma words_space c r : is_space c = true -> words (c :: r) = words r.
Proof. intros E. unfold words. simpl. rewrite E. reflexivity. Qed.









Lemma words_trimStart s : words (trimStart s) = words s.
Proof.
  induction s as [|c r IH]; [reflexivity|]. simpl.
  destruct (is_space c) eqn:E; [|reflexivity].
  rewrite IH. symmetry. apply words_space, E.
Qed.


Lemma words_all_space s : trimStart s = [] -> words s = [].
Proof. intros E. rewrite <- words_trimStart, E. reflexivity. Qed.

(** *** The standalone "i", by position *)

Lemma word_at_cons c s k :
  word_at (c :: s) k = match k with
                       | O => is_word c
                       | S j => word_at s j
                       end.
Proof. destruct k; reflexivity. Qed.

Lemma word_at_first s : word_at s 0 = next_is_word s.
Proof. destruct s; reflexivity. Qed.

Lemma lone_cons p c s k :
  lone p (c :: s) (S k) = lone (is_word c) s k.
Proof.
  unfold lone. change ((c :: s) !! S k) with (s !! k).
  rewrite word_at_cons. reflexivity.
Qed.

Lemma replace_i_go_lone p s :
  replace_i_go p s = imap (fun k c => if lone p s k then UPPER_I else c) s.
Proof.
  revert p. induction s as [|c r IH]; intros p; [reflexivity|].
  cbn [replace_i_go imap]. f_equal.
  - unfold lone. cbn [lookup list_lookup]. simpl.
    rewrite <- word_at_first. reflexivity.
  - rewrite IH. apply imap_ext. intros k x _. simpl.
    rewrite lone_cons. reflexivity.
Qed.

Lemma replace_i_pronoun w : replace_i w = pronoun w.
Proof. apply replace_i_go_lone. Qed.

Lemma replace_fixed_no_lone s :
  replace_i s = s -> forall k, standalone s k = false.
Proof.
  intros E k. destruct (standalone s k) eqn:L; [|reflexivity].
  exfalso. rewrite replace_i_pronoun in E.
  assert (X : pronoun s !! k = s !! k) by (rewrite E; reflexivity).
  unfold pronoun in X. rewrite list_lookup_imap in X.
  unfold standalone, lone in L. destruct (s !! k) as [c|] eqn:Ek;
    [|discriminate].
  simpl in X. unfold standalone, lone in X. rewrite Ek in X.
  rewrite L in X. apply andb_prop in L as [L _]. apply andb_prop in L as [L _].
  rewrite ?Ek in X; simpl in X. assert (Y : UPPER_I = c) by congruence. chars.
Qed.

End WordFacts.

Section ProcessFacts.
Import Text.

Ltac chars :=
  unfold is_space, is_word, is_lower, SPACE, FULL_STOP, LOWER_I, UPPER_I in *;
  lia.

Lemma latin1_mapping_case : case_mapping latin1_mapping.
Proof.
  intros c Hc Hs. unfold latin1_mapping.
  destruct (c =? 223)%N eqn:E1;
    [split; [discriminate|]; repeat constructor; chars|].
  destruct (c =? 255)%N eqn:E2;
    [split; [discriminate|]; repeat constructor; chars|].
  destruct (c =? 181)%N eqn:E3;
    [split; [discriminate|]; repeat constructor; chars|].
  destruct ((224 <=? c) && (c <=? 254) && negb (c =? 247))%N eqn:E4;
    split; try discriminate; repeat constructor; chars.
Qed.

Lemma solid_upper upper c :
  case_mapping upper -> is_space c = false -> solid (toUpperCase upper c).
Proof. intros Hu Hc. apply upper_form; assumption. Qed.

Lemma trimStart_empty s : trimStart s = [] <-> all_space s = true.
Proof.
  induction s as [|c r IH]; simpl; [tauto|].
  destruct (is_space c); simpl; [exact IH|]. split; discriminate.
Qed.

Lemma trim_cons s c r :
  trimStart s = c :: r -> is_space c = false /\ exists r0, trim s = c :: r0.
Proof.
  intros E. assert (Hc : is_space c = false).
  { pose proof (trimStart_head s) as H. rewrite E in H. exact H. }
  split; [exact Hc|]. unfold trim. rewrite E. simpl.
  destruct (trimEnd r); [rewrite Hc|]; eauto.
Qed.


Section Host.
Variable upper : N -> utf16.
Hypothesis Hupper : case_mapping upper.

Lemma process_blank s : trimStart s = [] -> processTranscript upper s = [].
Proof. intros E. unfold processTranscript, trim. rewrite E. reflexivity. Qed.

Lemma process_head s c r0 :
  trim s = c :: r0 -> is_space c = false ->
  exists q, processTranscript upper s
            = toUpperCase upper c ++ collapse_go false (replace_i_go q r0).
Proof.
  intros E Hc. unfold processTranscript. rewrite E. cbn [capitalize].
  pose proof (solid_upper upper c Hupper Hc) as Hs.
  unfold replace_i.
  destruct (replace_i_go_solid false _ r0 Hs) as (q & ->).
  exists q. unfold collapse. apply collapse_go_solid, Hs.
Qed.




Lemma process_starts s :
  match trimStart s with
  | [] => processTranscript upper s = []
  | c :: _ => exists r, processTranscript upper s = toUpperCase upper c ++ r
  end.
Proof.
  destruct (trimStart s) as [|c r] eqn:E; [apply process_blank, E|].
  destruct (trim_cons s c r E) as (Hc & r0 & Et).
  destruct (process_head s c r0 Et Hc) as (q & ->). eauto.
Qed.

End Host.


End ProcessFacts.



(** "état" becomes "État", and "ßx" the longer "SSx". *)
Example process_latin1 :
  Text.processTranscript Text.latin1_mapping [233; 116; 97; 116]%N
  = [201; 116; 97; 116]%N /\
  Text.processTranscript Text.latin1_mapping [223; 120]%N = [83; 83; 120]%N.
Proof. split; reflexivity. Qed.

Section RecognizerFacts.
Import Recognizer.

(** C8 (first half, as the code behaves).  [onend] clears [isListening]
    before it tests [autoRestart && isListening], so it never schedules a
    restart: from every state the pending timers and the restart handle are
    left as they were. *)
Theorem onend_never_schedules_restart (s : Service) :
  timers (onend s) = timers s /\
  restartTimer (onend s) = restartTimer s /\
  isListening (onend s) = false.
Proof.
  unfold onend. simpl. rewrite andb_false_r. simpl. auto.
Qed.

(** A service that was started, is listening, has auto-restart enabled and
    was never stopped: the end event leaves no timer pending. *)
Example end_while_listening :
  let s := steps created [CallerStart; HostStart 0] in
  autoRestart s = true /\ isListening s = true /\
  timers (step s HostEnd) = [].
Proof. cbv. auto. Qed.

(** C8 (second half).  [stop] and [abort] clear [autoRestart] and cancel
    the pending restart before they issue the request, and an end event
    after them schedules nothing. *)
Lemma stop_disables_restart (s : Service) :
  autoRestart (stop s) = false /\ restartTimer (stop s) = None /\
  autoRestart (abort s) = false /\ restartTimer (abort s) = None /\
  timers (onend (stop s)) = timers (stop s) /\
  timers (onend (abort s)) = timers (abort s).
Proof.
  unfold stop, abort, clearRestartTimer, onend. simpl.
  destruct (restartTimer s) eqn:E; simpl; rewrite ?E; repeat split; reflexivity.
Qed.

End RecognizerFacts.

Section JsonFacts.
Import JS.

#[local] Arguments digits : simpl never.

Lemma skip_ws_app (w s : string) :
  all_ws w = true -> skip_ws (w ++ s) = skip_ws s.
Proof.
  induction w as [|c w IH]; simpl; [reflexivity|].
  intros H. apply andb_prop in H as [Hc Hw]. rewrite Hc. auto.
Qed.

Lemma all_ws_app (a b : string) :
  all_ws a = true -> all_ws b = true -> all_ws (a ++ b) = true.
Proof.
  induction a as [|c a IH]; simpl; [auto|].
  intros H Hb. apply andb_prop in H as [Hc Ha]. rewrite Hc. auto.
Qed.

Lemma strip_app (p s : string) : strip p (p ++ s) = Some s.
Proof.
  induction p as [|c p IH]; simpl; [reflexivity|].
  rewrite Ascii.eqb_refl. exact IH.
Qed.

(** *** String literals *)

Lemma parse_string_escape (s rest : string) :
  parse_string (escape s ++ String DQ rest) = Some (s, rest).
Proof.
  induction s as [|c s IH]; [reflexivity|].
  simpl escape. rewrite string_app_assoc.
  each_char c; simpl; rewrite IH; reflexivity.
Qed.

Lemma parse_string_quote (s rest : string) :
  exists body,
    (quote s ++ rest)%string = String DQ body /\
    parse_string body = Some (s, rest).
Proof.
  unfold quote. eexists. split; [reflexivity|].
  rewrite string_app_assoc. apply parse_string_escape.
Qed.

(** *** Numbers *)

Lemma span_digits_digits (d : uint) (tail : string) :
  span_digits tail = (Nil, tail) ->
  span_digits (digits d ++ tail) = (d, tail).
Proof.
  intros H. unfold digits.
  induction d; simpl; rewrite ?IHd; auto.
Qed.

Lemma strip_nondigit (c : ascii) (d : uint) (tail : string) :
  digit_of c = None -> nonempty d = true ->
  strip (String c EmptyString) (digits d ++ tail) = None.
Proof.
  intros Hc Hd. unfold digits.
  destruct d; try discriminate Hd;
    cbn [NilEmpty.string_of_uint String.append strip];
    match goal with
    | |- (if Ascii.eqb ?k c then _ else _) = None =>
        destruct (Ascii.eqb_spec k c) as [<-|_]; [discriminate Hc | reflexivity]
    end.
Qed.

Lemma terminated_scan (rest : string) :
  terminated rest = true ->
  span_digits rest = (Nil, rest) /\ strip "." rest = None /\
  strip "e" rest = None /\ strip "E" rest = None.
Proof.
  destruct rest as [|c r]; [simpl; auto|].
  each_char c; intros H; try discriminate H; simpl; auto.
Qed.

Lemma print_num_parts (n : numlit) :
  print_num n
  = ((if num_neg n then "-" else "") ++ digits (num_int n)
       ++ frac_text (num_frac n) ++ exp_text (num_exp n))%string.
Proof.
  unfold print_num, frac_text, exp_text, sign_text.
  destruct n as [neg ip fr [[[upper sign] e]|]]; simpl;
    try destruct sign as [[]|]; destruct fr; reflexivity.
Qed.

Lemma scan_exp_print neg ip fr upper sign e rest :
  nonempty e = true -> terminated rest = true ->
  scan_exp neg ip fr upper (sign_text sign ++ digits e ++ rest)
  = Some (mkNum neg ip fr (Some (upper, sign, e)), rest).
Proof.
  intros He Hr. destruct (terminated_scan rest Hr) as (Hs & _).
  unfold scan_exp.
  destruct sign as [[]|].
  - simpl. rewrite (span_digits_digits _ _ Hs), He. reflexivity.
  - simpl. rewrite (span_digits_digits _ _ Hs), He. reflexivity.
  - cbn [sign_text String.append].
    rewrite !strip_nondigit by (auto; reflexivity).
    rewrite (span_digits_digits _ _ Hs), He. reflexivity.
Qed.

Lemma exp_tail neg ip fr ex rest :
  match ex with Some (_, _, e) => nonempty e | None => true end = true ->
  terminated rest = true ->
  let T := (exp_text ex ++ rest)%string in
  span_digits T = (Nil, T) /\ strip "." T = None /\
  match strip "e" T with
  | Some r => scan_exp neg ip fr false r
  | None =>
      match strip "E" T with
      | Some r => scan_exp neg ip fr true r
      | None => Some (mkNum neg ip fr None, T)
      end
  end = Some (mkNum neg ip fr ex, rest).
Proof.
  intros He Hr. destruct (terminated_scan rest Hr) as (Hs & Hd & He1 & He2).
  destruct ex as [[[upper sign] e]|]; cbv zeta.
  - unfold exp_text. rewrite !string_app_assoc.
    destruct upper; simpl; repeat split; auto using scan_exp_print.
  - cbn [exp_text String.append]. rewrite He1, He2. auto.
Qed.

Lemma frac_stage (fr : uint) (T : string) :
  span_digits T = (Nil, T) -> strip "." T = None ->
  match strip "." (frac_text fr ++ T) with
  | Some r => let '(f, r') := span_digits r in (Some f, r')
  | None => (None, (frac_text fr ++ T)%string)
  end = (if nonempty fr then Some fr else None, T).
Proof.
  intros Hs Hd.
  destruct fr; cbn [frac_text nonempty];
    [ cbn [String.append]; rewrite Hd; reflexivity
    | rewrite string_app_assoc, strip_app, (span_digits_digits _ _ Hs);
      reflexivity .. ].
Qed.

Lemma scan_number_print (n : numlit) (rest : string) :
  wf_num n = true -> terminated rest = true ->
  scan_number (print_num n ++ rest) = Some (n, rest).
Proof.
  intros Hn Hr. rewrite print_num_parts.
  destruct n as [neg ip fr ex]. unfold wf_num in Hn.
  cbn [num_neg num_int num_frac num_exp] in Hn |- *.
  apply andb_prop in Hn as [Hip Hex].
  assert (Hne : nonempty ip = true) by (destruct ip; auto; discriminate).
  rewrite !string_app_assoc.
  destruct (exp_tail neg ip fr ex rest Hex Hr) as (Hs & Hd & Hscan).
  cbv zeta in Hs, Hd, Hscan.
  set (T := (exp_text ex ++ rest)%string) in *.
  assert (HF : span_digits (frac_text fr ++ T) = (Nil, (frac_text fr ++ T)%string)).
  { destruct fr; cbn [frac_text]; [exact Hs | reflexivity ..]. }
  unfold scan_number.
  assert (Hneg :
    match strip "-" ((if neg then "-" else "") ++ digits ip ++ frac_text fr ++ T) with
    | Some r => (true, r)
    | None => (false, ((if neg then "-" else "") ++ digits ip ++ frac_text fr ++ T)%string)
    end = (neg, (digits ip ++ frac_text fr ++ T)%string)).
  { destruct neg.
    - rewrite strip_app. reflexivity.
    - cbn [String.append]. rewrite strip_nondigit by auto. reflexivity. }
  rewrite Hneg. rewrite (span_digits_digits _ _ HF), Hip.
  cbn [negb]. rewrite (frac_stage fr T Hs Hd).
  destruct fr; cbn [nonempty]; exact Hscan.
Qed.

(** *** Values *)

Lemma value_ind' (P : value -> Prop) :
  P Undefined -> P Null -> (forall b, P (Bool b)) -> (forall n, P (Num n)) ->
  (forall s, P (Str s)) -> (forall d, P (DateV d)) ->
  (forall items, Forall P items -> P (Arr items)) ->
  (forall props, Forall (fun kv => P (snd kv)) props -> P (Obj props)) ->
  forall v, P v.
Proof.
  intros HU HN HB HNum HS HD HA HO.
  refine (fix IH (v : value) : P v :=
            match v with
            | Undefined => HU
            | Null => HN
            | Bool b => HB b
            | Num n => HNum n
            | Str s => HS s
            | DateV d => HD d
            | Arr items =>
                HA items
                  ((fix go (l : list value) : Forall P l :=
                      match l with
                      | [] => List.Forall_nil P
                      | x :: r => @List.Forall_cons _ P x r (IH x) (go r)
                      end) items)
            | Obj props =>
                HO props
                  ((fix go (l : list (string * value))
                      : Forall (fun kv => P (snd kv)) l :=
                      match l with
                      | [] => List.Forall_nil _
                      | (k, x) :: r =>
                          @List.Forall_cons _ (fun kv => P (snd kv)) (k, x) r
                            (IH x) (go r)
                      end) props)
            end).
Qed.

Lemma join_cons (sep a : string) (b : string) (l : list string) :
  join sep (a :: b :: l) = (a ++ sep ++ join sep (b :: l))%string.
Proof. reflexivity. Qed.

Lemma str_Arr gap indent x items :
  str gap indent (Arr (x :: items))
  = ("[" ++ mind gap indent
       ++ join ("," ++ mind gap indent)
            (List.map (str gap (indent ++ gap)) (x :: items))
       ++ mend gap indent ++ "]")%string.
Proof.
  unfold mind, mend. cbn [str]. destruct (String.eqb gap "").
  - reflexivity.
  - cbn [String.append]. rewrite !string_app_assoc. reflexivity.
Qed.

Lemma members_text_map gap indent props :
  forallb (fun kv => plain (snd kv)) props = true ->
  members_text gap indent props
  = List.map (fun kv => (quote (fst kv) ++ colon gap
                           ++ str gap indent (snd kv))%string) props.
Proof.
  induction props as [|[k x] props IH]; [reflexivity|].
  cbn [forallb snd fst]. intros H. apply andb_prop in H as [Hx Hp].
  cbn [members_text List.map fst snd].
  fold (members_text gap indent props). rewrite (IH Hp).
  destruct x; try discriminate Hx; reflexivity.
Qed.

Lemma str_Obj gap indent kv props :
  forallb (fun kv => plain (snd kv)) (kv :: props) = true ->
  str gap indent (Obj (kv :: props))
  = ("{" ++ mind gap indent
       ++ join ("," ++ mind gap indent)
            (List.map (fun kv => (quote (fst kv) ++ colon gap
                                    ++ str gap (indent ++ gap) (snd kv))%string)
                      (kv :: props))
       ++ mend gap indent ++ "}")%string.
Proof.
  intros H. rewrite <- (members_text_map _ _ _ H).
  change (str gap indent (Obj (kv :: props)))
    with (match members_text gap (indent ++ gap) (kv :: props) with
          | [] => "{}"
          | _ =>
              if String.eqb gap ""
              then ("{" ++ join "," (members_text gap (indent ++ gap) (kv :: props))
                      ++ "}")%string
              else ("{" ++ LF ++ (indent ++ gap)
                      ++ join ("," ++ LF ++ (indent ++ gap))
                           (members_text gap (indent ++ gap) (kv :: props))
                      ++ LF ++ indent ++ "}")%string
          end).
  rewrite (members_text_map _ _ _ H). cbn [List.map].
  unfold mind, mend. destruct (String.eqb gap "").
  - reflexivity.
  - cbn [String.append]. rewrite !string_app_assoc. reflexivity.
Qed.

Lemma parse_value_ws fuel w s :
  all_ws w = true -> parse_value fuel (w ++ s) = parse_value fuel s.
Proof.
  intros H. destruct fuel; [reflexivity|].
  cbn [parse_value]. rewrite (skip_ws_app _ _ H). reflexivity.
Qed.

Lemma parse_elements_ws fuel w s :
  all_ws w = true -> parse_elements fuel (w ++ s) = parse_elements fuel s.
Proof.
  intros H. destruct fuel; [reflexivity|].
  cbn [parse_elements]. rewrite (parse_value_ws _ _ _ H). reflexivity.
Qed.

Lemma parse_members_ws fuel w s :
  all_ws w = true -> parse_members fuel (w ++ s) = parse_members fuel s.
Proof.
  intros H. destruct fuel; [reflexivity|].
  cbn [parse_members]. rewrite (skip_ws_app _ _ H). reflexivity.
Qed.

Lemma parse_value_str fuel body :
  parse_value (S fuel) (String DQ body)
  = match parse_string body with
    | Some (t, rest) => Some (Str t, rest)
    | None => None
    end.
Proof. reflexivity. Qed.

Lemma parse_value_arr fuel r :
  parse_value (S fuel) (String "[" r)
  = match strip "]" (skip_ws r) with
    | Some rest => Some (Arr [], rest)
    | None =>
        match parse_elements fuel r with
        | Some (items, rest) => Some (Arr items, rest)
        | None => None
        end
    end.
Proof. reflexivity. Qed.

Lemma parse_value_obj fuel r :
  parse_value (S fuel) (String "{" r)
  = match strip "}" (skip_ws r) with
    | Some rest => Some (Obj [], rest)
    | None =>
        match parse_members fuel r with
        | Some (members, rest) => Some (object_of members, rest)
        | None => None
        end
    end.
Proof. reflexivity. Qed.

Lemma parse_value_number fuel s :
  number_start s = true ->
  parse_value (S fuel) s
  = match scan_number s with
    | Some (n, rest) => Some (Num n, rest)
    | None => None
    end.
Proof.
  destruct s as [|c r]; [discriminate|].
  each_char c; intros H; try discriminate H; reflexivity.
Qed.

Lemma print_num_start n rest :
  wf_num n = true -> number_start (print_num n ++ rest) = true.
Proof.
  intros H. rewrite print_num_parts. unfold wf_num in H.
  apply andb_prop in H as [H _].
  destruct (num_neg n); [reflexivity|].
  cbn [String.append]. unfold digits.
  destruct (num_int n); try discriminate H; reflexivity.
Qed.

(** Every serialized document starts with a character that is neither
    white space nor a separator. *)
Lemma str_head gap indent v :
  plain v = true ->
  exists c X,
    str gap indent v = String c X /\ is_ws c = false /\
    Ascii.eqb c "]" = false /\ Ascii.eqb c "}" = false.
Proof.
  intros Hv. destruct v as [ | | [] | n | s | d | [|x items] | [|kv props] ];
    try discriminate Hv;
    try (do 2 eexists; split; [reflexivity | repeat split; reflexivity]).
  - cbn [str plain] in *. rewrite print_num_parts. unfold wf_num in Hv.
    apply andb_prop in Hv as [H _].
    destruct (num_neg n);
      [do 2 eexists; split; [reflexivity | repeat split; reflexivity]|].
    cbn [String.append]. unfold digits.
    destruct (num_int n); try discriminate H;
      do 2 eexists; (split; [reflexivity | repeat split; reflexivity]).
  - rewrite str_Arr.
    do 2 eexists; split; [reflexivity | repeat split; reflexivity].
  - cbn [plain] in Hv. apply andb_prop in Hv as [_ Hv]. rewrite (str_Obj _ _ _ _ Hv).
    do 2 eexists; split; [reflexivity | repeat split; reflexivity].
Qed.

Lemma lookahead gap indent v tail :
  plain v = true ->
  skip_ws (str gap indent v ++ tail) = (str gap indent v ++ tail)%string /\
  strip "]" (str gap indent v ++ tail) = None /\
  strip "}" (str gap indent v ++ tail) = None.
Proof.
  intros Hv. destruct (str_head gap indent v Hv) as (c & X & -> & Hw & H1 & H2).
  cbn [String.append skip_ws strip]. rewrite Hw, H1, H2. auto.
Qed.

Lemma terminated_close (w : string) (c : ascii) (rest : string) :
  all_ws w = true ->
  is_ws c || Ascii.eqb c "," || Ascii.eqb c "]" || Ascii.eqb c "}" = true ->
  terminated (w ++ String c rest) = true.
Proof.
  intros Hw Hc. destruct w as [|d w]; cbn [String.append terminated].
  - exact Hc.
  - cbn [all_ws] in Hw. apply andb_prop in Hw as [-> _]. reflexivity.
Qed.

Lemma all_ws_mind gap indent :
  all_ws gap = true -> all_ws indent = true ->
  all_ws (mind gap indent) = true /\ all_ws (mend gap indent) = true.
Proof.
  intros Hg Hi. unfold mind, mend. destruct (String.eqb gap ""); [auto|].
  split; apply all_ws_app; auto using all_ws_app.
Qed.

Lemma elements_read_back (items : list value) :
  items <> [] ->
  Forall (fun x => plain x = true -> reads_back x) items ->
  forallb plain items = true ->
  forall gap indent mi me fuel rest,
    all_ws gap = true -> all_ws indent = true ->
    all_ws mi = true -> all_ws me = true ->
    list_sum (List.map (fun x => S (size x)) items) <= fuel ->
    parse_elements fuel
      (mi ++ join ("," ++ mi) (List.map (str gap indent) items)
          ++ me ++ "]" ++ rest)
    = Some (items, rest).
Proof.
  intros Hne HF Hp gap indent mi me.
  induction items as [|x items IH]; [congruence|]. clear Hne.
  intros fuel rest Hg Hi Hmi Hme Hfuel.
  apply Forall_cons in HF as [Hx HF].
  cbn [forallb] in Hp. apply andb_prop in Hp as [Hpx Hp].
  cbn [List.map list_sum fold_right] in Hfuel.
  destruct fuel as [|fuel]; [lia|].
  rewrite (parse_elements_ws _ _ _ Hmi). cbn [parse_elements].
  destruct items as [|y items].
  - cbn [List.map join].
    assert (Ht : terminated (me ++ "]" ++ rest) = true)
      by (apply (terminated_close me "]" rest Hme); reflexivity).
    cbn [list_sum fold_right] in Hfuel.
    rewrite (Hx Hpx gap indent fuel _ Hg Hi Ht) by lia.
    rewrite (skip_ws_app _ _ Hme). reflexivity.
  - cbn [List.map]. rewrite join_cons, !string_app_assoc.
    assert (Ht : forall Z, terminated ("," ++ Z) = true) by reflexivity.
    rewrite (Hx Hpx gap indent fuel _ Hg Hi (Ht _)) by lia.
    assert (Hs : forall Z, strip "," (skip_ws ("," ++ Z)) = Some Z)
      by reflexivity.
    rewrite Hs.
    specialize (IH ltac:(discriminate) HF Hp fuel rest Hg Hi Hmi Hme).
    cbn [List.map] in IH.
    rewrite IH by (cbn [List.map list_sum fold_right] in *; lia). reflexivity.
Qed.

Lemma colon_text gap :
  exists w, colon gap = (":" ++ w)%string /\ all_ws w = true.
Proof.
  unfold colon. destruct (String.eqb gap "");
    [exists ""%string | exists " "%string]; split; reflexivity.
Qed.

Lemma members_read_back (props : list (string * value)) :
  props <> [] ->
  Forall (fun kv => plain (snd kv) = true -> reads_back (snd kv)) props ->
  forallb (fun kv => plain (snd kv)) props = true ->
  forall gap indent mi me fuel rest,
    all_ws gap = true -> all_ws indent = true ->
    all_ws mi = true -> all_ws me = true ->
    list_sum (List.map (fun kv => S (size (snd kv))) props) <= fuel ->
    parse_members fuel
      (mi ++ join ("," ++ mi)
               (List.map (fun kv => (quote (fst kv) ++ colon gap
                                       ++ str gap indent (snd kv))%string)
                         props)
          ++ me ++ "}" ++ rest)
    = Some (props, rest).
Proof.
  intros Hne HF Hp gap indent mi me.
  induction props as [|[k x] props IH]; [congruence|]. clear Hne.
  intros fuel rest Hg Hi Hmi Hme Hfuel.
  apply Forall_cons in HF as [Hx HF]. cbn [snd fst] in Hx.
  cbn [forallb snd] in Hp. apply andb_prop in Hp as [Hpx Hp].
  cbn [List.map list_sum fold_right snd fst] in Hfuel.
  destruct fuel as [|fuel]; [lia|].
  rewrite (parse_members_ws _ _ _ Hmi). cbn [parse_members].
  destruct (colon_text gap) as (w & Hc & Hw).
  assert (Hq : forall Z,
             strip (String DQ EmptyString) (skip_ws (quote k ++ Z)) =
             Some (escape k ++ String DQ Z)%string).
  { intros Z. unfold quote. cbn [String.append skip_ws].
    change (is_ws DQ) with false. cbv iota. cbn [strip].
    rewrite Ascii.eqb_refl, string_app_assoc. reflexivity. }
  assert (Hcol : forall Z, strip ":" (skip_ws (":" ++ Z)) = Some Z)
    by reflexivity.
  assert (Hcom : forall Z, strip "," (skip_ws ("," ++ Z)) = Some Z)
    by reflexivity.
  assert (Ht : forall Z, terminated ("," ++ Z) = true) by reflexivity.
  destruct props as [|kv props].
  - cbn [List.map join fst snd]. rewrite Hc, !string_app_assoc.
    rewrite Hq, parse_string_escape, Hcol, (parse_value_ws _ _ _ Hw).
    assert (Ht' : terminated (me ++ "}" ++ rest) = true)
      by (apply (terminated_close me "}" rest Hme); reflexivity).
    cbn [list_sum fold_right] in Hfuel.
    rewrite (Hx Hpx gap indent fuel _ Hg Hi Ht') by lia.
    rewrite (skip_ws_app _ _ Hme). reflexivity.
  - cbn [List.map fst snd]. rewrite join_cons, Hc, !string_app_assoc.
    rewrite Hq, parse_string_escape, Hcol, (parse_value_ws _ _ _ Hw).
    rewrite (Hx Hpx gap indent fuel _ Hg Hi (Ht _)) by lia.
    rewrite Hcom.
    specialize (IH ltac:(discriminate) HF Hp fuel rest Hg Hi Hmi Hme).
    cbn [List.map] in IH. rewrite Hc in IH.
    rewrite !string_app_assoc in IH.
    rewrite IH by (cbn [List.map list_sum fold_right] in *; lia). reflexivity.
Qed.

(** *** Objects with distinct keys *)

Lemma set_prop_fresh (acc : list (string * value)) k v :
  existsb (String.eqb k) (List.map fst acc) = false ->
  set_prop acc k v = acc ++ [(k, v)].
Proof.
  induction acc as [|[k' v'] acc IH]; [reflexivity|].
  cbn [List.map fst existsb set_prop]. intros H.
  apply orb_false_elim in H as [Hk H].
  rewrite String.eqb_sym, Hk, (IH H). reflexivity.
Qed.

Lemma existsb_app_false {A} (f : A -> bool) (l1 l2 : list A) :
  existsb f l1 = false -> existsb f l2 = false ->
  existsb f (l1 ++ l2) = false.
Proof. intros H1 H2. rewrite existsb_app, H1, H2. reflexivity. Qed.

Lemma fold_set_prop (props acc : list (string * value)) :
  distinct (List.map fst props) = true ->
  (forall k, In k (List.map fst props) ->
             existsb (String.eqb k) (List.map fst acc) = false) ->
  fold_left (fun ps kv => set_prop ps (fst kv) (snd kv)) props acc
  = acc ++ props.
Proof.
  revert acc. induction props as [|[k v] props IH]; intros acc Hd Hf.
  - rewrite app_nil_r. reflexivity.
  - cbn [List.map fst distinct] in Hd. apply andb_prop in Hd as [Hk Hd].
    apply negb_true_iff in Hk.
    cbn [fold_left fst snd].
    rewrite set_prop_fresh by (apply Hf; left; reflexivity).
    rewrite IH; [rewrite <- app_assoc; reflexivity | exact Hd |].
    intros k' Hk'. rewrite List.map_app. apply existsb_app_false.
    + apply Hf. right. exact Hk'.
    + cbn [List.map fst existsb]. rewrite orb_false_r.
      apply String.eqb_neq. intros ->.
      assert (existsb (String.eqb k) (List.map fst props) = true)
        by (apply existsb_exists; exists k; split;
            [exact Hk' | apply String.eqb_refl]).
      congruence.
Qed.

Lemma object_of_distinct (props : list (string * value)) :
  distinct (List.map fst props) = true -> object_of props = Obj props.
Proof.
  intros H. unfold object_of. rewrite fold_set_prop; auto.
Qed.

Theorem plain_reads_back (v : value) : plain v = true -> reads_back v.
Proof.
  induction v as [ | | b | n | s | d | items IH | props IH ] using value_ind';
    intros Hv gap indent fuel rest Hg Hi Hr Hfuel;
    try discriminate Hv;
    (destruct fuel as [|fuel]; [cbn [size] in Hfuel; lia|]).
  - reflexivity.
  - destruct b; reflexivity.
  - cbn [str plain] in *.
    rewrite (parse_value_number _ _ (print_num_start n rest Hv)).
    rewrite (scan_number_print n rest Hv Hr). reflexivity.
  - destruct (parse_string_quote s rest) as (body & Hb & Hp).
    cbn [str]. rewrite Hb, parse_value_str, Hp. reflexivity.
  - destruct items as [|x items]; [reflexivity|].
    cbn [plain] in Hv. cbn [size] in Hfuel.
    destruct (all_ws_mind gap indent Hg Hi) as [Hmi Hme].
    assert (Hx : plain x = true)
      by (cbn [forallb] in Hv; apply andb_prop in Hv; tauto).
    rewrite str_Arr, !string_app_assoc.
    change ("[" ++ ?Z)%string with (String "[" Z).
    rewrite parse_value_arr, (skip_ws_app _ _ Hmi).
    assert (Hk : forall Z,
               strip "]" (skip_ws
                  (join ("," ++ mind gap indent)
                     (List.map (str gap (indent ++ gap)) (x :: items)) ++ Z))
               = None).
    { intros Z.
      assert (exists W,
                 (join ("," ++ mind gap indent)
                    (List.map (str gap (indent ++ gap)) (x :: items)) ++ Z
                  = str gap (indent ++ gap) x ++ W)%string) as [W ->].
      { cbn [List.map]. destruct (List.map _ items).
        - exists Z. reflexivity.
        - eexists. rewrite join_cons, string_app_assoc. reflexivity. }
      destruct (lookahead gap (indent ++ gap) x W Hx) as (-> & -> & _).
      reflexivity. }
    rewrite Hk.
    rewrite (elements_read_back (x :: items) ltac:(discriminate) IH Hv
               gap (indent ++ gap)%string _ _ fuel rest
               Hg (all_ws_app _ _ Hi Hg) Hmi Hme) by lia.
    reflexivity.
  - destruct props as [|kv props]; [reflexivity|].
    cbn [plain] in Hv. apply andb_prop in Hv as [Hd Hv]. cbn [size] in Hfuel.
    destruct (all_ws_mind gap indent Hg Hi) as [Hmi Hme].
    rewrite (str_Obj _ _ _ _ Hv), !string_app_assoc.
    change ("{" ++ ?Z)%string with (String "{" Z).
    rewrite parse_value_obj, (skip_ws_app _ _ Hmi).
    assert (Hk : forall Z,
               strip "}" (skip_ws
                  (join ("," ++ mind gap indent)
                     (List.map (fun kv => (quote (fst kv) ++ colon gap
                                  ++ str gap (indent ++ gap) (snd kv))%string)
                               (kv :: props)) ++ Z)) = None).
    { intros Z. cbn [List.map]. destruct (List.map _ props);
        unfold quote; reflexivity. }
    rewrite Hk.
    rewrite (members_read_back (kv :: props) ltac:(discriminate) IH Hv
               gap (indent ++ gap)%string _ _ fuel rest
               Hg (all_ws_app _ _ Hi Hg) Hmi Hme) by lia.
    rewrite (object_of_distinct _ Hd). reflexivity.
Qed.

(** *** The fuel [JSON.parse] starts with is enough *)

Lemma string_length_app (a b : string) :
  String.length (a ++ b) = (String.length a + String.length b)%nat.
Proof. induction a as [|c a IH]; simpl; [reflexivity | rewrite IH; reflexivity]. Qed.

Lemma join_bound {A} (f : A -> string) (g : A -> nat) (sep : string)
    (l : list A) :
  (1 <= String.length sep)%nat ->
  Forall (fun x => (g x <= 2 * String.length (f x))%nat) l ->
  (list_sum (List.map (fun x => S (g x)) l)
   <= 2 * String.length (join sep (List.map f l)) + 1)%nat.
Proof.
  intros Hsep HF. induction HF as [|x l Hx HF IH]; [simpl; lia|].
  destruct l as [|y l].
  - cbn [List.map join list_sum fold_right]. lia.
  - cbn [List.map] in *. rewrite join_cons, !string_length_app.
    cbn [list_sum fold_right] in *. lia.
Qed.

Lemma size_le_text (v : value) :
  plain v = true ->
  forall gap indent, (size v <= 2 * String.length (str gap indent v))%nat.
Proof.
  induction v as [ | | b | n | s | d | items IH | props IH ] using value_ind';
    intros Hv gap indent;
    try (destruct (str_head gap indent _ Hv) as (c & X & -> & _);
         cbn [size String.length]; lia).
  - destruct items as [|x items]; [cbn; lia|].
    rewrite str_Arr, !string_length_app. cbn [size plain] in *.
    assert (H := join_bound (str gap (indent ++ gap)) size
                   ("," ++ mind gap indent) (x :: items)).
    cbn [String.length String.append] in H |- *.
    specialize (H ltac:(lia)).
    assert (HF : Forall (fun x => (size x
                  <= 2 * String.length (str gap (indent ++ gap) x))%nat)
                   (x :: items)).
    { rewrite forallb_forall in Hv. rewrite Forall_forall in IH |- *.
      intros y Hy. apply IH; [exact Hy|].
      apply Hv, list_elem_of_In, Hy. }
    specialize (H HF). lia.
  - destruct props as [|kv props]; [cbn; lia|].
    cbn [plain] in Hv. apply andb_prop in Hv as [_ Hv].
    rewrite (str_Obj _ _ _ _ Hv), !string_length_app. cbn [size].
    assert (H := join_bound
                   (fun kv => (quote (fst kv) ++ colon gap
                                 ++ str gap (indent ++ gap) (snd kv))%string)
                   (fun kv => size (snd kv))
                   ("," ++ mind gap indent) (kv :: props)).
    cbn [String.length String.append] in H |- *.
    specialize (H ltac:(lia)).
    assert (HF : Forall (fun kv : string * value => (size (snd kv)
                  <= 2 * String.length
                           (quote (fst kv) ++ colon gap
                              ++ str gap (indent ++ gap) (snd kv)))%nat)
                   (kv :: props)).
    { rewrite forallb_forall in Hv. rewrite Forall_forall in IH |- *.
      intros y Hy. rewrite !string_length_app.
      specialize (IH y Hy (Hv y ltac:(apply list_elem_of_In, Hy))
                    gap (indent ++ gap)%string). lia. }
    specialize (H HF). lia.
Qed.

(** [JSON.parse(JSON.stringify(v))] is [v] for every JSON document, with
    and without indentation. *)
Theorem parse_str (v : value) (gap : string) :
  plain v = true -> all_ws gap = true -> parse (str gap "" v) = Some v.
Proof.
  intros Hv Hg. unfold parse.
  pose proof (plain_reads_back v Hv gap "" 
                (2 * String.length (str gap "" v) + 2) "" Hg eq_refl eq_refl)
    as H.
  rewrite string_app_nil_r in H. rewrite H; [reflexivity|].
  pose proof (size_le_text v Hv gap ""). lia.
Qed.

End JsonFacts.

Section StoreRoundTrip.
Import JS Storage.

Lemma same_text_refl v : same_text v v.
Proof. split; reflexivity. Qed.

Lemma same_text_date iso : same_text (DateV (Some iso)) (Str iso).
Proof. split; reflexivity. Qed.

Lemma same_text_Arr (l l' : list value) :
  Forall2 same_text l l' -> same_text (Arr l) (Arr l').
Proof.
  intros H. split; [reflexivity|]. intros gap indent.
  assert (HM : List.map (str gap (indent ++ gap)) l
               = List.map (str gap (indent ++ gap)) l').
  { induction H as [|a b k k' [_ Hab] _ IH]; [reflexivity|].
    cbn [List.map]. rewrite Hab, IH. reflexivity. }
  destruct H as [|x y k k' Hxy H]; [reflexivity|].
  rewrite !str_Arr, HM. reflexivity.
Qed.

Lemma members_text_same gap indent (ps ps' : list (string * value)) :
  Forall2 (fun a b => fst a = fst b /\ same_text (snd a) (snd b)) ps ps' ->
  members_text gap indent ps = members_text gap indent ps'.
Proof.
  induction 1 as [|[k x] [k' y] ps ps' [Hk [Hu Hs]] _ IH]; [reflexivity|].
  cbn [fst snd] in *. subst k'.
  cbn [members_text]. fold (members_text gap indent ps).
  fold (members_text gap indent ps'). rewrite Hu, Hs, IH. reflexivity.
Qed.

Lemma str_Obj_members gap indent props :
  str gap indent (Obj props)
  = let partial := members_text gap (indent ++ gap) props in
    match partial with
    | [] => "{}"
    | _ =>
        if String.eqb gap ""
        then ("{" ++ join "," partial ++ "}")%string
        else ("{" ++ LF ++ (indent ++ gap)
                ++ join ("," ++ LF ++ (indent ++ gap)) partial
                ++ LF ++ indent ++ "}")%string
    end.
Proof. reflexivity. Qed.

Lemma same_text_Obj (ps ps' : list (string * value)) :
  Forall2 (fun a b => fst a = fst b /\ same_text (snd a) (snd b)) ps ps' ->
  same_text (Obj ps) (Obj ps').
Proof.
  intros H. split; [reflexivity|]. intros gap indent.
  rewrite !str_Obj_members, (members_text_same _ _ _ _ H). reflexivity.
Qed.

Ltac same_props :=
  repeat first
    [ apply List.Forall2_nil
    | apply List.Forall2_cons;
      [ split;
        [ reflexivity
        | cbn [snd];
          first [apply same_text_refl | apply same_text_date | idtac] ]
      | ] ].

Lemma entry_same_text (e : StoredEntry) :
  same_text (entry_toJS e) (entry_json e).
Proof.
  unfold entry_toJS, entry_json. apply same_text_Obj.
  destruct (confidence e), (speaker e); cbn [optional option_map app];
    same_props.
Qed.

Lemma Forall2_map_same {A} (f g : A -> value) (l : list A) :
  (forall x, same_text (f x) (g x)) ->
  Forall2 same_text (List.map f l) (List.map g l).
Proof. intros H. induction l; constructor; auto. Qed.

Lemma session_same_text (s : StoredSession) :
  same_text (toJS s) (session_json s).
Proof.
  unfold toJS, session_json. apply same_text_Obj. same_props.
  apply same_text_Arr, Forall2_map_same, entry_same_text.
Qed.

(** The stored form of a session is a JSON document. *)
Lemma entry_json_plain (e : StoredEntry) :
  ok_entry e = true -> plain (entry_json e) = true.
Proof.
  unfold ok_entry, entry_json. intros H.
  apply andb_prop in H as [_ H].
  destruct (confidence e), (speaker e);
    cbn [optional option_map app plain List.map fst snd forallb];
    rewrite ?H; reflexivity.
Qed.

Lemma session_json_plain (s : StoredSession) :
  ok_session s = true -> plain (session_json s) = true.
Proof.
  unfold ok_session, session_json. intros H.
  apply andb_prop in H as [_ H].
  cbn [plain List.map fst snd forallb].
  assert (forallb plain (List.map entry_json (Session.transcript s)) = true)
    as ->; [|reflexivity].
  induction (Session.transcript s) as [|e l IH]; [reflexivity|].
  cbn [forallb List.map] in *. apply andb_prop in H as [He H].
  rewrite (entry_json_plain e He), (IH H). reflexivity.
Qed.

(** Reading a stored session back gives the session, dates revived. *)
Lemma reviveEntry_json (e : StoredEntry) :
  ok_entry e = true -> reviveEntry (entry_json e) = Some (entry_toJS e).
Proof.
  unfold ok_entry. intros H.
  apply andb_prop in H as [H _]. apply andb_prop in H as [H H3].
  apply andb_prop in H as [H1 H2].
  unfold reviveEntry, entry_json, entry_toJS, newDate.
  cbn [get lookup_prop app String.eqb Ascii.eqb Bool.eqb].
  rewrite H1, H2, H3.
  destruct (confidence e), (speaker e); reflexivity.
Qed.

Lemma reviveEntries_json (l : list StoredEntry) :
  forallb ok_entry l = true ->
  map_opt reviveEntry (List.map entry_json l) = Some (List.map entry_toJS l).
Proof.
  induction l as [|e l IH]; [reflexivity|].
  cbn [forallb List.map map_opt]. intros H. apply andb_prop in H as [He H].
  rewrite (reviveEntry_json e He), (IH H). reflexivity.
Qed.

Lemma reviveSession_json (s : StoredSession) :
  ok_session s = true -> reviveSession (session_json s) = Some (toJS s).
Proof.
  unfold ok_session. intros H.
  apply andb_prop in H as [H H3]. apply andb_prop in H as [H1 H2].
  unfold reviveSession, session_json, toJS, newDate.
  cbn [get lookup_prop String.eqb Ascii.eqb Bool.eqb].
  rewrite (reviveEntries_json _ H3), H1, H2. reflexivity.
Qed.

(** *** The invariant of the store *)

Lemma stringify_sessions (l : list value) (ss : list StoredSession) :
  Forall2 same_text l (List.map session_json ss) ->
  stringify (Arr l) = stringify (Arr (List.map session_json ss)) /\
  stringify2 (Arr l) = stringify2 (Arr (List.map session_json ss)).
Proof.
  intros H. apply same_text_Arr in H as [_ H]. split; apply H.
Qed.

Lemma toJS_same_list (ss : list StoredSession) :
  Forall2 same_text (List.map toJS ss) (List.map session_json ss).
Proof. apply Forall2_map_same, session_same_text. Qed.

Lemma sessions_plain (ss : list StoredSession) :
  forallb ok_session ss = true ->
  plain (Arr (List.map session_json ss)) = true.
Proof.
  cbn [plain]. induction ss as [|s ss IH]; [reflexivity|].
  cbn [forallb List.map]. intros H. apply andb_prop in H as [Hs H].
  rewrite (session_json_plain s Hs), (IH H). reflexivity.
Qed.

Lemma reviveSessions_json (ss : list StoredSession) :
  forallb ok_session ss = true ->
  map_opt reviveSession (List.map session_json ss) = Some (List.map toJS ss).
Proof.
  induction ss as [|s ss IH]; [reflexivity|].
  cbn [forallb List.map map_opt]. intros H. apply andb_prop in H as [Hs H].
  rewrite (reviveSession_json s Hs), (IH H). reflexivity.
Qed.

Lemma stringify_not_empty (v : value) :
  plain v = true -> String.eqb (stringify v) "" = false.
Proof.
  intros H. unfold stringify.
  destruct (str_head "" "" v H) as (c & X & -> & _). reflexivity.
Qed.

(** [getAllSessions] returns the sessions the storage holds. *)
Lemma getAllSessions_holds env ss :
  holds env ss -> getAllSessions env = List.map toJS ss.
Proof.
  intros [Hw Hok _ Hl _]. unfold getAllSessions. rewrite Hw. cbn [negb].
  destruct Hl as [Hl | [Hl ->]]; rewrite Hl; [|reflexivity].
  rewrite (stringify_not_empty _ (sessions_plain ss Hok)).
  unfold stringify. rewrite (parse_str _ "" (sessions_plain ss Hok) eq_refl).
  rewrite (reviveSessions_json ss Hok). reflexivity.
Qed.

(** *** Keys *)

Lemma prefix_not_key (k : string) :
  (SESSION_PREFIX ++ k)%string <> STORAGE_KEY.
Proof. discriminate. Qed.

Lemma prefix_inj (a b : string) :
  (SESSION_PREFIX ++ a)%string = (SESSION_PREFIX ++ b)%string -> a = b.
Proof. intros H. injection H. auto. Qed.

Lemma getItem_setItem_eq k v env : getItem k (setItem k v env) = Some v.
Proof. unfold getItem, setItem. cbn. apply lookup_insert_eq. Qed.

Lemma getItem_setItem_ne k k' v env :
  k' <> k -> getItem k (setItem k' v env) = getItem k env.
Proof. intros H. unfold getItem, setItem. cbn. apply lookup_insert_ne, H. Qed.

Lemma getItem_removeItem_ne k k' env :
  k' <> k -> getItem k (removeItem k' env) = getItem k env.
Proof. intros H. unfold getItem, removeItem. cbn. apply lookup_delete_ne, H. Qed.

Lemma setItem_same k v env : getItem k env = Some v -> setItem k v env = env.
Proof.
  unfold getItem, setItem. intros H. destruct env as [w m]. cbn in *.
  f_equal. apply insert_id, H.
Qed.

(** *** [findIndex] and the upsert *)

Lemma findIndex_toJS (k : string) (ss : list StoredSession) :
  findIndex (List.map toJS ss) (Str k) = index_of k (ids ss).
Proof.
  induction ss as [|s ss IH]; [reflexivity|].
  cbn [List.map ids findIndex index_of]. fold (ids ss).
  change (get (toJS s) "id") with (Some (Str (Session.id s))).
  cbn [strict_eq]. rewrite IH. reflexivity.
Qed.

Lemma saved_list_same (s : StoredSession) (v : value)
    (ss : list StoredSession) :
  same_text v (session_json s) ->
  Forall2 same_text
    match index_of (Session.id s) (ids ss) with
    | Some i => <[i := v]> (List.map toJS ss)
    | None => List.map toJS ss ++ [v]
    end
    (List.map session_json (upsert s ss)).
Proof.
  intros Hv. induction ss as [|x ss IH].
  - cbn. constructor; [exact Hv | constructor].
  - cbn [ids List.map index_of upsert]. fold (ids ss).
    destruct (String.eqb (Session.id x) (Session.id s)).
    + cbn. constructor; [exact Hv | apply toJS_same_list].
    + destruct (index_of (Session.id s) (ids ss)); cbn in *;
        (constructor; [apply session_same_text | exact IH]).
Qed.

Lemma upsert_In (s s' : StoredSession) (ss : list StoredSession) :
  NoDup (ids ss) -> In s' (upsert s ss) ->
  s' = s \/ (In s' ss /\ Session.id s' <> Session.id s).
Proof.
  induction ss as [|x ss IH]; cbn [upsert ids List.map]; intros Hn Hi.
  - destruct Hi as [<-|[]]. auto.
  - apply NoDup_cons in Hn as [Hx Hn].
    destruct (String.eqb_spec (Session.id x) (Session.id s)) as [E|E].
    + destruct Hi as [<-|Hi]; [auto|]. right. split; [right; exact Hi|].
      intros E'. apply Hx. rewrite E, <- E'.
      apply list_elem_of_In, in_map, Hi.
    + destruct Hi as [<-|Hi]; [right; split; [left; reflexivity | exact E]|].
      destruct (IH Hn Hi) as [->|[H1 H2]]; [auto|].
      right. split; [right; exact H1 | exact H2].
Qed.

Lemma upsert_ids (s : StoredSession) (ss : list StoredSession) k :
  In k (ids (upsert s ss)) -> k = Session.id s \/ In k (ids ss).
Proof.
  induction ss as [|x ss IH]; cbn [upsert ids List.map].
  - intros [<-|[]]. auto.
  - destruct (String.eqb_spec (Session.id x) (Session.id s)) as [E|E];
      cbn [List.map]; fold (ids ss); fold (ids (upsert s ss)).
    + cbn [In]. intros [<-|H]; tauto.
    + cbn [In]. intros [<-|H]; [tauto|]. destruct (IH H); tauto.
Qed.

Lemma upsert_nodup (s : StoredSession) (ss : list StoredSession) :
  NoDup (ids ss) -> NoDup (ids (upsert s ss)).
Proof.
  induction ss as [|x ss IH]; cbn [upsert ids List.map]; intros Hn.
  - apply NoDup_singleton.
  - apply NoDup_cons in Hn as [Hx Hn].
    destruct (String.eqb_spec (Session.id x) (Session.id s)) as [E|E];
      cbn [List.map]; apply NoDup_cons.
    + rewrite <- E. auto.
    + split; [|apply IH, Hn]. intros H. apply list_elem_of_In in H.
      destruct (upsert_ids _ _ _ H) as [H'|H']; [congruence|].
      apply Hx, list_elem_of_In, H'.
Qed.

Lemma upsert_ok (s : StoredSession) (ss : list StoredSession) :
  ok_session s = true -> forallb ok_session ss = true ->
  forallb ok_session (upsert s ss) = true.
Proof.
  intros Hs. induction ss as [|x ss IH]; cbn [upsert forallb]; intros H.
  - rewrite Hs. reflexivity.
  - apply andb_prop in H as [Hx H].
    destruct (String.eqb (Session.id x) (Session.id s)); cbn [forallb].
    + rewrite Hs, H. reflexivity.
    + rewrite Hx, (IH H). reflexivity.
Qed.

Lemma upsert_member (s : StoredSession) (ss : list StoredSession) :
  In s ss -> NoDup (ids ss) -> upsert s ss = ss.
Proof.
  induction ss as [|x ss IH]; [intros []|].
  cbn [upsert ids List.map]. intros Hi Hn.
  apply NoDup_cons in Hn as [Hx Hn].
  destruct (String.eqb_spec (Session.id x) (Session.id s)) as [E|E].
  - destruct Hi as [->|Hi]; [reflexivity|]. exfalso. apply Hx.
    rewrite E. apply list_elem_of_In, in_map, Hi.
  - destruct Hi as [->|Hi]; [congruence|]. rewrite (IH Hi Hn). reflexivity.
Qed.

(** *** [saveSession] *)

Lemma saveSession_unfold (v : value) (k : string) env (l : list value) :
  window env = true -> getAllSessions env = l -> get v "id" = Some (Str k) ->
  saveSession v env
  = setItem (SESSION_PREFIX ++ k)%string (stringify v)
      (setItem STORAGE_KEY
         (stringify (Arr match findIndex l (Str k) with
                         | Some i => <[i := v]> l
                         | None => l ++ [v]
                         end)) env).
Proof.
  intros Hw Hl Hg. unfold saveSession. rewrite Hw, Hl, Hg. cbn [negb].
  destruct l; reflexivity.
Qed.

Lemma saveSession_holds env ss (s : StoredSession) (v : value) :
  holds env ss -> ok_session s = true ->
  same_text v (session_json s) -> get v "id" = Some (Str (Session.id s)) ->
  holds (saveSession v env) (upsert s ss).
Proof.
  intros H Hs Hv Hg. pose proof (getAllSessions_holds env ss H) as Hall.
  destruct H as [Hw Hok Hn Hl Hi].
  rewrite (saveSession_unfold v (Session.id s) env _ Hw Hall Hg).
  rewrite findIndex_toJS.
  destruct (stringify_sessions _ _ (saved_list_same s v ss Hv)) as [-> _].
  destruct Hv as [_ Hst].
  split.
  - exact Hw.
  - apply upsert_ok; assumption.
  - apply upsert_nodup, Hn.
  - left. rewrite getItem_setItem_ne by apply prefix_not_key.
    apply getItem_setItem_eq.
  - intros s' Hs'.
    destruct (upsert_In s s' ss Hn Hs') as [->|[Hin Hne]].
    + rewrite getItem_setItem_eq. unfold stringify. rewrite Hst. reflexivity.
    + rewrite !getItem_setItem_ne; [apply Hi, Hin | | ].
      * intros E. symmetry in E. exact (prefix_not_key _ E).
      * intros E. apply prefix_inj in E. congruence.
Qed.

(** Saving the stored form of a session that is already there changes
    nothing. *)
Lemma saveSession_stored env ss (s : StoredSession) :
  holds env ss -> In s ss -> saveSession (session_json s) env = env.
Proof.
  intros H Hin. pose proof (getAllSessions_holds env ss H) as Hall.
  destruct H as [Hw Hok Hn Hl Hi].
  rewrite (saveSession_unfold (session_json s) (Session.id s) env _
             Hw Hall eq_refl).
  rewrite findIndex_toJS.
  destruct (stringify_sessions _ _
              (saved_list_same s (session_json s) ss (same_text_refl _)))
    as [-> _].
  rewrite (upsert_member s ss Hin Hn).
  destruct Hl as [Hl | [_ ->]]; [|destruct Hin].
  rewrite (setItem_same _ _ _ Hl). apply setItem_same, Hi, Hin.
Qed.

(** *** [deleteSession] and [clearAllSessions] *)

Lemma filter_toJS (sessionId : string) (ss : list StoredSession) :
  List.filter
    (fun s => match get s "id" with
              | Some sid => negb (strict_eq sid (Str sessionId))
              | None => true
              end) (List.map toJS ss)
  = List.map toJS (without sessionId ss).
Proof.
  induction ss as [|s ss IH]; [reflexivity|].
  cbn [List.map List.filter without].
  change (get (toJS s) "id") with (Some (Str (Session.id s))).
  cbn [strict_eq]. fold (without sessionId ss).
  destruct (String.eqb (Session.id s) sessionId); cbn [negb List.map];
    rewrite IH; reflexivity.
Qed.

Lemma without_In (sessionId : string) (ss : list StoredSession) s :
  In s (without sessionId ss) -> In s ss /\ Session.id s <> sessionId.
Proof.
  unfold without. rewrite List.filter_In. intros [H1 H2]. split; [exact H1|].
  apply negb_true_iff, String.eqb_neq in H2. exact H2.
Qed.

Lemma without_nodup (sessionId : string) (ss : list StoredSession) :
  NoDup (ids ss) -> NoDup (ids (without sessionId ss)).
Proof.
  induction ss as [|x ss IH]; cbn [without List.filter ids List.map];
    intros Hn; [constructor|].
  apply NoDup_cons in Hn as [Hx Hn]. fold (without sessionId ss).
  destruct (negb (String.eqb (Session.id x) sessionId));
    [|apply IH, Hn].
  cbn [List.map]. apply NoDup_cons. split; [|apply IH, Hn].
  intros H. apply Hx. apply list_elem_of_In in H. apply list_elem_of_In.
  apply in_map_iff in H as (y & Hy & Hin). apply without_In in Hin as [Hin _].
  rewrite <- Hy. apply in_map, Hin.
Qed.

Lemma without_ok (sessionId : string) (ss : list StoredSession) :
  forallb ok_session ss = true ->
  forallb ok_session (without sessionId ss) = true.
Proof.
  rewrite !forallb_forall. intros H s Hs. apply H.
  apply without_In in Hs. tauto.
Qed.

Lemma deleteSession_holds env ss (sessionId : string) :
  holds env ss -> holds (deleteSession sessionId env) (without sessionId ss).
Proof.
  intros H. pose proof (getAllSessions_holds env ss H) as Hall.
  destruct H as [Hw Hok Hn Hl Hi].
  unfold deleteSession. rewrite Hw, Hall, filter_toJS. cbn [negb].
  destruct (stringify_sessions _ _ (toJS_same_list (without sessionId ss)))
    as [-> _].
  split.
  - exact Hw.
  - apply without_ok, Hok.
  - apply without_nodup, Hn.
  - left. rewrite getItem_removeItem_ne by apply prefix_not_key.
    apply getItem_setItem_eq.
  - intros s Hs. apply without_In in Hs as [Hs Hne].
    rewrite getItem_removeItem_ne, getItem_setItem_ne; [apply Hi, Hs | |].
    + intros E. symmetry in E. exact (prefix_not_key _ E).
    + intros E. apply prefix_inj in E. congruence.
Qed.

Lemma clear_items_window (l : list value) env :
  window
    (fold_left
       (fun env session =>
          match get session "id" with
          | Some sid => removeItem (SESSION_PREFIX ++ to_string sid)%string env
          | None => env
          end) l env)
  = window env.
Proof.
  revert env. induction l as [|x l IH]; intros env; [reflexivity|].
  cbn [fold_left]. rewrite IH. destruct (get x "id"); reflexivity.
Qed.

Lemma clearAllSessions_holds env ss :
  holds env ss -> holds (clearAllSessions env) [].
Proof.
  intros [Hw _ _ _ _]. unfold clearAllSessions. rewrite Hw. cbn [negb].
  split.
  - cbn [setItem window]. rewrite clear_items_window. exact Hw.
  - reflexivity.
  - constructor.
  - left. apply getItem_setItem_eq.
  - intros s [].
Qed.

(** *** Export, then import *)

Lemma import_stored env ss (l : list StoredSession) :
  holds env ss -> (forall s, In s l -> In s ss) ->
  fold_left (fun env session => saveSession session env)
            (List.map session_json l) env = env.
Proof.
  intros H. induction l as [|s l IH]; intros Hin; [reflexivity|].
  cbn [List.map fold_left].
  rewrite (saveSession_stored env ss s H) by (apply Hin; left; reflexivity).
  apply IH. intros s' Hs'. apply Hin. right. exact Hs'.
Qed.

Lemma upsert_fresh (s : StoredSession) (ss : list StoredSession) :
  ~ In (Session.id s) (ids ss) -> upsert s ss = ss ++ [s].
Proof.
  induction ss as [|x ss IH]; [reflexivity|].
  cbn [upsert ids List.map In]. intros H.
  destruct (String.eqb_spec (Session.id x) (Session.id s)) as [E|E];
    [tauto|]. rewrite IH by tauto. reflexivity.
Qed.

Lemma upsert_all (l acc : list StoredSession) :
  NoDup (ids (acc ++ l)) ->
  fold_left (fun acc s => upsert s acc) l acc = acc ++ l.
Proof.
  revert acc. induction l as [|s l IH]; intros acc Hn.
  - rewrite app_nil_r. reflexivity.
  - cbn [fold_left]. rewrite upsert_fresh.
    + rewrite IH; rewrite <- app_assoc; [reflexivity | exact Hn].
    + unfold ids in Hn. rewrite List.map_app in Hn. cbn [List.map] in Hn.
      apply NoDup_app in Hn as (_ & Hd & _). intros Hin.
      apply (Hd (Session.id s)); [apply list_elem_of_In, Hin | left].
Qed.

Lemma import_holds env ss (l : list StoredSession) :
  holds env ss -> forallb ok_session l = true ->
  holds (fold_left (fun env session => saveSession session env)
                   (List.map session_json l) env)
        (fold_left (fun acc s => upsert s acc) l ss).
Proof.
  revert env ss. induction l as [|s l IH]; intros env ss H Hok; [exact H|].
  cbn [forallb] in Hok. apply andb_prop in Hok as [Hs Hok].
  cbn [List.map fold_left]. apply IH; [|exact Hok].
  apply saveSession_holds; auto using same_text_refl.
Qed.

Lemma export_holds env ss :
  holds env ss ->
  parse (exportSessions env) = Some (Arr (List.map session_json ss)).
Proof.
  intros H. unfold exportSessions. rewrite (getAllSessions_holds env ss H).
  destruct (stringify_sessions _ _ (toJS_same_list ss)) as [_ ->].
  apply parse_str; [apply sessions_plain, (holds_ok _ _ H) | reflexivity].
Qed.

Lemma importSessions_holds env ss source ts :
  holds env ss -> holds source ts ->
  importSessions (exportSessions source) env
  = (fold_left (fun env session => saveSession session env)
       (List.map session_json ts) env, true) /\
  holds (fst (importSessions (exportSessions source) env))
        (fold_left (fun acc s => upsert s acc) ts ss).
Proof.
  intros H T.
  assert (E : importSessions (exportSessions source) env
              = (fold_left (fun env session => saveSession session env)
                   (List.map session_json ts) env, true)).
  { unfold importSessions.
    rewrite (holds_window _ _ H), (export_holds source ts T). reflexivity. }
  split; [exact E|]. rewrite E. cbn [fst].
  apply import_holds; [exact H | apply (holds_ok _ _ T)].
Qed.

Lemma reachable_holds env : reachable env -> exists ss, holds env ss.
Proof.
  induction 1 as [env Hw Hk | env s _ [ss IH] Hs
                 | env sessionId _ [ss IH] | env _ [ss IH]
                 | env source _ [ss IH] _ [ts IT]].
  - exists [].
    split; [exact Hw | reflexivity | constructor | right; auto | intros s []].
  - exists (upsert s ss).
    apply saveSession_holds; auto using session_same_text.
  - exists (without sessionId ss). apply deleteSession_holds, IH.
  - exists []. apply (clearAllSessions_holds env ss IH).
  - eexists. apply (importSessions_holds env ss source ts IH IT).
Qed.

(** C5 (amended).  For every store the application has written (sessions
    with valid dates saved, sessions deleted, the store cleared, exports
    imported), importing the output of [exportSessions] succeeds.
    Imported into the same store it leaves the storage exactly as it was;
    imported into a store that holds no session it restores the same
    sessions: [getAllSessions] returns the same list (same ids, same
    content, same transcripts) as before. *)
Theorem export_import_roundtrip (env target : Env) :
  reachable env -> reachable target -> getAllSessions target = [] ->
  importSessions (exportSessions env) env = (env, true) /\
  snd (importSessions (exportSessions env) target) = true /\
  getAllSessions (fst (importSessions (exportSessions env) target))
  = getAllSessions env /\
  exists ss : list StoredSession,
    NoDup (List.map Session.id ss) /\
    getAllSessions env = List.map toJS ss /\
    parse (exportSessions env) = Some (Arr (List.map session_json ss)).
Proof.
  intros Hr Ht Hempty. destruct (reachable_holds env Hr) as [ss H].
  destruct (reachable_holds target Ht) as [ts T].
  pose proof (getAllSessions_holds env ss H) as Hall.
  assert (ts = []) as ->.
  { rewrite (getAllSessions_holds target ts T) in Hempty.
    destruct ts; [reflexivity | discriminate]. }
  destruct (importSessions_holds env ss env ss H H) as [E1 _].
  destruct (importSessions_holds target [] env ss T H) as [E2 R].
  split; [|split; [|split]].
  - rewrite E1, (import_stored env ss ss H) by auto. reflexivity.
  - rewrite E2. reflexivity.
  - rewrite (upsert_all ss []) in R by apply (holds_nodup _ _ H).
    rewrite (getAllSessions_holds _ _ R), Hall. reflexivity.
  - exists ss. repeat split; auto using export_holds.
    apply (holds_nodup _ _ H).
Qed.

End StoreRoundTrip.

Section StorageFacts.
Import JS Storage.

(** C4 (amended).  [importSessions] checks only that the payload parses
    and that the parsed value is an array: when it is not, nothing is
    committed (the environment is returned unchanged) and the result is
    [false]; when it is, every element is handed to [saveSession] and the
    result is [true], whatever the elements are. *)
Theorem import_rejects_non_array (jsonString : string) (env : Env) :
  (array_payload jsonString = false ->
   importSessions jsonString env = (env, false)) /\
  (array_payload jsonString = true -> window env = true ->
   exists sessions,
     parse jsonString = Some (Arr sessions) /\
     importSessions jsonString env
     = (fold_left (fun env session => saveSession session env) sessions env,
        true)).
Proof.
  unfold array_payload, importSessions.
  destruct (window env); simpl;
    destruct (parse jsonString) as [[]|]; split; intros; try discriminate;
    eauto.
Qed.


End StorageFacts.

(** C4, as stated, fails: a payload whose only element has no session
    fields is accepted, and it is committed to both storage keys. *)
Lemma import_commits_unvalidated :
  let payload := JS.json "[{'id':'x'}]" in
  let '(env, ok) := Storage.importSessions payload Storage.fresh in
  Storage.valid_payload payload = false /\
  ok = true /\
  Storage.getItem Storage.STORAGE_KEY env = Some payload /\
  Storage.getItem "caption_session_x" env = Some (JS.json "{'id':'x'}") /\
  ~ Storage.import_validates payload Storage.fresh.
Proof.
  vm_compute. repeat split; try reflexivity.
  intros H. specialize (H eq_refl). discriminate H.
Qed.

(** C5, as stated, fails.  [importSessions] commits a record without
    dates; [getAllSessions] revives its missing dates as invalid dates;
    [exportSessions] writes an invalid date as [null]; and after the import
    of that export, into the same store or into an empty one, the dates
    are revived from [null] as the epoch. *)
Lemma roundtrip_loses_invalid_dates :
  let stored :=
    fst (Storage.importSessions (JS.json "[{'id':'x','transcript':[]}]")
           Storage.fresh) in
  Storage.getAllSessions stored
  = [JS.Obj [("id", JS.Str "x"); ("transcript", JS.Arr []);
             ("startTime", JS.DateV None); ("endTime", JS.DateV None)]] /\
  JS.parse (Storage.exportSessions stored)
  = Some (JS.Arr [JS.Obj [("id", JS.Str "x"); ("transcript", JS.Arr []);
                          ("startTime", JS.Null); ("endTime", JS.Null)]]) /\
  Storage.getAllSessions
    (fst (Storage.importSessions (Storage.exportSessions stored)
            Storage.fresh))
  = [JS.Obj [("id", JS.Str "x"); ("transcript", JS.Arr []);
             ("startTime", JS.DateV (Some "1970-01-01T00:00:00.000Z"));
             ("endTime", JS.DateV (Some "1970-01-01T00:00:00.000Z"))]] /\
  ~ Storage.roundtrip_identical stored Storage.fresh /\
  ~ Storage.roundtrip_identical stored stored.
Proof.
  cbv zeta. split; [vm_compute; reflexivity|].
  split; [vm_compute; reflexivity|].
  split; [vm_compute; reflexivity|].
  split; intros [_ H]; vm_compute in H; discriminate H.
Qed.

(** A store with one saved session, and the round trip through an empty
    store. *)
Lemma export_import_roundtrip_witness :
  let env := Storage.saveSession (Storage.toJS Storage.sample_session) Storage.fresh in
  Storage.importSessions (Storage.exportSessions env) env = (env, true) /\
  Storage.getAllSessions
    (fst (Storage.importSessions (Storage.exportSessions env) Storage.fresh))
  = Storage.getAllSessions env.
Proof.
  intros env.
  assert (Hf : Storage.reachable Storage.fresh)
    by (apply Storage.reach_unused; reflexivity).
  assert (He : Storage.reachable env)
    by (apply Storage.reach_save; [exact Hf | reflexivity]).
  destruct (export_import_roundtrip env Storage.fresh He Hf eq_refl)
    as (H1 & _ & H2 & _).
  split; [exact H1 | exact H2].
Defined.

(* ===================================================================== *)
(** * Part III: further properties of the code                            *)
(* ===================================================================== *)

(** ** [processTranscript], once more *)

Section ProcessMore.
Import Text.

Ltac chars :=
  unfold is_space, is_word, is_lower, SPACE, FULL_STOP, LOWER_I, UPPER_I in *;
  lia.

Lemma upper_settled upper u :
  (u < 128)%N -> is_lower u = false -> toUpperCase upper u = [u].
Proof.
  intros Hu Hl. unfold toUpperCase. rewrite Hl.
  assert (E : (u <? 128)%N = true) by lia. rewrite E. reflexivity.
Qed.



End ProcessMore.



(** X2.  The post-processing yields the empty text exactly for the inputs
    that consist of whitespace only (the empty input among them, and
    whitespace outside ASCII such as U+3000 included); any other input
    yields a text that starts with the upper-case form of its first
    character that is not whitespace. *)
Theorem processTranscript_empty (upper : N -> Text.utf16) (s : Text.utf16) :
  Text.case_mapping upper ->
  (Text.processTranscript upper s = [] <-> Text.all_space s = true) /\
  (forall c r, Text.trimStart s = c :: r ->
     exists r', Text.processTranscript upper s
                = Text.toUpperCase upper c ++ r' /\
                Text.toUpperCase upper c <> []).
Proof.
  intros Hu. pose proof (process_starts upper Hu s) as Hs. split.
  - rewrite <- trimStart_empty.
    destruct (Text.trimStart s) as [|c r] eqn:E; [tauto|].
    destruct Hs as (r' & Hr). split; [|discriminate].
    intros H. exfalso. rewrite H in Hr.
    destruct (trim_cons s c r E) as (Hc & _).
    destruct (solid_upper upper c Hu Hc) as [Hn _].
    destruct (Text.toUpperCase upper c); [congruence | discriminate].
  - intros c r E. rewrite E in Hs. destruct Hs as (r' & Hr).
    exists r'. split; [exact Hr|].
    destruct (trim_cons s c r E) as (Hc & _).
    apply (solid_upper upper c Hu Hc).
Qed.

Lemma processTranscript_empty_witness :
  Text.case_mapping Text.latin1_mapping /\
  let upper := Text.latin1_mapping in
  let s := [12288; 9; 160]%N in
  (Text.processTranscript upper s = [] <-> Text.all_space s = true) /\
  (forall c r, Text.trimStart s = c :: r ->
     exists r', Text.processTranscript upper s
                = Text.toUpperCase upper c ++ r' /\
                Text.toUpperCase upper c <> []).
Proof.
  split; [exact latin1_mapping_case|].
  exact (processTranscript_empty Text.latin1_mapping [12288; 9; 160]%N
           latin1_mapping_case).
Defined.

(** ** The reconciler: texts and times of the entries *)

Section CaptionsMore.
Import Captions.
Variable clock : nat -> Z.

Lemma texts_of_results rs :
  let t := transcript (fold_left (reconcile clock) rs initial) in
  List.map text (finals t)
    = List.map res_transcript (List.filter res_isFinal rs) /\
  List.map text t
    = List.map res_transcript (List.filter res_isFinal rs)
        ++ latest_interim rs.
Proof.
  destruct rs as [|r rs IH] using rev_ind; [split; reflexivity|].
  cbv zeta in *. rewrite fold_reconcile_snoc.
  destruct (reconcile_transcript clock
              (fold_left (reconcile clock) rs initial) r)
    as (e & He & Hx & ->).
  destruct IH as [IH _].
  rewrite finals_snoc, finals_idem, List.filter_app, !List.map_app, IH.
  unfold latest_interim. rewrite last_snoc, He. simpl.
  destruct (res_isFinal r); simpl; rewrite ?Hx, ?app_nil_r; auto.
Qed.

(** X4.  After any sequence of recognition events, the texts on display
    are the texts of the results that arrived final, in the order of
    arrival, followed by the text of the most recent result when that
    result is interim: every earlier interim text is gone, and no final
    text is lost or reordered. *)
Theorem transcript_texts (evs : list SpeechRecognitionEvent) :
  List.map text (transcript (run clock initial evs))
  = List.map res_transcript (List.filter res_isFinal (received evs))
      ++ latest_interim (received evs).
Proof. rewrite run_received. apply texts_of_results. Qed.

Lemma Forall_finals (P : Entry -> Prop) t : Forall P t -> Forall P (finals t).
Proof.
  unfold finals. rewrite !Forall_forall. intros H e He.
  apply H. apply list_elem_of_In. apply list_elem_of_In in He.
  apply List.filter_In in He. tauto.
Qed.

Lemma reconcile_timed h r :
  monotone clock -> timed clock h -> timed clock (reconcile clock h r).
Proof.
  intros Hm [Hb Ht].
  assert (Hf := Forall_finals _ _ Ht). unfold finals in Hf.
  unfold timed, reconcile, updater, beginOrNow, newDate. simpl.
  destruct (beginTimeRef h) as [t|] eqn:Eb; simpl.
  - destruct (Hb t eq_refl) as (k & Hk & ->).
    destruct (res_isFinal r); simpl; split.
    + intros t [= <-]. exists (S (S (ticks h))). split; [lia | reflexivity].
    + apply Forall_app. split; [exact Hf|]. constructor; [|constructor].
      simpl. split; apply Hm; lia.
    + intros t [= <-]. exists k. split; [lia | reflexivity].
    + apply Forall_app. split; [exact Hf|]. constructor; [|constructor].
      simpl. split; apply Hm; lia.
  - destruct (res_isFinal r); simpl; split.
    + intros t [= <-]. exists (S (S (S (ticks h)))). split; [lia | reflexivity].
    + apply Forall_app. split; [exact Hf|]. constructor; [|constructor].
      simpl. split; apply Hm; lia.
    + discriminate.
    + apply Forall_app. split; [exact Hf|]. constructor; [|constructor].
      simpl. split; apply Hm; lia.
Qed.

Lemma act_timed h a : monotone clock -> timed clock h -> timed clock (act clock h a).
Proof.
  intros Hm Ht. destruct a as [|ev| |]; simpl.
  - destruct Ht as [Hb Ht]. split; simpl; [|exact Ht].
    intros t [= <-]. exists (ticks h). split; [lia | reflexivity].
  - unfold onresult. generalize (drop (resultIndex ev) (results ev)).
    intros l. revert h Ht. induction l as [|r l IH]; intros h Ht; simpl; auto.
    apply IH, reconcile_timed; assumption.
  - destruct Ht as [Hb Ht]. split; simpl; [|constructor].
    intros t E. destruct (Hb t E) as (k & Hk & ->). exists k. split; [lia|auto].
  - destruct Ht as [Hb Ht]. split; simpl; [|constructor]. exact Hb.
Qed.

Lemma play_timed (acts : list Action) :
  monotone clock -> timed clock (play clock initial acts).
Proof.
  intros Hm.
  assert (H : timed clock initial) by (split; [discriminate | constructor]).
  unfold play. revert H. generalize initial.
  induction acts as [|a acts IH]; intros h Ht; simpl; [apply Ht|].
  apply IH, act_timed; assumption.
Qed.

(** X5.  When the wall clock never runs backwards, every entry the hook
    holds, after any sequence of start events, result events, new sessions
    and clearings, ends no earlier than it starts and no earlier than its
    timestamp. *)
Theorem entries_end_after_start (acts : list Action) :
  monotone clock ->
  Forall (fun e => (startTime e <= endTime e)%Z /\
                   (timestamp e <= endTime e)%Z)
         (transcript (play clock initial acts)).
Proof. intros Hm. apply play_timed, Hm. Qed.

(** X30.  The SRT export of a transcript the hook has produced is ordered
    cue by cue: when the wall clock never runs backwards and the entries
    lie within 100 hours after the session start, every cue's end timecode
    is at least its start timecode (which the formatter alone does not
    guarantee). *)
Theorem reconciled_cues_ordered (acts : list Action) (start now : Z) :
  monotone clock ->
  Forall (fun e => (start <= startTime e)%Z /\
                   (endTime e < start + 360000000)%Z)
         (transcript (play clock initial acts)) ->
  Formatters.cues_end_after_start
    (transcript (play clock initial acts)) (Some start) now.
Proof.
  intros Hm Hw. destruct (play_timed acts Hm) as [_ Ht].
  unfold Formatters.cues_end_after_start. cbn [Formatters.zeroPoint].
  rewrite Forall_forall in Hw, Ht |- *. intros e He.
  apply list_elem_of_In, List.filter_In in He as [He _].
  apply list_elem_of_In in He.
  destruct (Hw e He) as [H1 H2]. destruct (Ht e He) as [H3 _].
  unfold Formatters.formatTimecodeSRT.
  apply timecode_ordered; [lia | lia | reflexivity].
Qed.

(** X6.  From a state in which the utterance clock is set (by the start
    event or by the previous final result), a run of interim results
    followed by one more result, interim or final, leaves as last entry
    the entry of that result, starting at the utterance clock: the growing
    interim texts of one utterance and its final text share one start
    time. *)
Theorem utterance_start_stable
    (h : Hook) (t : Z) (rs : list SpeechRecognitionResult)
    (r : SpeechRecognitionResult) :
  beginTimeRef h = Some t ->
  forallb (fun x => negb (res_isFinal x)) rs = true ->
  exists e,
    last (transcript (fold_left (reconcile clock) (rs ++ [r]) h)) = Some e /\
    startTime e = t /\ text e = res_transcript r /\
    isFinal e = res_isFinal r.
Proof.
  intros Hb Hrs.
  assert (Hk : beginTimeRef (fold_left (reconcile clock) rs h) = Some t).
  { revert h Hb. induction rs as [|x rs IH]; intros h Hb; simpl; [exact Hb|].
    simpl in Hrs. apply andb_prop in Hrs as [Hx Hrs].
    apply IH; [exact Hrs|].
    unfold reconcile, updater, beginOrNow, newDate. simpl. rewrite Hb. simpl.
    apply negb_true_iff in Hx. rewrite Hx. reflexivity. }
  rewrite fold_reconcile_snoc.
  set (h' := fold_left (reconcile clock) rs h) in *.
  unfold reconcile, updater, beginOrNow, newDate. simpl. rewrite Hk. simpl.
  destruct (res_isFinal r) eqn:E; simpl; rewrite last_snoc;
    eexists; repeat split; simpl; auto.
Qed.

End CaptionsMore.

Lemma entries_end_after_start_witness :
  Captions.monotone Z.of_nat /\
  Forall (fun e => (startTime e <= endTime e)%Z /\
                   (timestamp e <= endTime e)%Z)
    (Captions.transcript
       (Captions.play Z.of_nat Captions.initial
          [Captions.Started;
           Captions.Results
             {| Captions.resultIndex := 0;
                Captions.results := [Captions.mkResult "hello" None true] |}])).
Proof.
  assert (H : Captions.monotone Z.of_nat) by (intros i j Hij; lia).
  split; [exact H|].
  apply (entries_end_after_start Z.of_nat); exact H.
Defined.

Lemma utterance_start_stable_witness :
  exists e,
    last (Captions.transcript
            (fold_left (Captions.reconcile (fun _ => 7%Z))
               ([Captions.mkResult "hel" None false]
                  ++ [Captions.mkResult "hello" None true])
               (Captions.onstart (fun _ => 7%Z) Captions.initial)))
      = Some e /\
    startTime e = 7%Z /\ text e = "hello" /\ isFinal e = true.
Proof.
  apply (utterance_start_stable (fun _ => 7%Z)
           (Captions.onstart (fun _ => 7%Z) Captions.initial) 7
           [Captions.mkResult "hel" None false]
           (Captions.mkResult "hello" None true));
    reflexivity.
Defined.

Lemma reconciled_cues_ordered_witness :
  let acts :=
    [Captions.Started;
     Captions.Results
       {| Captions.resultIndex := 0;
          Captions.results := [Captions.mkResult "hello" None true] |}] in
  Captions.monotone Z.of_nat /\
  Formatters.cues_end_after_start
    (Captions.transcript (Captions.play Z.of_nat Captions.initial acts))
    (Some 0%Z) 0.
Proof.
  cbv zeta.
  assert (H : Captions.monotone Z.of_nat) by (intros i j Hij; lia).
  split; [exact H|].
  apply (reconciled_cues_ordered Z.of_nat); [exact H|].
  cbn. repeat constructor; cbn; lia.
Defined.

(** ** The formatters: what an export depends on *)

Section FormatterMore.
Import Formatters.
Variable toLocaleTimeString : Z -> string.

Lemma filter_final_idem (t : list Entry) :
  List.filter isFinal (List.filter isFinal t) = List.filter isFinal t.
Proof.
  induction t as [|e t IH]; simpl; [reflexivity|].
  destruct (isFinal e) eqn:E; simpl; rewrite ?E, IH; reflexivity.
Qed.

(** X7.  With the session start given, as the hook passes it, an export
    depends on the final entries only: the interim entry on display
    changes nothing in any of the three formats.  (Without a session
    start the zero point of the timecodes is the start of the first entry
    of the transcript, final or not.) *)
Theorem export_ignores_interims
    (t : list Entry) (format : Format) (start now : Z) :
  formatTranscript toLocaleTimeString t format (Some start) now
  = formatTranscript toLocaleTimeString (List.filter isFinal t) format
      (Some start) now /\
  formatTranscript toLocaleTimeString t FormatText None now
  = formatTranscript toLocaleTimeString (List.filter isFinal t) FormatText
      None now.
Proof.
  split; [destruct format|]; cbn [formatTranscript];
    unfold formatAsText, formatAsSRT, formatAsWebVTT, zeroPoint;
    rewrite filter_final_idem; reflexivity.
Qed.

(** X8.  A transcript without a final entry exports to the empty text, to
    the empty SRT file, and to a WebVTT file that holds its header only. *)
Theorem export_without_finals
    (t : list Entry) (sessionStartTime : option Z) (now : Z) :
  List.filter isFinal t = [] ->
  formatTranscript toLocaleTimeString t FormatText sessionStartTime now
    = EmptyString /\
  formatTranscript toLocaleTimeString t FormatSRT sessionStartTime now
    = EmptyString /\
  formatTranscript toLocaleTimeString t FormatWebVTT sessionStartTime now
    = ("WEBVTT" ++ LF ++ LF)%string.
Proof.
  intros H. cbn [formatTranscript].
  unfold formatAsText, formatAsSRT, formatAsWebVTT. rewrite H.
  repeat split.
Qed.

End FormatterMore.

Section TimecodeMore.
Import Formatters.

Lemma toString_negative (n : Z) :
  (n < 0)%Z ->
  exists u, toString n = String "-" u /\ (1 <= String.length u)%nat.
Proof.
  intros H. destruct n as [|p|p]; try lia.
  unfold toString. simpl. eexists. split; [reflexivity|].
  destruct (Pos.to_uint p); simpl; lia.
Qed.

Lemma timecode_negative (ms : Z) (sep : string) :
  (ms < 0)%Z ->
  exists rest, formatMillisecondsToTimecode ms sep = String "-" rest.
Proof.
  intros H. unfold formatMillisecondsToTimecode. cbv zeta.
  destruct (toString_negative (ms / 1000 / 60 / 60)) as (u & -> & Hu).
  { Z.to_euclidean_division_equations; lia. }
  unfold padStart. simpl String.length.
  replace (2 - S (String.length u))%nat with 0%nat by lia.
  simpl. eauto.
Qed.

(** X9.  An entry time before the zero point of the export is not
    clamped: its timecode, in SRT and in WebVTT, starts with a minus
    sign. *)
Theorem timecode_before_zero_point (time start : Z) :
  (time < start)%Z ->
  (exists rest, formatTimecodeSRT time start = String "-" rest) /\
  (exists rest, formatTimecodeVTT time start = String "-" rest).
Proof.
  intros H. unfold formatTimecodeSRT, formatTimecodeVTT.
  split; apply timecode_negative; lia.
Qed.

End TimecodeMore.

Lemma export_without_finals_witness :
  let e : Entry :=
    {| text := "hel"; timestamp := 0%Z; startTime := 0%Z; endTime := 1%Z;
       confidence := None; isFinal := false; speaker := None |} in
  List.filter isFinal [e] = [] /\
  Formatters.formatTranscript (fun _ => "noon") [e] Formatters.FormatSRT
    None 0 = EmptyString.
Proof.
  cbv zeta. split; [reflexivity|].
  refine (proj1 (proj2 (export_without_finals (fun _ => "noon") _ None 0 _))).
  reflexivity.
Defined.

Lemma timecode_before_zero_point_witness :
  (1000 < 2500)%Z /\
  exists rest, Formatters.formatTimecodeSRT 1000 2500 = String "-" rest.
Proof.
  split; [lia|]. apply (timecode_before_zero_point 1000 2500). lia.
Defined.

(** ** The recognizer adapter: errors, timers and [setLanguage] *)

Section RecognizerMore.
Import Recognizer.

Lemma clearRestartTimer_cleared s :
  restartTimer (clearRestartTimer s) = None.
Proof.
  unfold clearRestartTimer. destruct (restartTimer s) eqn:E.
  - reflexivity.
  - exact E.
Qed.

Lemma calls_cleared s :
  restartTimer (start s) = None /\ restartTimer (stop s) = None /\
  restartTimer (abort s) = None.
Proof.
  unfold start, stop, abort, request. cbn [restartTimer].
  rewrite !clearRestartTimer_cleared. auto.
Qed.

Lemma onend_plain s :
  onend s = notify (NoticeStatus "stopped")
              (notify NoticeEnd (setListening false s)).
Proof. unfold onend. simpl. rewrite andb_false_r. reflexivity. Qed.

Lemma step_restartTimer s e :
  restartTimer s = None -> restartTimer (step s e) = None.
Proof.
  intros H. destruct e; simpl; rewrite ?onend_plain;
    try apply calls_cleared; simpl; exact H.
Qed.

Lemma onerror_fields error s :
  restartTimer (fst (onerror error s)) = restartTimer s /\
  autoRestart (fst (onerror error s)) = autoRestart s /\
  requests (fst (onerror error s)) = requests s /\
  isListening (fst (onerror error s)) = isListening s /\
  (autoRestart s = false -> timers (fst (onerror error s)) = timers s).
Proof.
  unfold onerror.
  repeat match goal with
         | |- context [String.eqb error ?x] => destruct (String.eqb error x)
         end; simpl; destruct (autoRestart s) eqn:A; simpl; rewrite ?A;
    repeat split; auto; try discriminate.
Qed.

Lemma fire_restartTimer id s :
  restartTimer s = None -> restartTimer (fire id s) = None.
Proof.
  intros H. unfold fire. destruct (pending id s) as [t|]; [|exact H].
  destruct (timer_action t). apply calls_cleared.
Qed.

Lemma clearRestartTimer_fields s :
  requests (clearRestartTimer s) = requests s /\
  next_timer (clearRestartTimer s) = next_timer s.
Proof. unfold clearRestartTimer. destruct (restartTimer s); auto. Qed.

Lemma step_next_timer s e : next_timer (step s e) = next_timer s.
Proof.
  destruct e; simpl; rewrite ?onend_plain; unfold start, stop, abort, request;
    cbn [next_timer]; rewrite ?(proj2 (clearRestartTimer_fields _));
    reflexivity.
Qed.

Lemma onerror_next_timer error s :
  (next_timer s <= next_timer (fst (onerror error s)))%nat.
Proof.
  unfold onerror.
  repeat match goal with
         | |- context [String.eqb error ?x] => destruct (String.eqb error x)
         end; simpl; destruct (autoRestart s); simpl; lia.
Qed.

Lemma fire_next_timer id s : next_timer (fire id s) = next_timer s.
Proof.
  unfold fire. destruct (pending id s) as [t|]; [|reflexivity].
  destruct (timer_action t). unfold start, request. cbn [next_timer].
  rewrite (proj2 (clearRestartTimer_fields _)). reflexivity.
Qed.

Lemma handle_settled m e : settled m -> settled (handle m e).
Proof.
  unfold settled. intros [H B]. destruct e as [e|error|id|language]; simpl.
  - rewrite step_next_timer. split; [apply step_restartTimer, H | exact B].
  - destruct (onerror error (service m)) as [s msgs] eqn:E. simpl.
    pose proof (onerror_fields error (service m)) as (Hr & _).
    pose proof (onerror_next_timer error (service m)) as Hn.
    rewrite E in Hr, Hn. simpl in Hr, Hn. split; [congruence|].
    eapply Forall_impl; [exact B|]. simpl. intros i Hi. lia.
  - destruct (existsb (Nat.eqb id) (relaunch m)); simpl.
    + split; [apply calls_cleared|].
      unfold start, request. cbn [next_timer].
      rewrite (proj2 (clearRestartTimer_fields _)). simpl.
      rewrite Forall_forall in B |- *. intros i Hi. apply B.
      apply list_elem_of_In. apply list_elem_of_In in Hi.
      apply List.filter_In in Hi. tauto.
    + rewrite fire_next_timer. split; [apply fire_restartTimer, H | exact B].
  - unfold setLanguage.
    destruct (isListening (service m)); simpl; [|auto].
    split; [apply clearRestartTimer_cleared|].
    rewrite (proj2 (clearRestartTimer_fields _)). simpl.
    apply Forall_app. split.
    + eapply Forall_impl; [exact B|]. simpl. intros i Hi. lia.
    + constructor; [lia | constructor].
Qed.

Lemma handles_settled m es : settled m -> settled (handles m es).
Proof.
  unfold handles. revert m. induction es as [|e es IH]; intros m H; simpl;
    [exact H|]. apply IH, handle_settled, H.
Qed.

Lemma launched_settled language : settled (launched language).
Proof. split; [reflexivity | constructor]. Qed.

(** X10.  Whatever events and calls a service has seen since it was
    constructed (starts, ends, errors, timers that fire, calls of [start],
    [stop], [abort], [setAutoRestart] and [setLanguage]), it holds no
    restart handle: the only assignment to [restartTimer] sits behind the
    guard of [onend], which is never true, and the timers of [onerror] and
    [setLanguage] are not kept.  So the clearing in [start], [stop] and
    [abort] never cancels anything: every pending timer stays pending. *)
Theorem restart_handle_never_set (language : string) (es : list Event) :
  let s := service (handles (launched language) es) in
  restartTimer s = None /\
  timers (start s) = timers s /\
  timers (stop s) = timers s /\
  timers (abort s) = timers s.
Proof.
  cbv zeta.
  destruct (handles_settled _ es (launched_settled language)) as [H _].
  split; [exact H|].
  unfold start, stop, abort, clearRestartTimer. simpl. rewrite H. auto.
Qed.

Lemma pending_app_new id ts t :
  timer_id t = id ->
  exists t', List.find (fun t => (timer_id t =? id)%nat) (ts ++ [t]) = Some t'.
Proof.
  intros E. induction ts as [|x ts IH]; simpl.
  - rewrite E, Nat.eqb_refl. eauto.
  - destruct (timer_id x =? id)%nat; eauto.
Qed.

Lemma existsb_fresh id l :
  Forall (fun i => (i < id)%nat) l -> existsb (Nat.eqb id) l = false.
Proof.
  induction 1 as [|i l Hi _ IH]; simpl; [reflexivity|].
  rewrite IH, orb_false_r. apply Nat.eqb_neq. lia.
Qed.

(** X11.  A restart that [onerror] schedules after a "no-speech" or a
    "network" error survives a later [stop()]: the timer is still pending
    after the stop, and when it fires the recognizer is started again,
    after the stop request and with auto-restart switched off. *)
Theorem stop_keeps_error_restart
    (language : string) (es : list Event) (error : string) :
  let m := handles (launched language) es in
  let id := next_timer (service m) in
  autoRestart (service m) = true ->
  error = "no-speech" \/ error = "network" ->
  let stopped := handles m [HostError error; Plain CallerStop] in
  let fired := handle stopped (TimerFires id) in
  pending id (service stopped) <> None /\
  autoRestart (service stopped) = false /\
  requests (service fired) = requests (service m) ++ [ReqStop; ReqStart] /\
  autoRestart (service fired) = false.
Proof.
  cbv zeta. intros Ha He.
  destruct (handles_settled _ es (launched_settled language)) as [H B].
  set (m := handles (launched language) es) in *.
  assert (E : exists delay,
             fst (onerror error (service m))
             = scheduleDetached delay
                 (notify (NoticeStatus "error") (service m))).
  { unfold onerror. destruct He as [-> | ->]; simpl; rewrite Ha; eauto. }
  destruct E as (delay & E).
  unfold handles. cbn [fold_left handle].
  destruct (onerror error (service m)) as [s1 msgs] eqn:E1. simpl in E.
  subst s1. cbn [onService service step relaunch].
  rewrite (existsb_fresh _ _ B). cbn [onService service].
  unfold stop at 1 2 3 4. unfold clearRestartTimer. cbn. rewrite H. cbn.
  destruct (pending_app_new (next_timer (service m)) (timers (service m))
              (mkTimer (next_timer (service m)) delay CallStart) eq_refl)
    as (t' & Ht').
  unfold fire, pending. cbn. rewrite Ht'.
  destruct (timer_action t'). unfold start, clearRestartTimer. cbn.
  rewrite H. cbn. rewrite <- app_assoc.
  repeat split. discriminate.
Qed.

Lemma incl_filter_timers (f : Timer -> bool) ts ts0 :
  incl ts ts0 -> incl (List.filter f ts) ts0.
Proof. intros H t Ht. apply H. apply List.filter_In in Ht. tauto. Qed.

Lemma clearRestartTimer_auto s :
  autoRestart (clearRestartTimer s) = autoRestart s.
Proof. unfold clearRestartTimer. destruct (restartTimer s); reflexivity. Qed.

Lemma clearRestartTimer_incl s ts :
  incl (timers s) ts -> incl (timers (clearRestartTimer s)) ts.
Proof.
  intros H. unfold clearRestartTimer. destruct (restartTimer s); simpl;
    auto using incl_filter_timers.
Qed.

Lemma step_quiet s0 s e :
  enables (Plain e) = false ->
  autoRestart s = false -> incl (timers s) (timers s0) ->
  autoRestart (step s e) = false /\ incl (timers (step s e)) (timers s0).
Proof.
  intros He Ha Hi.
  destruct e as [now| | | | |[]]; try discriminate; simpl;
    rewrite ?onend_plain; unfold start, stop, abort, request;
    cbn [autoRestart timers notify onstart setStartTime setListening
         setAutoRestart];
    rewrite ?clearRestartTimer_auto; split; auto;
    apply clearRestartTimer_incl; exact Hi.
Qed.

Lemma fire_quiet s0 s id :
  autoRestart s = false -> incl (timers s) (timers s0) ->
  autoRestart (fire id s) = false /\ incl (timers (fire id s)) (timers s0).
Proof.
  intros Ha Hi. unfold fire. destruct (pending id s) as [t|]; [|auto].
  destruct (timer_action t). unfold start, request.
  cbn [autoRestart timers]. rewrite clearRestartTimer_auto. split; [exact Ha|].
  apply clearRestartTimer_incl. simpl. apply incl_filter_timers, Hi.
Qed.

Lemma handle_quiet s0 m e :
  enables e = false -> quiet s0 m -> quiet s0 (handle m e).
Proof.
  intros He (Ha & Hr & Hi). unfold quiet.
  destruct e as [e|error|id|language]; simpl in He; try discriminate.
  - destruct (step_quiet s0 (service m) e He Ha Hi). simpl. auto.
  - simpl. destruct (onerror error (service m)) as [s msgs] eqn:E. simpl.
    pose proof (onerror_fields error (service m)) as (_ & H1 & _ & _ & H2).
    rewrite E in H1, H2. simpl in H1, H2.
    rewrite H1, (H2 Ha). auto.
  - simpl. rewrite Hr. simpl.
    destruct (fire_quiet s0 (service m) id Ha Hi). auto.
Qed.

Lemma handles_quiet s0 m es :
  forallb (fun e => negb (enables e)) es = true ->
  quiet s0 m -> quiet s0 (handles m es).
Proof.
  unfold handles. revert m.
  induction es as [|e es IH]; intros m Hes H; simpl; [exact H|].
  simpl in Hes. apply andb_prop in Hes as [He Hes].
  apply IH; [exact Hes|]. apply handle_quiet; [|exact H].
  apply negb_true_iff, He.
Qed.

(** X12.  Once auto-restart is off (as [stop] and [abort] leave it) and no
    timer of [setLanguage] is pending, it stays off and no new timer is
    scheduled, whatever starts, ends, errors, firing timers and calls of
    [start], [stop] and [abort] follow: only [setAutoRestart(true)] and
    [setLanguage] switch it on again. *)
Theorem auto_restart_stays_off (m : Machine) (es : list Event) :
  autoRestart (service m) = false ->
  relaunch m = [] ->
  forallb (fun e => negb (enables e)) es = true ->
  autoRestart (service (handles m es)) = false /\
  incl (timers (service (handles m es))) (timers (service m)).
Proof.
  intros Ha Hr Hes.
  assert (H : quiet (service m) m) by (split; [|split]; auto using incl_refl).
  destruct (handles_quiet (service m) m es Hes H) as (G1 & _ & G2). auto.
Qed.

Lemma start_fields s :
  autoRestart (start s) = autoRestart s /\
  requests (start s) = requests s ++ [ReqStart].
Proof.
  unfold start, request. cbn [autoRestart requests].
  rewrite clearRestartTimer_auto, (proj1 (clearRestartTimer_fields s)). auto.
Qed.

Lemma stop_fields s :
  autoRestart (stop s) = false /\
  requests (stop s) = requests s ++ [ReqStop] /\
  next_timer (stop s) = next_timer s.
Proof.
  unfold stop, request. cbn [autoRestart requests next_timer].
  rewrite clearRestartTimer_auto.
  destruct (clearRestartTimer_fields (setAutoRestart false s)) as [-> ->].
  auto.
Qed.

(** X13.  [setLanguage] on a listening service stops the recognizer
    (which switches auto-restart off) and, when its timer fires, switches
    auto-restart on and starts the recognizer again, whatever the
    auto-restart setting was before the call: a caller who had disabled
    auto-restart finds it enabled after a change of language. *)
Theorem setLanguage_restarts (m : Machine) (language : string) :
  isListening (service m) = true ->
  let m' := handles m [CallerSetLanguage language;
                       TimerFires (next_timer (service m))] in
  lang m' = language /\
  autoRestart (service (handle m (CallerSetLanguage language))) = false /\
  autoRestart (service m') = true /\
  requests (service m') = requests (service m) ++ [ReqStop; ReqStart].
Proof.
  intros H; cbn; unfold setLanguage; rewrite H.
  rewrite (proj2 (proj2 (stop_fields (service m)))).
  cbn [relaunch service lang].
  rewrite existsb_app. cbn [existsb]. rewrite Nat.eqb_refl, orb_true_r.
  cbn [lang service]. repeat split.
  - apply stop_fields.
  - rewrite (proj1 (start_fields _)). reflexivity.
  - rewrite (proj2 (start_fields _)). cbn [requests setAutoRestart reserveTimer].
    rewrite (proj1 (proj2 (stop_fields _))), <- app_assoc. reflexivity.
Qed.

End RecognizerMore.

Lemma stop_keeps_error_restart_witness :
  let m := Recognizer.launched "en" in
  let stopped :=
    Recognizer.handles m
      [Recognizer.HostError "no-speech";
       Recognizer.Plain Recognizer.CallerStop] in
  Recognizer.autoRestart (Recognizer.service m) = true /\
  Recognizer.requests
    (Recognizer.service (Recognizer.handle stopped (Recognizer.TimerFires 0)))
  = [Recognizer.ReqStop; Recognizer.ReqStart].
Proof.
  cbv zeta. split; [reflexivity|].
  refine (proj1 (proj2 (proj2
            (stop_keeps_error_restart "en" [] "no-speech" _ _))));
    [reflexivity | left; reflexivity].
Defined.

Lemma auto_restart_stays_off_witness :
  let m := Recognizer.handles (Recognizer.launched "en")
             [Recognizer.Plain Recognizer.CallerStart;
              Recognizer.Plain (Recognizer.HostStart 0);
              Recognizer.Plain Recognizer.CallerStop] in
  let es := [Recognizer.HostError "no-speech";
             Recognizer.Plain Recognizer.HostEnd;
             Recognizer.Plain Recognizer.CallerStart] in
  Recognizer.autoRestart (Recognizer.service m) = false /\
  Recognizer.autoRestart (Recognizer.service (Recognizer.handles m es))
  = false.
Proof.
  cbv zeta. split; [reflexivity|].
  refine (proj1 (auto_restart_stays_off _ _ _ _ _)); reflexivity.
Defined.

Lemma setLanguage_restarts_witness :
  let m := Recognizer.handles (Recognizer.launched "en")
             [Recognizer.Plain Recognizer.CallerStart;
              Recognizer.Plain (Recognizer.HostStart 0);
              Recognizer.Plain (Recognizer.CallerSetAutoRestart false)] in
  Recognizer.isListening (Recognizer.service m) = true /\
  Recognizer.autoRestart (Recognizer.service m) = false /\
  Recognizer.autoRestart
    (Recognizer.service
       (Recognizer.handles m
          [Recognizer.CallerSetLanguage "fr"; Recognizer.TimerFires 0]))
  = true.
Proof.
  cbv zeta. split; [reflexivity|]. split; [reflexivity|].
  refine (proj1 (proj2 (proj2 (setLanguage_restarts _ "fr" _))));
    reflexivity.
Defined.

(** ** The store: lookups, merges and sizes *)

Section StorageMore.
Import JS Storage.

Lemma find_by_id_toJS (k : string) (ss : list StoredSession) :
  find_by_id (List.map toJS ss) k = option_map toJS (lookup_session k ss).
Proof.
  induction ss as [|s ss IH]; [reflexivity|].
  cbn [List.map find_by_id lookup_session]. cbn [toJS get lookup_prop].
  cbn. destruct (String.eqb (Session.id s) k); [reflexivity | exact IH].
Qed.

Lemma getSession_holds env ss k :
  holds env ss ->
  getSession k env = match lookup_session k ss with
                     | Some s => toJS s
                     | None => Null
                     end.
Proof.
  intros H. unfold getSession. rewrite (getAllSessions_holds env ss H).
  rewrite find_by_id_toJS. destruct (lookup_session k ss); reflexivity.
Qed.

Lemma lookup_session_none k ss :
  ~ In k (ids ss) -> lookup_session k ss = None.
Proof.
  induction ss as [|s ss IH]; [reflexivity|]. simpl. intros H.
  destruct (String.eqb_spec (Session.id s) k) as [E|E]; [tauto|].
  apply IH. tauto.
Qed.

Lemma lookup_session_upsert k s ss :
  lookup_session k (upsert s ss)
  = if String.eqb (Session.id s) k then Some s else lookup_session k ss.
Proof.
  induction ss as [|x ss IH]; simpl.
  - reflexivity.
  - destruct (String.eqb_spec (Session.id x) (Session.id s)) as [E|E]; simpl.
    + rewrite E. destruct (String.eqb (Session.id s) k); reflexivity.
    + rewrite IH. destruct (String.eqb_spec (Session.id x) k) as [F|F];
        [|reflexivity].
      destruct (String.eqb_spec (Session.id s) k); [congruence|reflexivity].
Qed.

Lemma lookup_session_without k k' ss :
  lookup_session k (without k' ss)
  = if String.eqb k' k then None else lookup_session k ss.
Proof.
  induction ss as [|x ss IH]; simpl.
  - destruct (String.eqb k' k); reflexivity.
  - destruct (String.eqb_spec (Session.id x) k') as [E|E]; simpl.
    + rewrite IH. subst k'. destruct (String.eqb (Session.id x) k); reflexivity.
    + rewrite IH. destruct (String.eqb_spec (Session.id x) k) as [F|F];
        [|reflexivity].
      destruct (String.eqb_spec k' k); [congruence|reflexivity].
Qed.

(** X14.  On a store the application has written, a session that was
    saved is what [getSession] returns for its identifier, and the answer
    for every other identifier is what it was before the save. *)
Theorem getSession_after_save (env : Env) (s : StoredSession) :
  reachable env -> ok_session s = true ->
  getSession (Session.id s) (saveSession (toJS s) env) = toJS s /\
  forall k, k <> Session.id s ->
    getSession k (saveSession (toJS s) env) = getSession k env.
Proof.
  intros Hr Hs. destruct (reachable_holds env Hr) as (ss & H).
  pose proof (saveSession_holds env ss s (toJS s) H Hs
                (session_same_text s) eq_refl) as H'.
  split.
  - rewrite (getSession_holds _ _ _ H'), lookup_session_upsert, String.eqb_refl.
    reflexivity.
  - intros k Hk.
    rewrite (getSession_holds _ _ _ H'), (getSession_holds _ _ _ H).
    rewrite lookup_session_upsert.
    destruct (String.eqb_spec (Session.id s) k); [congruence|reflexivity].
Qed.

(** X15.  On a store the application has written, a deleted identifier is
    no longer found, its own item is gone, and the answer for every other
    identifier is what it was before. *)
Theorem getSession_after_delete (env : Env) (sessionId : string) :
  reachable env ->
  getSession sessionId (deleteSession sessionId env) = Null /\
  getItem (SESSION_PREFIX ++ sessionId)%string (deleteSession sessionId env)
    = None /\
  forall k, k <> sessionId ->
    getSession k (deleteSession sessionId env) = getSession k env.
Proof.
  intros Hr. destruct (reachable_holds env Hr) as (ss & H).
  pose proof (deleteSession_holds env ss sessionId H) as H'.
  split; [|split].
  - rewrite (getSession_holds _ _ _ H'), lookup_session_without,
      String.eqb_refl. reflexivity.
  - unfold deleteSession. rewrite (holds_window _ _ H). cbn [negb].
    unfold getItem, removeItem. cbn. apply lookup_delete_eq.
  - intros k Hk.
    rewrite (getSession_holds _ _ _ H'), (getSession_holds _ _ _ H).
    rewrite lookup_session_without.
    destruct (String.eqb_spec sessionId k); [congruence|reflexivity].
Qed.

Lemma map_id_toJS (ss : list StoredSession) :
  List.map (fun v => get v "id") (List.map toJS ss)
  = List.map (fun s => Some (Str (Session.id s))) ss.
Proof. rewrite List.map_map. reflexivity. Qed.

(** X16.  On a store the application has written, the sessions that
    [getAllSessions] returns have pairwise different identifiers, and each
    of them is also held under its own key, with the same content: the
    list and the per-session items never disagree. *)
Theorem stored_sessions_consistent (env : Env) :
  reachable env ->
  NoDup (List.map (fun v => get v "id") (getAllSessions env)) /\
  Forall (fun v => exists k,
            get v "id" = Some (Str k) /\
            getItem (SESSION_PREFIX ++ k)%string env = Some (stringify v))
         (getAllSessions env).
Proof.
  intros Hr. destruct (reachable_holds env Hr) as (ss & H).
  rewrite (getAllSessions_holds env ss H). split.
  - rewrite map_id_toJS.
    pose proof (holds_nodup _ _ H) as Hn. unfold ids in Hn.
    assert (Hinj : Inj eq eq (fun k : string => Some (Str k)))
      by (intros a b E; congruence).
    apply (NoDup_fmap_2 (fun k => Some (Str k))) in Hn.
    rewrite <- list_fmap_compose in Hn. exact Hn.
  - apply Forall_forall. intros v Hv.
    apply list_elem_of_In, in_map_iff in Hv as (s & <- & Hin).
    exists (Session.id s). split; [reflexivity|].
    rewrite (holds_items _ _ H s Hin).
    destruct (session_same_text s) as [_ E]. unfold stringify.
    rewrite E. reflexivity.
Qed.

(** X17.  On a store the application has written, saving a session whose
    identifier is not stored appends it to the list, and saving one whose
    identifier is stored replaces that session where it stands: the list
    keeps its length and its order. *)
Theorem saveSession_upserts (env : Env) (s : StoredSession) :
  reachable env -> ok_session s = true ->
  let before := getAllSessions env in
  let after := getAllSessions (saveSession (toJS s) env) in
  match findIndex before (Str (Session.id s)) with
  | Some i => after = <[i := toJS s]> before /\ (i < length before)%nat
  | None => after = before ++ [toJS s]
  end.
Proof.
  intros Hr Hs. destruct (reachable_holds env Hr) as (ss & H).
  pose proof (saveSession_holds env ss s (toJS s) H Hs
                (session_same_text s) eq_refl) as H'.
  cbv zeta. rewrite (getAllSessions_holds _ _ H'), (getAllSessions_holds _ _ H).
  rewrite findIndex_toJS. clear.
  induction ss as [|x ss IH]; [reflexivity|].
  cbn [ids List.map index_of upsert].
  destruct (String.eqb (Session.id x) (Session.id s)); cbn [option_map].
  - split; [reflexivity | simpl; lia].
  - fold (ids ss). destruct (index_of (Session.id s) (ids ss)) as [i|];
      cbn [option_map List.map].
    + destruct IH as [IH Hi]. rewrite IH. split; [reflexivity | simpl; lia].
    + rewrite IH. reflexivity.
Qed.




Lemma lookup_session_merge k (ts ss : list StoredSession) :
  NoDup (ids ts) ->
  lookup_session k (fold_left (fun acc s => upsert s acc) ts ss)
  = match lookup_session k ts with
    | Some t => Some t
    | None => lookup_session k ss
    end.
Proof.
  revert ss. induction ts as [|t ts IH]; intros ss Hn; [reflexivity|].
  cbn [fold_left lookup_session ids List.map] in *.
  apply NoDup_cons in Hn as [Hni Hn].
  rewrite (IH _ Hn), lookup_session_upsert.
  destruct (String.eqb_spec (Session.id t) k) as [E|E]; [|reflexivity].
  rewrite lookup_session_none; [reflexivity|].
  subst k. intros Hin. apply Hni, list_elem_of_In, Hin.
Qed.

(** X19.  Importing the export of one store into another merges by
    identifier: afterwards [getSession] returns the imported session for
    every identifier of the source, and what the target held for every
    other identifier. *)
Theorem import_merges_by_id (env source : Env) (k : string) :
  reachable env -> reachable source ->
  let merged := fst (importSessions (exportSessions source) env) in
  getSession k merged
  = match getSession k source with
    | Null => getSession k env
    | session => session
    end.
Proof.
  intros Hr Hs. destruct (reachable_holds env Hr) as (ss & H).
  destruct (reachable_holds source Hs) as (ts & Ht).
  destruct (importSessions_holds env ss source ts H Ht) as [_ Hm].
  cbv zeta.
  rewrite (getSession_holds _ _ _ Hm), (getSession_holds _ _ _ Ht),
    (getSession_holds _ _ _ H).
  rewrite (lookup_session_merge k ts ss (holds_nodup _ _ Ht)).
  destruct (lookup_session k ts); reflexivity.
Qed.

Lemma size_fold (ss : list StoredSession) env (n : nat) :
  (forall s, In s ss ->
     getItem (SESSION_PREFIX ++ Session.id s)%string env
     = Some (stringify (session_json s))) ->
  forallb ok_session ss = true ->
  fold_left
    (fun size session =>
       match get session "id" with
       | Some sid =>
           match getItem (SESSION_PREFIX ++ to_string sid)%string env with
           | Some sessionData =>
               if String.eqb sessionData "" then size
               else (size + String.length sessionData)%nat
           | None => size
           end
       | None => size
       end) (List.map toJS ss) n
  = (n + list_sum (List.map (fun v => String.length (stringify v))
                            (List.map toJS ss)))%nat.
Proof.
  revert n. induction ss as [|s ss IH]; intros n Hi Hok.
  - simpl. lia.
  - cbn [forallb] in Hok. apply andb_prop in Hok as [Hs Hok].
    cbn [List.map fold_left]. cbn [toJS get lookup_prop]. cbn [String.eqb Ascii.eqb Bool.eqb].
    change (get (toJS s) "id") with (Some (Str (Session.id s))).
    cbn [to_string]. rewrite (Hi s (or_introl eq_refl)).
    rewrite (stringify_not_empty _ (session_json_plain s Hs)).
    rewrite IH by (auto; intros x Hx; apply Hi; right; exact Hx).
    cbn [list_sum fold_right].
    destruct (session_same_text s) as [_ E]. unfold stringify at 3.
    rewrite E. fold (stringify (session_json s)). unfold list_sum. lia.
Qed.

(** X20.  On a store the application has written, [getStorageSize] is the
    length of the text of the list plus the lengths of the texts of all
    listed sessions: every session is counted twice, once inside the list
    and once as its own item. *)
Theorem storage_size_counts_twice (env : Env) :
  reachable env ->
  let sessions := getAllSessions env in
  getStorageSize env
  = (String.length (stringify (Arr sessions))
     + list_sum (List.map (fun v => String.length (stringify v)) sessions))%nat.
Proof.
  intros Hr. destruct (reachable_holds env Hr) as (ss & H).
  cbv zeta. unfold getStorageSize.
  rewrite (holds_window _ _ H). cbn [negb].
  rewrite (getAllSessions_holds env ss H).
  apply size_fold; [apply (holds_items _ _ H) | apply (holds_ok _ _ H)].
Qed.

(** X21.  When the list cannot be read ([getAllSessions] returns the
    empty list: nothing stored, or a text that is not a list of
    sessions), saving a session leaves exactly that session: whatever the
    storage key held is overwritten. *)
Theorem save_on_unreadable_store (env : Env) (s : StoredSession) :
  window env = true -> getAllSessions env = [] -> ok_session s = true ->
  getAllSessions (saveSession (toJS s) env) = [toJS s] /\
  getItem STORAGE_KEY (saveSession (toJS s) env)
    = Some (stringify (Arr [toJS s])).
Proof.
  intros Hw Hl Hs.
  rewrite (saveSession_unfold (toJS s) (Session.id s) env [] Hw Hl eq_refl).
  cbn [findIndex app].
  assert (Hk : getItem STORAGE_KEY
                 (setItem (SESSION_PREFIX ++ Session.id s)%string
                    (stringify (toJS s))
                    (setItem STORAGE_KEY (stringify (Arr [toJS s])) env))
               = Some (stringify (Arr [toJS s]))).
  { rewrite getItem_setItem_ne by apply prefix_not_key.
    apply getItem_setItem_eq. }
  split; [|exact Hk].
  unfold getAllSessions. cbn [window setItem]. rewrite Hw. cbn [negb].
  fold (setItem STORAGE_KEY (stringify (Arr [toJS s])) env).
  fold (setItem (SESSION_PREFIX ++ Session.id s)%string (stringify (toJS s))
          (setItem STORAGE_KEY (stringify (Arr [toJS s])) env)).
  rewrite Hk.
  destruct (stringify_sessions [toJS s] [s] (toJS_same_list [s])) as [-> _].
  assert (Hp : plain (Arr (List.map session_json [s])) = true)
    by (apply sessions_plain; cbn; rewrite Hs; reflexivity).
  rewrite (stringify_not_empty _ Hp). unfold stringify.
  rewrite (parse_str _ "" Hp eq_refl).
  rewrite reviveSessions_json by (cbn; rewrite Hs; reflexivity).
  reflexivity.
Qed.

End StorageMore.

Lemma fresh_reachable : Storage.reachable Storage.fresh.
Proof. apply Storage.reach_unused; reflexivity. Qed.

Lemma saved_reachable :
  Storage.reachable
    (Storage.saveSession (Storage.toJS Storage.sample_session)
       Storage.fresh).
Proof. apply Storage.reach_save; [exact fresh_reachable | reflexivity]. Qed.

Lemma getSession_after_save_witness :
  Storage.reachable Storage.fresh /\
  Storage.ok_session Storage.sample_session = true /\
  Storage.getSession (Session.id Storage.sample_session)
    (Storage.saveSession (Storage.toJS Storage.sample_session) Storage.fresh)
  = Storage.toJS Storage.sample_session.
Proof.
  split; [exact fresh_reachable|]. split; [reflexivity|].
  apply (getSession_after_save Storage.fresh Storage.sample_session);
    [exact fresh_reachable | reflexivity].
Defined.

Lemma getSession_after_delete_witness :
  let env := Storage.saveSession (Storage.toJS Storage.sample_session)
               Storage.fresh in
  Storage.reachable env /\
  Storage.getSession "session_1700000000000"
    (Storage.deleteSession "session_1700000000000" env) = JS.Null.
Proof.
  cbv zeta. split; [exact saved_reachable|].
  apply (getSession_after_delete _ "session_1700000000000" saved_reachable).
Defined.

Lemma stored_sessions_consistent_witness :
  let env := Storage.saveSession (Storage.toJS Storage.sample_session)
               Storage.fresh in
  Storage.reachable env /\
  NoDup (List.map (fun v => JS.get v "id") (Storage.getAllSessions env)).
Proof.
  cbv zeta. split; [exact saved_reachable|].
  apply (stored_sessions_consistent _ saved_reachable).
Defined.

Lemma saveSession_upserts_witness :
  Storage.reachable Storage.fresh /\
  Storage.ok_session Storage.sample_session = true /\
  Storage.getAllSessions
    (Storage.saveSession (Storage.toJS Storage.sample_session) Storage.fresh)
  = Storage.getAllSessions Storage.fresh
      ++ [Storage.toJS Storage.sample_session].
Proof.
  split; [exact fresh_reachable|]. split; [reflexivity|].
  apply (saveSession_upserts Storage.fresh Storage.sample_session
           fresh_reachable eq_refl).
Defined.

Lemma import_merges_by_id_witness :
  let source := Storage.saveSession (Storage.toJS Storage.sample_session)
                  Storage.fresh in
  Storage.reachable Storage.fresh /\ Storage.reachable source /\
  Storage.getSession "session_1700000000000"
    (fst (Storage.importSessions (Storage.exportSessions source)
            Storage.fresh))
  = match Storage.getSession "session_1700000000000" source with
    | JS.Null => Storage.getSession "session_1700000000000" Storage.fresh
    | session => session
    end.
Proof.
  cbv zeta. split; [exact fresh_reachable|]. split; [exact saved_reachable|].
  apply (import_merges_by_id Storage.fresh _ "session_1700000000000"
           fresh_reachable saved_reachable).
Defined.

Lemma storage_size_counts_twice_witness :
  let env := Storage.saveSession (Storage.toJS Storage.sample_session)
               Storage.fresh in
  Storage.reachable env /\
  Storage.getStorageSize env
  = (String.length (JS.stringify (JS.Arr (Storage.getAllSessions env)))
     + list_sum (List.map (fun v => String.length (JS.stringify v))
                          (Storage.getAllSessions env)))%nat.
Proof.
  cbv zeta. split; [exact saved_reachable|].
  apply (storage_size_counts_twice _ saved_reachable).
Defined.

Lemma save_on_unreadable_store_witness :
  let env := Storage.setItem Storage.STORAGE_KEY "not json" Storage.fresh in
  Storage.window env = true /\ Storage.getAllSessions env = [] /\
  Storage.ok_session Storage.sample_session = true /\
  Storage.getAllSessions
    (Storage.saveSession (Storage.toJS Storage.sample_session) env)
  = [Storage.toJS Storage.sample_session].
Proof.
  cbv zeta. split; [reflexivity|]. split; [vm_compute; reflexivity|].
  split; [reflexivity|].
  refine (proj1 (save_on_unreadable_store _ Storage.sample_session _ _ _));
    [reflexivity | vm_compute; reflexivity | reflexivity].
Defined.

Section StorageHidden.
Import JS Storage.

Lemma map_opt_none {A B} (f : A -> option B) (l : list A) x :
  In x l -> f x = None -> map_opt f l = None.
Proof.
  induction l as [|y l IH]; intros Hin Hx; [destruct Hin|].
  simpl. destruct Hin as [->|Hin].
  - rewrite Hx. reflexivity.
  - rewrite (IH Hin Hx). destruct (f y); reflexivity.
Qed.

Lemma forallb_insert {A} (p : A -> bool) (l : list A) i x :
  forallb p l = true -> p x = true -> forallb p (<[i := x]> l) = true.
Proof.
  revert i. induction l as [|y l IH]; intros i Hl Hx; [reflexivity|].
  simpl in Hl. apply andb_prop in Hl as [Hy Hl].
  destruct i; simpl; [rewrite Hx, Hl | rewrite Hy, IH]; auto.
Qed.

Lemma index_of_lt k l i : index_of k l = Some i -> (i < length l)%nat.
Proof.
  revert i. induction l as [|x l IH]; intros i; simpl; [discriminate|].
  destruct (String.eqb x k); [intros [= <-]; lia|].
  destruct (index_of k l); simpl; [|discriminate].
  intros [= <-]. specialize (IH _ eq_refl). lia.
Qed.

Lemma In_insert {A} (l : list A) i x :
  (i < length l)%nat -> In x (<[i := x]> l).
Proof.
  revert i. induction l as [|y l IH]; intros i Hi; simpl in Hi; [lia|].
  destruct i; simpl; [auto|]. right. apply IH. lia.
Qed.

(** The list [saveSession] writes for a record [v] with identifier [k],
    next to the stored forms of the sessions already there. *)
Lemma saved_record (v : value) (k : string) (ss : list StoredSession) :
  plain v = true -> forallb ok_session ss = true ->
  let saved := match index_of k (ids ss) with
               | Some i => <[i := v]> (List.map toJS ss)
               | None => List.map toJS ss ++ [v]
               end in
  exists twin,
    stringify (Arr saved) = stringify (Arr twin) /\
    plain (Arr twin) = true /\ In v twin.
Proof.
  intros Hv Hok. cbv zeta.
  pose proof (toJS_same_list ss) as Hsame.
  pose proof (sessions_plain ss Hok) as Hp. cbn [plain] in Hp.
  destruct (index_of k (ids ss)) as [i|] eqn:E.
  - exists (<[i := v]> (List.map session_json ss)). split; [|split].
    + apply same_text_Arr. apply Forall2_insert; [exact Hsame|].
      apply same_text_refl.
    + cbn [plain]. apply forallb_insert; assumption.
    + apply In_insert. apply index_of_lt in E.
      unfold ids in E. rewrite !length_map in *. exact E.
  - exists (List.map session_json ss ++ [v]). split; [|split].
    + apply same_text_Arr. apply Forall2_app; [exact Hsame|].
      constructor; [apply same_text_refl | constructor].
    + cbn [plain]. rewrite forallb_app, Hp. cbn. rewrite Hv. reflexivity.
    + apply in_or_app. right. left. reflexivity.
Qed.

(** X22.  [saveSession] (and so [importSessions]) stores whatever record
    it is given.  On a store the application has written, saving a JSON
    record that has a string [id] but cannot be revived as a session (for
    instance one without a [transcript] array) makes [getAllSessions]
    return the empty list: every session stored before is hidden, though
    its text is still in the storage. *)
Theorem unrevivable_record_hides_all (env : Env) (v : value) (k : string) :
  reachable env -> plain v = true -> get v "id" = Some (Str k) ->
  reviveSession v = None ->
  getAllSessions (saveSession v env) = [] /\
  getSession k (saveSession v env) = Null /\
  getItem (SESSION_PREFIX ++ k)%string (saveSession v env)
    = Some (stringify v).
Proof.
  intros Hr Hv Hg Hrev. destruct (reachable_holds env Hr) as (ss & H).
  pose proof (getAllSessions_holds env ss H) as Hall.
  rewrite (saveSession_unfold v k env _ (holds_window _ _ H) Hall Hg).
  rewrite findIndex_toJS.
  destruct (saved_record v k ss Hv (holds_ok _ _ H)) as (twin & -> & Hp & Hin).
  assert (E : getAllSessions
                (setItem (SESSION_PREFIX ++ k)%string (stringify v)
                   (setItem STORAGE_KEY (stringify (Arr twin)) env)) = []).
  { unfold getAllSessions. cbn [window setItem].
    rewrite (holds_window _ _ H). cbn [negb].
    fold (setItem STORAGE_KEY (stringify (Arr twin)) env).
    fold (setItem (SESSION_PREFIX ++ k)%string (stringify v)
            (setItem STORAGE_KEY (stringify (Arr twin)) env)).
    rewrite getItem_setItem_ne by apply prefix_not_key.
    rewrite getItem_setItem_eq.
    rewrite (stringify_not_empty _ Hp). unfold stringify.
    rewrite (parse_str _ "" Hp eq_refl).
    rewrite (map_opt_none reviveSession twin v Hin Hrev). reflexivity. }
  split; [exact E|]. split.
  - unfold getSession. rewrite E. reflexivity.
  - apply getItem_setItem_eq.
Qed.

End StorageHidden.

Lemma unrevivable_record_hides_all_witness :
  let env := Storage.saveSession (Storage.toJS Storage.sample_session)
               Storage.fresh in
  let v := JS.Obj [("id", JS.Str "x")] in
  Storage.reachable env /\
  length (Storage.getAllSessions env) = 1%nat /\
  Storage.getAllSessions (Storage.saveSession v env) = [].
Proof.
  cbv zeta.
  assert (H : Storage.reachable
                (Storage.saveSession (Storage.toJS Storage.sample_session)
                   Storage.fresh)).
  { apply Storage.reach_save; [|reflexivity].
    apply Storage.reach_unused; reflexivity. }
  split; [exact H|]. split; [vm_compute; reflexivity|].
  refine (proj1 (unrevivable_record_hides_all _ _ "x" H _ _ _)); reflexivity.
Defined.

(** ** [cleanTranscriptText] *)

Section CleanFacts.
Import Text Exports.

Ltac chars :=
  unfold is_mark, is_space, is_word, is_lower, SPACE, FULL_STOP, LOWER_I,
    UPPER_I in *;
  lia.

Lemma mark_not_space c : is_mark c = true -> is_space c = false.
Proof. chars. Qed.

Lemma ends_with_mark_cons c s :
  s <> [] -> ends_with_mark (c :: s) = ends_with_mark s.
Proof. destruct s; [congruence | reflexivity]. Qed.

Lemma ends_with_mark_nonempty s : ends_with_mark s = true -> s <> [].
Proof. destruct s; [discriminate | discriminate]. Qed.

Lemma ends_with_mark_dot s : ends_with_mark (s ++ [FULL_STOP]) = true.
Proof.
  induction s as [|c r IH]; [reflexivity|].
  change ((c :: r) ++ [FULL_STOP]) with (c :: (r ++ [FULL_STOP])).
  rewrite ends_with_mark_cons; [exact IH|]. destruct r; discriminate.
Qed.

Lemma replace_i_go_nonempty p s : s <> [] -> replace_i_go p s <> [].
Proof. destruct s; [congruence | discriminate]. Qed.

Lemma is_mark_replaced c (b : bool) :
  is_mark (if (c =? LOWER_I)%N && b then UPPER_I else c) = is_mark c.
Proof. destruct ((c =? LOWER_I)%N && b) eqn:E; [chars | reflexivity]. Qed.

Lemma ends_with_mark_replace p s :
  ends_with_mark (replace_i_go p s) = ends_with_mark s.
Proof.
  revert p. induction s as [|c r IH]; intros p; [reflexivity|].
  destruct r as [|d r'].
  - simpl. rewrite <- andb_assoc. apply is_mark_replaced.
  - change (replace_i_go p (c :: d :: r'))
      with ((if (c =? LOWER_I)%N && negb p && negb (next_is_word (d :: r'))
             then UPPER_I else c)
            :: replace_i_go (is_word c) (d :: r')).
    rewrite (ends_with_mark_cons c (d :: r')) by discriminate.
    rewrite ends_with_mark_cons
      by (apply replace_i_go_nonempty; discriminate).
    apply IH.
Qed.

Lemma ends_with_mark_collapse b s :
  ends_with_mark s = true -> ends_with_mark (collapse_go b s) = true.
Proof.
  revert b. induction s as [|c r IH]; intros b H; [discriminate|].
  destruct r as [|d r'].
  - simpl in H. simpl. rewrite (mark_not_space _ H). simpl. exact H.
  - rewrite ends_with_mark_cons in H by discriminate.
    assert (Hr : forall b', ends_with_mark (collapse_go b' (d :: r')) = true)
      by (intros b'; apply IH, H).
    assert (Hn : forall b', collapse_go b' (d :: r') <> [])
      by (intros b'; apply ends_with_mark_nonempty, Hr).
    change (collapse_go b (c :: d :: r'))
      with (if is_space c
            then if b then collapse_go true (d :: r')
                 else SPACE :: collapse_go true (d :: r')
            else c :: collapse_go false (d :: r')).
    destruct (is_space c); [destruct b|];
      rewrite ?ends_with_mark_cons by apply Hn; apply Hr.
Qed.

Lemma ends_with_mark_trimStart s :
  ends_with_mark s = true -> ends_with_mark (trimStart s) = true.
Proof.
  induction s as [|c r IH]; intros H; [discriminate|].
  simpl. destruct (is_space c) eqn:E; [|exact H].
  apply IH. destruct r as [|d r']; [|exact H].
  simpl in H. rewrite (mark_not_space _ H) in E. discriminate.
Qed.

Lemma ends_with_mark_last s : ends_with_mark s = true -> last_space s = false.
Proof.
  induction s as [|c r IH]; intros H; [reflexivity|].
  destruct r as [|d r']; [apply mark_not_space, H | apply IH, H].
Qed.

Lemma replace_i_trimStart s :
  replace_i_go false s = s ->
  replace_i_go false (trimStart s) = trimStart s.
Proof.
  induction s as [|c r IH]; intros H; [reflexivity|].
  simpl. destruct (is_space c) eqn:E; [|exact H].
  apply replace_i_fixed_cons in H as [_ H].
  rewrite (space_not_word _ E) in H. apply IH, H.
Qed.

Section Host.
Variable upper : N -> utf16.

Lemma untrimmed_marked s : ends_with_mark (untrimmed upper s) = true.
Proof.
  unfold untrimmed, collapse, replace_i. cbv zeta.
  apply ends_with_mark_collapse.
  rewrite ends_with_mark_replace.
  destruct (ends_with_mark (capitalize upper s)) eqn:E; simpl;
    [exact E | apply ends_with_mark_dot].
Qed.

Lemma clean_trimStart s :
  cleanTranscriptText upper s = trimStart (untrimmed upper s).
Proof.
  unfold cleanTranscriptText. cbv zeta. fold (untrimmed upper s). unfold trim.
  apply trimEnd_id, ends_with_mark_last, ends_with_mark_trimStart,
    untrimmed_marked.
Qed.

Lemma clean_facts s :
  let out := cleanTranscriptText upper s in
  ends_with_mark out = true /\ trim out = out /\
  replace_i out = out /\ collapse out = out.
Proof.
  cbv zeta. rewrite clean_trimStart.
  pose proof (untrimmed_marked s) as Hm.
  apply ends_with_mark_trimStart in Hm.
  repeat split.
  - exact Hm.
  - apply trim_id; [apply trimStart_head | apply ends_with_mark_last, Hm].
  - apply replace_i_trimStart. unfold untrimmed, collapse, replace_i.
    apply replace_i_collapse; [discriminate | apply replace_i_go_idem].
  - apply (tidy_fixed false), (tidy_trimStart false).
    unfold untrimmed, collapse. apply tidy_collapse.
Qed.

Lemma clean_head c r :
  solid (toUpperCase upper c) ->
  exists r', cleanTranscriptText upper (c :: r) = toUpperCase upper c ++ r'.
Proof.
  intros Hs. rewrite clean_trimStart. unfold untrimmed. cbv zeta.
  cbn [capitalize].
  set (U := toUpperCase upper c) in *.
  set (t := if negb (ends_with_mark (U ++ r))
            then (U ++ r) ++ [FULL_STOP] else U ++ r).
  assert (Ht : exists r2, t = U ++ r2).
  { subst t. destruct (negb _); [rewrite <- app_assoc|]; eauto. }
  destruct Ht as (r2 & ->). unfold replace_i, collapse.
  destruct (replace_i_go_solid false U r2 Hs) as (q & ->).
  rewrite (collapse_go_solid false U _ Hs).
  rewrite trimStart_id by (apply head_space_app_solid, Hs). eauto.
Qed.

Lemma clean_again s :
  capitalize upper (cleanTranscriptText upper s) = cleanTranscriptText upper s ->
  cleanTranscriptText upper (cleanTranscriptText upper s)
  = cleanTranscriptText upper s.
Proof.
  intros Hcap. destruct (clean_facts s) as (Hm & Ht & Hr & Hc).
  cbv zeta in *. set (out := cleanTranscriptText upper s) in *.
  unfold cleanTranscriptText at 1. cbv zeta. rewrite Hcap, Hm. cbn [negb].
  rewrite Hr, Hc. exact Ht.
Qed.

End Host.
End CleanFacts.

(** X23.  Whatever text [cleanTranscriptText] is given, the empty one
    included, its result is not empty, ends with a full stop, an
    exclamation mark or a question mark, has no whitespace at either end,
    holds no standalone "i" and no whitespace but single spaces. *)
Theorem cleanTranscriptText_shape (upper : N -> Text.utf16) (s : Text.utf16) :
  let out := Exports.cleanTranscriptText upper s in
  out <> [] /\ Exports.ends_with_mark out = true /\
  Text.head_space out = false /\ Text.last_space out = false /\
  Text.replace_i out = out /\ Text.collapse out = out /\
  Text.tidy false out = true /\
  (forall k, Text.standalone out k = false).
Proof.
  destruct (clean_facts upper s) as (Hm & Ht & Hr & Hc). cbv zeta in *.
  repeat split; auto.
  - apply ends_with_mark_nonempty, Hm.
  - rewrite <- Ht. apply trim_ends.
  - apply ends_with_mark_last, Hm.
  - rewrite <- Hc. apply tidy_collapse.
  - apply replace_fixed_no_lone, Hr.
Qed.

(** X24.  On a text that does not start with whitespace the clean-up
    puts the upper-case form of the first character in its place (the
    empty text becomes "."); and when that first character is an ASCII
    character the clean-up is idempotent: cleaning the cleaned text
    changes nothing. *)
Theorem cleanTranscriptText_idempotent (upper : N -> Text.utf16) (s : Text.utf16) :
  Text.case_mapping upper ->
  Text.head_space s = false ->
  match s with
  | [] => Exports.cleanTranscriptText upper s = [Text.FULL_STOP]
  | c :: _ =>
      exists r, Exports.cleanTranscriptText upper s = Text.toUpperCase upper c ++ r
  end /\
  (match s with
   | [] => True
   | c :: _ => (c < 128)%N
   end ->
   Exports.cleanTranscriptText upper (Exports.cleanTranscriptText upper s)
   = Exports.cleanTranscriptText upper s).
Proof.
  intros Hu Hh. split.
  - destruct s as [|c r]; [reflexivity|].
    apply clean_head, solid_upper; assumption.
  - intros Ha. apply clean_again.
    destruct s as [|c r]; [reflexivity|]. simpl in Hh.
    destruct (clean_head upper c r (solid_upper upper c Hu Hh)) as (r' & ->).
    destruct (upper_ascii upper c Ha) as (u & -> & Hu1 & Hu2 & _).
    simpl. rewrite (upper_settled upper u Hu1 Hu2). reflexivity.
Qed.

Lemma cleanTranscriptText_idempotent_witness :
  Text.case_mapping Text.latin1_mapping /\
  Text.head_space (Text.of_string "hello  world") = false /\
  let upper := Text.latin1_mapping in
  let s := Text.of_string "hello  world" in
  match s with
  | [] => Exports.cleanTranscriptText upper s = [Text.FULL_STOP]
  | c :: _ =>
      exists r, Exports.cleanTranscriptText upper s = Text.toUpperCase upper c ++ r
  end /\
  (match s with
   | [] => True
   | c :: _ => (c < 128)%N
   end ->
   Exports.cleanTranscriptText upper (Exports.cleanTranscriptText upper s)
   = Exports.cleanTranscriptText upper s).
Proof.
  split; [exact latin1_mapping_case|]. split; [reflexivity|].
  exact (cleanTranscriptText_idempotent Text.latin1_mapping
           (Text.of_string "hello  world") latin1_mapping_case eq_refl).
Defined.

(** X25.  The clean-up capitalizes before it trims: a text that starts
    with an ASCII whitespace character followed by a lower-case letter
    other than "i" comes out starting with that lower-case letter. *)
Theorem cleanTranscriptText_leading_space
    (upper : N -> Text.utf16) (c d : N) (r : Text.utf16) :
  Text.is_space c = true -> (c < 128)%N ->
  Text.is_lower d = true -> d <> Text.LOWER_I ->
  exists r', Exports.cleanTranscriptText upper (c :: d :: r) = d :: r'.
Proof.
  intros Hc Ha Hd Hi. rewrite clean_trimStart. unfold Exports.untrimmed.
  cbv zeta. cbn [Text.capitalize].
  assert (Hl : Text.is_lower c = false)
    by (unfold Text.is_space, Text.is_lower in *; lia).
  rewrite (upper_settled upper c Ha Hl).
  change ([c] ++ d :: r) with (c :: d :: r).
  set (t := if negb (Exports.ends_with_mark (c :: d :: r))
            then (c :: d :: r) ++ [Text.FULL_STOP] else c :: d :: r).
  assert (Ht : exists r2, t = c :: d :: r2)
    by (subst t; destruct (negb _); simpl; eauto).
  destruct Ht as (r2 & ->).
  assert (Hdi : (d =? Text.LOWER_I)%N = false) by lia.
  assert (Hds : Text.is_space d = false)
    by (unfold Text.is_space, Text.is_lower in *; lia).
  unfold Text.replace_i, Text.collapse. simpl.
  rewrite (space_not_i _ Hc), Hdi. simpl.
  rewrite Hc, Hds. simpl. rewrite Hds. eauto.
Qed.

Lemma cleanTranscriptText_leading_space_witness :
  Text.is_space 32 = true /\ (32 < 128)%N /\
  Text.is_lower 119 = true /\ (119 : N) <> Text.LOWER_I /\
  exists r', Exports.cleanTranscriptText Text.latin1_mapping
               (32%N :: 119%N :: Text.of_string "ell") = 119%N :: r'.
Proof.
  assert (H : (119 : N) <> Text.LOWER_I) by discriminate.
  split; [reflexivity|]. split; [reflexivity|]. split; [reflexivity|].
  split; [exact H|].
  exact (cleanTranscriptText_leading_space Text.latin1_mapping 32%N 119%N
           (Text.of_string "ell") eq_refl eq_refl eq_refl H).
Defined.

(** ** The JSON export, the speaker export and the download name *)

Section ExportFacts.
Import JS Storage Exports.

Lemma record_same_text (e : StoredEntry) :
  same_text (record e) (record_read e).
Proof.
  split; [reflexivity|]. intros gap indent.
  unfold record, record_read. destruct (confidence e); reflexivity.
Qed.

Lemma record_read_plain (e : StoredEntry) :
  confidence_ok e = true -> plain (record_read e) = true.
Proof.
  unfold confidence_ok, record_read. destruct (confidence e) as [n|]; simpl.
  - intros ->. reflexivity.
  - reflexivity.
Qed.

(** X26.  The JSON export parses back, with [JSON.parse], to one record
    per final entry, in transcript order, each with the text, the speaker
    (or "Unknown"), the three dates as ISO texts and, when the entry has
    one, the confidence: interim entries are left out and a missing
    confidence is an absent property. *)
Theorem formatTranscriptAsJSON_parses (transcript : list StoredEntry) :
  forallb confidence_ok transcript = true ->
  parse (formatTranscriptAsJSON transcript)
  = Some (Arr (List.map record_read (List.filter isFinal transcript))).
Proof.
  intros Hok. unfold formatTranscriptAsJSON. cbv zeta.
  set (l := List.filter isFinal transcript).
  assert (Hl : forallb confidence_ok l = true).
  { apply forallb_forall. intros e He. subst l.
    apply List.filter_In in He as [He _].
    rewrite forallb_forall in Hok. apply Hok, He. }
  assert (Hs : same_text (Arr (List.map record l))
                         (Arr (List.map record_read l)))
    by (apply same_text_Arr, Forall2_map_same, record_same_text).
  destruct Hs as [_ Hs]. unfold stringify2. rewrite Hs.
  apply parse_str; [|reflexivity].
  cbn [plain]. clear -Hl. induction l as [|e l IH]; [reflexivity|].
  cbn [forallb List.map] in *. apply andb_prop in Hl as [He Hl].
  rewrite (record_read_plain e He), (IH Hl). reflexivity.
Qed.




Lemma sanitize_char_safe c :
  is_safe (if is_alnum c then c else "_"%char) = true.
Proof. unfold is_safe. destruct (is_alnum c) eqn:E; [rewrite E|]; reflexivity. Qed.

Lemma sanitize_char_idem c :
  (let c' := if is_alnum c then c else "_"%char in
   if is_alnum c' then c' else "_"%char)
  = if is_alnum c then c else "_"%char.
Proof. cbv zeta. destruct (is_alnum c) eqn:E; [rewrite E|]; reflexivity. Qed.

(** X28.  The file name of a download is a base name, a dot and the
    extension ("vtt" for WebVTT, otherwise the format).  The base name is
    as long as the session name, consists of ASCII letters, digits and
    underscores only (no dot, slash or space of the session name
    survives), keeps every letter and digit of the session name in its
    place, and is left as it is by a second replacement. *)
Theorem downloadName_safe (name : string) (format : Formatters.Format) :
  exists base,
    downloadName name format = (base ++ "." ++ extension format)%string /\
    String.length base = String.length name /\
    all_safe base = true /\
    sanitize base = base /\
    forall i c, String.get i name = Some c -> is_alnum c = true ->
                String.get i base = Some c.
Proof.
  exists (sanitize name). split; [reflexivity|].
  repeat split.
  - induction name as [|c r IH]; simpl; congruence.
  - induction name as [|c r IH]; [reflexivity|].
    cbn [sanitize all_safe]. rewrite sanitize_char_safe, IH. reflexivity.
  - induction name as [|c r IH]; [reflexivity|].
    cbn [sanitize]. rewrite IH. f_equal. apply sanitize_char_idem.
  - induction name as [|d r IH]; intros i c; [discriminate|].
    destruct i as [|i]; simpl.
    + intros [= ->] Hc. rewrite Hc. reflexivity.
    + apply IH.
Qed.

End ExportFacts.

Lemma formatTranscriptAsJSON_parses_witness :
  let t := Session.transcript Storage.sample_session in
  forallb Exports.confidence_ok t = true /\
  JS.parse (Exports.formatTranscriptAsJSON t)
  = Some (JS.Arr (List.map Exports.record_read (List.filter isFinal t))).
Proof.
  cbv zeta. split; [reflexivity|].
  apply (formatTranscriptAsJSON_parses
           (Session.transcript Storage.sample_session)).
  reflexivity.
Defined.
